(** * Verification of the Quantum two-station correlator and orchestrator

    Shallow embedding of the parts of [src/cpp/Correlator/Correlator.cpp] and
    [src/cpp/orchestrator/orchestrator.cpp] that compute the delay estimate,
    the bound-based noise reduction, the coincidence matching, the
    angle-bin histogram and the visibility.

    Conventions of the embedding:
    - [uint64_t] values are [Z] with their wrap-around written out
      ([mod 2^64]); [int64_t] values are [Z] in their defined range (signed
      overflow is undefined behaviour in C++, so it is not modelled);
    - [size_t] indices are [nat]; [int] values are [Z] in their range,
      with the conversion of a [size_t] to [int] written out;
    - [double] values of the correlator's spectral arithmetic are [R]; in
      [hist_norm] each [double] operation is rounded by a rounding
      function [rnd]; the
      [double] values of the orchestrator's histogram analysis are [Q], so
      that the histogram code stays executable. *)

(* String first, so that the list functions of List shadow its homonyms. *)
From Stdlib Require Import String Ascii.
From Stdlib Require Import ZArith List Lia Bool Reals Lra QArith Qround Qabs.
From Stdlib Require Import Permutation Sorted.
From Stdlib Require Mergesort.
From Stdlib Require Lqa.
Import ListNotations.

(** ** Correlator: peak search (Correlator::rmax, Correlator::runCorrelation) *)
Module Correlator.
Local Open Scope R_scope.

(** [struct Vmax { double max; size_t kmax; }].  The field [kmax] is
    [None] while it has never been written: [Vmax m;] in [rmax] is a local
    object of a trivial type, so its members start indeterminate. *)
Record Vmax := mkVmax { vmax : R; kmax : option nat }.

(** The loop [for (k = 1; k < N; k++) if (v[k] > m.max) { m.max = v[k];
    m.kmax = k; }], over the elements [v[k..N)], [k] being the index of the
    head of the list. *)
Fixpoint rmax_loop (v : list R) (k : nat) (m : Vmax) : Vmax :=
  match v with
  | [] => m
  | x :: rest =>
      let m' := if Rlt_dec (vmax m) x then mkVmax x (Some k) else m in
      rmax_loop rest (S k) m'
  end.

(** [Vmax Correlator::rmax(double* v, size_t N)]: [m.max = v[0]] is set,
    [m.kmax] is not.  An empty [v] (N = 0) reads out of range in the source;
    it is mapped to an indeterminate result. *)
Definition rmax (v : list R) : Vmax :=
  match v with
  | [] => mkVmax 0 None
  | x :: rest => rmax_loop rest 1 (mkVmax x None)
  end.

(** The value returned by [runCorrelation]:
    [this->tau * (uint64_t)smax.kmax], a product of [uint64_t]; [None] when
    [kmax] is indeterminate. *)
Definition runCorrelation_result (tau : Z) (smax : Vmax) : option Z :=
  match kmax smax with
  | Some k => Some ((tau * Z.of_nat k) mod 2 ^ 64)%Z
  | None => None
  end.

End Correlator.

(** ** Correlator: bounds and their binary search (Correlator::is_target_in_bound) *)
Module Bounds.
Local Open Scope Z_scope.

(** [struct Bound { uint64_t lower; uint64_t upper; }] *)
Record Bound := mkBound { lower : Z; upper : Z }.

Definition bound0 : Bound := mkBound 0 0.

(** The loop [while (left < right) { mid = left + (right - left) / 2;
    if (arr[mid].upper > target) right = mid; else left = mid + 1; }];
    [fuel] bounds the number of iterations (each one shrinks
    [right - left]). *)
Fixpoint bsearch (fuel : nat) (arr : list Bound) (target : Z) (left right : nat) : nat :=
  match fuel with
  | O => left
  | S f =>
      if (left <? right)%nat then
        let mid := (left + (right - left) / 2)%nat in
        if target <? upper (nth mid arr bound0)
        then bsearch f arr target left mid
        else bsearch f arr target (S mid) right
      else left
  end.

(** [bool Correlator::is_target_in_bound(Bound arr[], size_t size, uint64_t target)] *)
Definition is_target_in_bound (arr : list Bound) (size : nat) (target : Z) : bool :=
  let left := bsearch size arr target 0 size in
  (left <? size)%nat
  && ((lower (nth left arr bound0) <=? target) && (target <=? upper (nth left arr bound0))).

(** The linear containment scan the binary search is compared with: some
    bound among the first [size] ones contains [target]. *)
Definition linear_in_bound (arr : list Bound) (size : nat) (target : Z) : bool :=
  existsb (fun b => (lower b <=? target) && (target <=? upper b)) (firstn size arr).

(** Adjacent-pair check that a list of bounds is non-decreasing in a field. *)
Fixpoint sorted_by (f : Bound -> Z) (arr : list Bound) : bool :=
  match arr with
  | a :: ((b :: _) as rest) => (f a <=? f b) && sorted_by f rest
  | _ => true
  end.

End Bounds.

(** ** Correlator: cross-power spectrum and standardization (Correlator::CalculateDeltaT) *)
Module Spectral.
Local Open Scope R_scope.

(** [fftw_complex] is [double[2]]: real part, imaginary part. *)
Definition cpx := (R * R)%type.

(** The loop of lines 142-150 over the two forward spectra [buff1_c] and
    [buff2_c]: [cbuff_c[k][0] = real1 * real2 + imag1 * imag2;
    cbuff_c[k][1] = -imag1 * real2 + real1 * imag2;]. *)
Fixpoint cross_power (buff1_c buff2_c : list cpx) : list cpx :=
  match buff1_c, buff2_c with
  | (real1, imag1) :: rest1, (real2, imag2) :: rest2 =>
      (real1 * real2 + imag1 * imag2, - imag1 * real2 + real1 * imag2)
        :: cross_power rest1 rest2
  | _, _ => []
  end.

(** Complex product and conjugate, for comparing [cross_power] with the
    algebraic product of the spectra. *)
Definition cmul (a b : cpx) : cpx :=
  (fst a * fst b - snd a * snd b, fst a * snd b + snd a * fst b).

Definition cconj (a : cpx) : cpx := (fst a, - snd a).

(** [size_t n] converted to [double] after the [size_t] subtraction
    [n - 1], which wraps for [n = 0]. *)
Definition size_t_pred_R (n : nat) : R := IZR ((Z.of_nat n - 1) mod 2 ^ 64).

(** [double Correlator::vec_mean(double* v, size_t n)] *)
Definition vec_mean (v : list R) (n : nat) : R :=
  fold_left (fun buff x => buff + x) (firstn n v) 0 / INR n.

(** [double Correlator::vec_variance(double* v, double vmean, size_t n)]:
    despite its name it returns the sample standard deviation. *)
Definition vec_variance (v : list R) (vmean : R) (n : nat) : R :=
  sqrt (fold_left (fun buff x => buff + (x - vmean) * (x - vmean)) (firstn n v) 0
        / size_t_pred_R n).

(** Lines 169-177 of [CalculateDeltaT]: mean and standard deviation of the
    real part [cbuffr] of the normalised inverse transform, then
    [S[n] = (cbuffr[n] - cmean) / cvar] for every [n < N], with no test on
    [cvar]. *)
Definition standardize (cbuffr : list R) (N : nat) : list R :=
  let cmean := vec_mean cbuffr N in
  let cvar := vec_variance cbuffr cmean N in
  map (fun x => (x - cmean) / cvar) (firstn N cbuffr).

(** The end of [CalculateDeltaT]: the series [S] written to [dataFile]
    and the peak [rmax(S, N)] returned. *)
Definition CalculateDeltaT_tail (cbuffr : list R) (N : nat) : list R * Correlator.Vmax :=
  let S := standardize cbuffr N in (S, Correlator.rmax S).

End Spectral.

(** ** Correlator: noise reduction (noise_reduc_bound, delete_marked_values) *)
(** [std::sort] on a [std::vector<int>]: a sort of [Z] by [<=]. *)
Module ZOrder <: Orders.TotalLeBool.
Definition t := Z.
Definition leb := Z.leb.
Definition leb_total (a1 a2 : Z) : leb a1 a2 = true \/ leb a2 a1 = true.
Proof.
  unfold leb. destruct (Z.leb_spec a1 a2); [left; reflexivity|].
  right. apply Z.leb_le. apply Z.lt_le_incl. assumption.
Qed.
End ZOrder.

Module ZSort := Mergesort.Sort ZOrder.

Module NoiseReduc.
Import Bounds.
Local Open Scope Z_scope.

Definition u64 (z : Z) : Z := z mod 2 ^ 64.

(** [datapoints[i] + (datapoints[i + 1] * static_cast<uint64_t>(1e12))] *)
Definition datapoint_of (w0 w1 : Z) : Z := u64 (w0 + u64 (w1 * 10 ^ 12)).

(** [Correlator::get_delay_estimate()] and [bound_size]. *)
Definition get_delay_estimate : Z := 10000.
Definition bound_size : Z := 10000.

(** Lines 340-341: [lower = (datapoint > delay + bound_size) ?
    datapoint - delay - bound_size : 0; upper = datapoint - delay + bound_size]. *)
Definition make_bound (datapoint : Z) : Bound :=
  mkBound (if get_delay_estimate + bound_size <? datapoint
           then datapoint - get_delay_estimate - bound_size else 0)
          (u64 (u64 (datapoint - get_delay_estimate) + bound_size)).

(** A file of [uint64_t] words read [chunk_size] words at a time:
    [while (f.read(buf, chunk_size * 8) || f.gcount())]. *)
Fixpoint chunks (fuel chunk_size : nat) (ws : list Z) : list (list Z) :=
  match fuel with
  | O => []
  | S f =>
      match ws with
      | [] => []
      | _ => firstn chunk_size ws :: chunks f chunk_size (skipn chunk_size ws)
      end
  end.

Definition read_chunks (chunk_size : nat) (ws : list Z) : list (list Z) :=
  chunks (length ws) chunk_size ws.

(** The inner loop [for (i = 0; i + 1 < readCount; i += 2)] over one
    chunk: the word offset [i] of each pair and its absolute time. *)
Fixpoint pairs_from (chunk : list Z) (i : nat) : list (nat * Z) :=
  match chunk with
  | w0 :: w1 :: rest => (i, datapoint_of w0 w1) :: pairs_from rest (i + 2)
  | _ => []
  end.

(** First pass of [noise_reduc_bound]: [bounds[k++]] for each pair of the
    smaller file, into a vector of [num_elements_smaller] zeroed bounds. *)
Definition build_bounds (chunk_size num_elements_smaller : nat) (ws : list Z) : list Bound :=
  let written := flat_map (fun ch => map (fun p => make_bound (snd p)) (pairs_from ch 0))
                          (read_chunks chunk_size ws) in
  firstn num_elements_smaller (written ++ repeat (mkBound 0 0) num_elements_smaller).

(** [marked.push_back(index)] with [std::vector<int> marked]: the
    [size_t] index is converted to [int], modulo 2^32 as a signed value
    (the conversion of GCC and Clang, and of C++20). *)
Definition int_of_size (n : nat) : Z :=
  let w := Z.of_nat n mod 2 ^ 32 in
  if w <? 2 ^ 31 then w else w - 2 ^ 32.

(** Second pass: both word indices [chunkCnt * chunk_size + i] and
    [chunkCnt * chunk_size + i + 1] of each pair outside every bound are
    pushed to [marked], as [int]s. *)
Definition mark_chunk (bounds : list Bound) (num_elements_smaller base : nat)
  (chunk : list Z) : list Z :=
  flat_map (fun p => if is_target_in_bound bounds num_elements_smaller (snd p)
                     then [] else [int_of_size (base + fst p); int_of_size (base + fst p + 1)])
           (pairs_from chunk 0).

Fixpoint mark_chunks (bounds : list Bound) (num_elements_smaller chunk_size chunkCnt : nat)
  (chs : list (list Z)) : list Z :=
  match chs with
  | [] => []
  | ch :: rest =>
      mark_chunk bounds num_elements_smaller (chunkCnt * chunk_size) ch
        ++ mark_chunks bounds num_elements_smaller chunk_size (S chunkCnt) rest
  end.

(** [std::lower_bound(first, last, value)] as libstdc++ writes it
    ([while (len > 0) { half = len >> 1; middle = first + half;
    if (middle[0] < value) { first = middle + 1; len = len - half - 1; }
    else len = half; }]).  [middle[0] < value] compares an [int] with the
    [size_t] [value]: the usual arithmetic conversions turn the [int] into
    a [size_t], modulo 2^64.  [fuel] bounds the iterations (each one
    shrinks [len]). *)
Fixpoint lower_bound_loop (fuel : nat) (marked : list Z) (v : Z) (first len : nat) : nat :=
  match fuel with
  | O => first
  | S f =>
      if (0 <? len)%nat then
        let half := (len / 2)%nat in
        let middle := (first + half)%nat in
        if u64 (nth middle marked 0) <? v
        then lower_bound_loop f marked v (S middle) (len - half - 1)
        else lower_bound_loop f marked v first half
      else first
  end.

(** [std::binary_search(marked.begin(), marked.end(), g)]:
    [i = lower_bound(...); return i != last && !(value < *i);], with the
    [size_t] index [g] (a file holds fewer than 2^61 words, so the index
    never wraps) and the [int] element converted to [size_t]. *)
Definition binary_search (marked : list Z) (g : nat) : bool :=
  let v := Z.of_nat g in
  let i := lower_bound_loop (length marked) marked v 0 (length marked) in
  (i <? length marked)%nat && negb (v <? u64 (nth i marked 0)).

(** The copy loop of [delete_marked_values]: word [i] of chunk [chunkCnt]
    is written to [temp.bin] unless its index is marked. *)
Fixpoint keep_chunk (marked : list Z) (base i : nat) (chunk : list Z) : list Z :=
  match chunk with
  | [] => []
  | w :: rest =>
      (if binary_search marked (base + i) then [] else [w])
        ++ keep_chunk marked base (S i) rest
  end.

Fixpoint keep_chunks (marked : list Z) (chunk_size chunkCnt : nat)
  (chs : list (list Z)) : list Z :=
  match chs with
  | [] => []
  | ch :: rest =>
      keep_chunk marked (chunkCnt * chunk_size) 0 ch
        ++ keep_chunks marked chunk_size (S chunkCnt) rest
  end.

(** [void Correlator::delete_marked_values(const char* fname)]: the new
    contents of [fname] ([temp.bin] copied back over it). *)
Definition delete_marked_values (chunk_size : nat) (marked : list Z) (ws : list Z) : list Z :=
  keep_chunks marked chunk_size 0 (read_chunks chunk_size ws).

(** [void Correlator::noise_reduc_bound(fp1, fp2)] on the contents of the
    two files, returning their new contents.  File sizes are in bytes; on a
    tie both the "larger" and the "smaller" file are [fp2]. *)
Definition noise_reduc_bound (chunk_size : nat) (f1 f2 : list Z) : list Z * list Z :=
  let size1 := (8 * length f1)%nat in
  let size2 := (8 * length f2)%nat in
  let larger := if (size2 <? size1)%nat then f1 else f2 in
  let smaller := if (size1 <? size2)%nat then f1 else f2 in
  let num_elements_smaller := ((if (size1 <? size2)%nat then size1 else size2) / 8 / 2)%nat in
  let bounds := build_bounds chunk_size num_elements_smaller smaller in
  let marked := mark_chunks bounds num_elements_smaller chunk_size 0
                            (read_chunks chunk_size larger) in
  let larger' := delete_marked_values chunk_size (ZSort.sort marked) larger in
  if (size2 <? size1)%nat then (larger', f2) else (f1, larger').

(** A timestamp file as records [(subSecondOffset, secondsCounter)] and
    its words on disk. *)
Fixpoint flatten_records (rs : list (Z * Z)) : list Z :=
  match rs with
  | [] => []
  | (w0, w1) :: rest => w0 :: w1 :: flatten_records rest
  end.

(** Record-level reading of the two passes, used to state and prove what
    they do: whether a record's absolute time lies in a bound, the word
    indices marked for the records of a file whose first word has index
    [base], and the copy loop without its chunking. *)
Definition record_in_bounds (bounds : list Bound) (num_elements_smaller : nat)
  (r : Z * Z) : bool :=
  is_target_in_bound bounds num_elements_smaller (datapoint_of (fst r) (snd r)).

Fixpoint record_marks (bounds : list Bound) (num_elements_smaller base : nat)
  (recs : list (Z * Z)) : list nat :=
  match recs with
  | [] => []
  | r :: rest =>
      (if record_in_bounds bounds num_elements_smaller r then [] else [base; (base + 1)%nat])
        ++ record_marks bounds num_elements_smaller (base + 2) rest
  end.

Fixpoint keep_flat (marked : list Z) (g : nat) (ws : list Z) : list Z :=
  match ws with
  | [] => []
  | w :: rest => (if binary_search marked g then [] else [w]) ++ keep_flat marked (S g) rest
  end.

(** Order-preserving subsequence. *)
Inductive subseq {A : Type} : list A -> list A -> Prop :=
| subseq_nil : subseq [] []
| subseq_keep (x : A) (l l' : list A) : subseq l l' -> subseq (x :: l) (x :: l')
| subseq_drop (x : A) (l l' : list A) : subseq l l' -> subseq l (x :: l').

End NoiseReduc.

(** ** Experiment orchestrator: coincidence analysis (orchestrator.cpp) *)
Module Orchestrator.
Local Open Scope Z_scope.

Inductive OrchestratorStep :=
| HomeAll | Setup | MeasureFullPhase | ReadData | AnalyzeData | RotateToMinVis
| AdjustQWP | MeasureWithQWP | AnalyzeQWPData | ProcessQWPResults
| CheckConvergence | Exit.

Inductive MeasurementType := FullPhase | FineScan.

(** The members of [class Orchestrator] the analysis reads or writes.
    The [uint64_t] counters are [nat]: they only ever grow by one. *)
Record OrchState := mkOrchState {
  currentStep : OrchestratorStep;
  degreeStep : Q;
  numAngleBins : nat;
  lastMeasurementType : MeasurementType;
  lastMeasurementStartTimePico : Z;
  coincidenceBins : list nat;
  totalCoincidences : nat;
  stationTimeOffset : Z;
  currentVisibility : Q
}.

Definition set_bins (st : OrchState) (bins : list nat) (total : nat) : OrchState :=
  mkOrchState (currentStep st) (degreeStep st) (numAngleBins st)
    (lastMeasurementType st) (lastMeasurementStartTimePico st) bins total
    (stationTimeOffset st) (currentVisibility st).

Definition set_visibility (st : OrchState) (v : Q) : OrchState :=
  mkOrchState (currentStep st) (degreeStep st) (numAngleBins st)
    (lastMeasurementType st) (lastMeasurementStartTimePico st)
    (coincidenceBins st) (totalCoincidences st) (stationTimeOffset st) v.

Definition set_step (st : OrchState) (s : OrchestratorStep) : OrchState :=
  mkOrchState s (degreeStep st) (numAngleBins st)
    (lastMeasurementType st) (lastMeasurementStartTimePico st)
    (coincidenceBins st) (totalCoincidences st) (stationTimeOffset st)
    (currentVisibility st).

(** *** findCoincidences *)

(** [while (j < serverTimestamps.size() && serverTimestamps[j] < limit) ++j;]
    where [rest] is the suffix [serverTimestamps[j..]]. *)
Fixpoint skip_early (limit : Z) (rest : list Z) : list Z :=
  match rest with
  | s :: rest' => if s <? limit then skip_early limit rest' else rest
  | [] => []
  end.

(** The [for (clientTime : clientTimestamps)] loop; the server cursor [j]
    is carried from one client to the next as the suffix [rest]. *)
Fixpoint match_clients (offset tol : Z) (clients rest : list Z) : list Z :=
  match clients with
  | [] => []
  | clientTime :: clients' =>
      let adjustedClientTime := clientTime + offset in
      let rest' := skip_early (adjustedClientTime - tol) rest in
      match rest' with
      | s :: _ =>
          if Z.abs (s - adjustedClientTime) <=? tol
          then Z.quot (adjustedClientTime + s) 2 :: match_clients offset tol clients' rest'
          else match_clients offset tol clients' rest'
      | [] => match_clients offset tol clients' rest'
      end
  end.

(** [std::vector<int64_t> Orchestrator::findCoincidences(client, server, tolerancePico)],
    [offset] being the member [stationTimeOffset]. *)
Definition findCoincidences (offset : Z) (clientTimestamps serverTimestamps : list Z)
  (tolerancePico : Z) : list Z :=
  match clientTimestamps, serverTimestamps with
  | [], _ | _, [] => []
  | _, _ => match_clients offset tolerancePico clientTimestamps serverTimestamps
  end.

(** *** binCoincidencesByAngle *)

(** [FULL_PHASE_ROTATION_SPEED = 180.0 / 30], [FINE_SCAN_ROTATION_SPEED = 20.0 / 5.0]. *)
Definition getRotationSpeed (t : MeasurementType) : Q :=
  match t with
  | FullPhase => (180 # 30)%Q
  | FineScan => (20 # 5)%Q
  end.

(** [static_cast<size_t>(x)] for a [double] [x]: truncation towards zero,
    defined for [-1 < x < 2^64]; [None] outside, where the conversion is
    undefined. *)
Definition size_t_of_double (x : Q) : option nat :=
  if Qle_bool x (-1)%Q || Qle_bool (inject_Z (2 ^ 64)) x then None
  else Some (Z.to_nat (Qfloor x)).

(** [binIndex = static_cast<size_t>(elapsedSec * rotationSpeed / degreeStep)]
    with [elapsedSec = (timestamp - lastMeasurementStartTimePico) / 1e12]. *)
Definition bin_index (st : OrchState) (rotationSpeed : Q) (timestamp : Z) : option nat :=
  let elapsedPico := timestamp - lastMeasurementStartTimePico st in
  let elapsedSec := (inject_Z elapsedPico / inject_Z (10 ^ 12))%Q in
  let angle := (elapsedSec * rotationSpeed)%Q in
  size_t_of_double (angle / degreeStep st)%Q.

(** [coincidenceBins[i]++] *)
Fixpoint incr_at (i : nat) (l : list nat) : list nat :=
  match l, i with
  | [], _ => []
  | x :: rest, O => S x :: rest
  | x :: rest, S i' => x :: incr_at i' rest
  end.

(** One iteration of [binCoincidencesByAngle]: counted only under
    [if (binIndex < numAngleBins)]; a timestamp whose conversion is
    undefined is left uncounted. *)
Definition bin_one (rotationSpeed : Q) (st : OrchState) (timestamp : Z) : OrchState :=
  match bin_index st rotationSpeed timestamp with
  | Some b =>
      if (b <? numAngleBins st)%nat
      then set_bins st (incr_at b (coincidenceBins st)) (S (totalCoincidences st))
      else st
  | None => st
  end.

(** [void Orchestrator::binCoincidencesByAngle(coincidenceTimestamps, rotationSpeed)] *)
Definition binCoincidencesByAngle (st : OrchState) (coincidenceTimestamps : list Z)
  (rotationSpeed : Q) : OrchState :=
  fold_left (bin_one rotationSpeed) coincidenceTimestamps st.

(** Whether a coincidence time lands inside the histogram, and whether it
    lands in bucket [b]: the test of [binCoincidencesByAngle], read per
    timestamp, used to state what the histogram counts. *)
Definition in_histogram (st : OrchState) (rotationSpeed : Q) (timestamp : Z) : bool :=
  match bin_index st rotationSpeed timestamp with
  | Some b => (b <? numAngleBins st)%nat
  | None => false
  end.

Definition in_bucket (st : OrchState) (rotationSpeed : Q) (b : nat) (timestamp : Z) : bool :=
  match bin_index st rotationSpeed timestamp with
  | Some b' => (b' =? b)%nat && (b' <? numAngleBins st)%nat
  | None => false
  end.

(** *** computeVisibility *)

(** [double Orchestrator::computeVisibility() const]; the values of
    [std::minmax_element] are the minimum and the maximum of the bins. *)
Definition computeVisibility (bins : list nat) (totalCoincidences : nat) : Q :=
  match bins with
  | [] => 0%Q
  | b :: rest =>
      if (totalCoincidences =? 0)%nat then 0%Q
      else
        let C_min := inject_Z (Z.of_nat (fold_left Nat.min rest b)) in
        let C_max := inject_Z (Z.of_nat (fold_left Nat.max rest b)) in
        if Qeq_bool (C_max + C_min)%Q 0%Q then 0%Q
        else ((C_max - C_min) / (C_max + C_min))%Q
  end.

(** *** The data folder and analyzeCoincidences *)

(** A directory entry: a file name and whether it is a regular file, or
    an entry whose status query or iteration throws [filesystem_error]. *)
Inductive dir_entry :=
| Entry (filename : String.string) (regular : bool)
| EntryFails.

(** The data folder: absent, or one whose [exists] test or
    [directory_iterator] constructor throws, or a listing. *)
Inductive data_folder :=
| FolderMissing
| FolderFails
| Folder (entries : list dir_entry).

(** [filename.find(condition) != std::string::npos] *)
Definition contains (filename condition : String.string) : bool :=
  match String.index 0 condition filename with
  | Some _ => true
  | None => false
  end.

Inductive filesystem_error := FilesystemError.

(** The body of the [try] block of [collectDataFiles]: [files] grows
    entry by entry; a throw carries the [files] built so far out to the
    handler (the vector is declared outside the [try]). *)
Fixpoint collect_loop (condition : String.string) (entries : list dir_entry)
  (files : list String.string) : (list String.string * filesystem_error) + list String.string :=
  match entries with
  | [] => inr files
  | EntryFails :: _ => inl (files, FilesystemError)
  | Entry name regular :: rest =>
      if regular && contains name condition
      then collect_loop condition rest (files ++ [name])
      else collect_loop condition rest files
  end.

(** [std::vector<std::string> Orchestrator::collectDataFiles(condition)]:
    the [catch (const std::filesystem::filesystem_error&)] handler returns
    [files]. *)
Definition collectDataFiles (folder : data_folder) (condition : String.string)
  : list String.string :=
  match folder with
  | FolderMissing => []
  | FolderFails => []
  | Folder entries =>
      match collect_loop condition entries [] with
      | inl (files, _) => files
      | inr files => files
      end
  end.

(** [static_cast<int64_t>] of a [uint64_t] (modular). *)
Definition to_int64 (z : Z) : Z := if z <? 2 ^ 63 then z else z - 2 ^ 64.

(** [loadTimestampsFromFile(path)]: the records of the file, or nothing
    when it cannot be opened ([contents] returns [None]). *)
Definition loadTimestampsFromFile (contents : String.string -> option (list (Z * Z)))
  (name : String.string) : list Z :=
  match contents name with
  | Some recs => map (fun r => to_int64 (fst r) + to_int64 (snd r) * 1000000000000) recs
  | None => []
  end.

(** The [for (i = 0; i < numPairs; ++i)] loop over the paired file names. *)
Fixpoint analyze_pairs (contents : String.string -> option (list (Z * Z)))
  (pairs : list (String.string * String.string)) (st : OrchState) : OrchState :=
  match pairs with
  | [] => st
  | (clientFile, serverFile) :: rest =>
      let clientTS := loadTimestampsFromFile contents clientFile in
      let serverTS := loadTimestampsFromFile contents serverFile in
      let coincidenceTS := findCoincidences (stationTimeOffset st) clientTS serverTS 10000 in
      let rotationSpeed := getRotationSpeed (lastMeasurementType st) in
      analyze_pairs contents rest (binCoincidencesByAngle st coincidenceTS rotationSpeed)
  end.

(** [void Orchestrator::analyzeCoincidences()] *)
Definition analyzeCoincidences (folder : data_folder)
  (contents : String.string -> option (list (Z * Z))) (st : OrchState) : OrchState :=
  let st0 := set_bins st (repeat 0%nat (length (coincidenceBins st))) 0 in
  let clientFiles := collectDataFiles folder "bme"%string in
  let serverFiles := collectDataFiles folder "wigner"%string in
  match clientFiles, serverFiles with
  | [], _ | _, [] => set_visibility st0 0%Q
  | _, _ =>
      let st1 := analyze_pairs contents (combine clientFiles serverFiles) st0 in
      set_visibility st1 (computeVisibility (coincidenceBins st1) (totalCoincidences st1))
  end.

(** [std::string Orchestrator::stepAnalyzeData()] *)
Definition stepAnalyzeData (folder : data_folder)
  (contents : String.string -> option (list (Z * Z))) (st : OrchState)
  : OrchState * String.string :=
  (set_step (analyzeCoincidences folder contents st) RotateToMinVis, "no_command"%string).

End Orchestrator.

(** ** Correlator: minimum search, histograms and file copy *)
Module CorrelatorAux.
Local Open Scope R_scope.

(** [struct Vmin { double min; size_t kmin; }]; [kmin] is [None] while it
    has never been written, as for [Vmax]. *)
Record Vmin := mkVmin { vmin : R; kmin : option nat }.

(** The loop [for (k = 1; k < N; k++) if (v[k] < m.min) { m.min = v[k];
    m.kmin = k; }]. *)
Fixpoint rmin_loop (v : list R) (k : nat) (m : Vmin) : Vmin :=
  match v with
  | [] => m
  | x :: rest =>
      let m' := if Rlt_dec x (vmin m) then mkVmin x (Some k) else m in
      rmin_loop rest (S k) m'
  end.

(** [Vmin Correlator::rmin(double* v, size_t N)]: [m.min = v[0]] is set,
    [m.kmin] is not. *)
Definition rmin (v : list R) : Vmin :=
  match v with
  | [] => mkVmin 0 None
  | x :: rest => rmin_loop rest 1 (mkVmin x None)
  end.

(** [void Correlator::hist_norm(uint64_t* hin, double* hout, size_t Nbin)]:
    [area] is the sum of the first [Nbin] counts, then
    [hout[k] = hin[k] / area].  Each [double] operation is its exact
    real result rounded by [rnd], the rounding of the [double] format:
    the conversion of each [uint64_t] count, each addition to [area] and
    each division. *)
Definition hist_norm (rnd : R -> R) (hin : list nat) (Nbin : nat) : list R :=
  let area := fold_left (fun area h => rnd (area + rnd (INR h))) (firstn Nbin hin) 0 in
  map (fun h => rnd (rnd (INR h) / area)) (firstn Nbin hin).

(** The loop of [dTmean] over [v[1..N)]: the [uint64_t] difference
    [v[k] - v[k - 1]] (modulo 2^64) is added to [dt] when it is below
    [5e7].  Converting the difference to [double] for the comparison keeps
    the outcome of the test: [5e7] is a [double] and rounding is monotone. *)
Fixpoint dT_loop (prev : Z) (rest : list Z) (dt : R) : R :=
  match rest with
  | [] => dt
  | x :: r =>
      let d := ((x - prev) mod 2 ^ 64)%Z in
      dT_loop x r (if Rlt_dec (IZR d) (IZR 50000000) then dt + IZR d else dt)
  end.

(** [double Correlator::dTmean(uint64_t* v, size_t N)]: [dt /= N - 1],
    with the [size_t] subtraction. *)
Definition dTmean (v : list Z) (N : nat) : R :=
  let dt := match firstn N v with
            | [] => 0
            | x :: r => dT_loop x r 0
            end in
  dt / Spectral.size_t_pred_R N.

(** The loop of [histogram]: [r = (v[k] - v[k - 1]) / Tbin] in [uint64_t]
    and [size_t] arithmetic, and [h[r] += 1] when [r < Nbin]. *)
Fixpoint hist_loop (prev : Z) (rest : list Z) (h : list nat) (Nbin Tbin : nat) : list nat :=
  match rest with
  | [] => h
  | x :: r =>
      let b := Z.to_nat (((x - prev) mod 2 ^ 64) / Z.of_nat Tbin)%Z in
      hist_loop x r (if (b <? Nbin)%nat then Orchestrator.incr_at b h else h) Nbin Tbin
  end.

(** [void Correlator::histogram(uint64_t* v, size_t N, size_t* h,
    size_t Nbin, size_t Tbin)]; [None] when the loop divides by
    [Tbin = 0]. *)
Definition histogram (v : list Z) (N : nat) (h : list nat) (Nbin Tbin : nat) : option (list nat) :=
  match firstn N v with
  | x :: ((_ :: _) as r) => if (Tbin =? 0)%nat then None else Some (hist_loop x r h Nbin Tbin)
  | _ => Some h
  end.

(** The [uint64_t] differences [v[k] - v[k - 1]] for [k = 1 .. N - 1],
    the quantities [dTmean] and [histogram] read. *)
Fixpoint diffs (v : list Z) : list Z :=
  match v with
  | x :: ((y :: _) as r) => ((y - x) mod 2 ^ 64)%Z :: diffs r
  | _ => []
  end.

(** An input file of [copyFiles]: its whole 8-byte words and the number of
    bytes of a trailing partial word ([in_tail < 8]). *)
Record InFile := mkInFile { in_words : list Z; in_tail : nat }.

(** The loop [while (inputFile.read(buffer, chunk_size * 8) ||
    inputFile.gcount())] of [copyFiles], for [chunk_size > 0]: a full read
    writes its [chunk_size] words plus [delay] and keeps the stream good; a
    short read writes its [gcount / 8] whole words and sets [failbit], so
    the next test ends the loop; a read of 0 bytes ends it at once. *)
Fixpoint copy_loop (fuel chunk_size : nat) (delay : Z) (ws : list Z) (tail : nat) : list Z :=
  match fuel with
  | O => []
  | S f =>
      let avail := (length ws * 8 + tail)%nat in
      if (chunk_size * 8 <=? avail)%nat then
        map (fun w => (w + delay) mod 2 ^ 64)%Z (firstn chunk_size ws)
          ++ copy_loop f chunk_size delay (skipn chunk_size ws) tail
      else if (avail =? 0)%nat then []
      else map (fun w => (w + delay) mod 2 ^ 64)%Z (firstn (avail / 8) ws)
  end.

(** What [copyFiles] leaves behind: the output file could not be opened
    (nothing written), the loop never ends, or the words written. *)
Inductive copy_result :=
| CopyNoOutput
| CopyDiverges
| CopyWrote (out : list Z).

(** [void Correlator::copyFiles(inputPaths, outputPath, delay)]; an input
    is [None] when it cannot be opened (it is skipped).  With
    [chunk_size = 0] every [read] of 0 bytes succeeds and leaves the stream
    good, so the loop over the first input that opens never ends. *)
Definition copyFiles (outputOpens : bool) (inputs : list (option InFile))
  (chunk_size : nat) (delay : Z) : copy_result :=
  if negb outputOpens then CopyNoOutput
  else if (chunk_size =? 0)%nat then
    (if existsb (fun o => match o with Some _ => true | None => false end) inputs
     then CopyDiverges else CopyWrote [])
  else CopyWrote (flat_map (fun o => match o with
                                     | Some f => copy_loop (S (length (in_words f))) chunk_size
                                                   delay (in_words f) (in_tail f)
                                     | None => []
                                     end) inputs).

End CorrelatorAux.

(** ** Orchestrator: parseGPSTime *)
Module GPSTime.
Local Open Scope Z_scope.

(** The C locale's [isspace]: space, and [\t \n \v \f \r]. *)
Definition is_space (c : ascii) : bool :=
  let n := nat_of_ascii c in ((n =? 32) || ((9 <=? n) && (n <=? 13)))%nat.

Definition digit_of (c : ascii) : option Z :=
  let n := nat_of_ascii c in
  if ((48 <=? n) && (n <=? 57))%nat then Some (Z.of_nat (n - 48)) else None.

Definition is_digit (c : ascii) : bool :=
  match digit_of c with Some _ => true | None => false end.

Fixpoint skip_ws (l : list ascii) : list ascii :=
  match l with
  | c :: r => if is_space c then skip_ws r else l
  | [] => []
  end.

(** The longest prefix of decimal digits, as digit values, and the rest. *)
Fixpoint span_digits (l : list ascii) : list Z * list ascii :=
  match l with
  | c :: r =>
      match digit_of c with
      | Some d => let (ds, rest) := span_digits r in (d :: ds, rest)
      | None => ([], l)
      end
  | [] => ([], [])
  end.

Definition digits_value (ds : list Z) : Z := fold_left (fun acc d => acc * 10 + d) ds 0.

(** An [std::istringstream]: the characters left, [failbit], [eofbit]. *)
Record istream := mkIs { is_buf : list ascii; is_fail : bool; is_eof : bool }.

Definition is_good (s : istream) : bool := negb (is_fail s) && negb (is_eof s).

(** The sentry of a formatted extraction: it fails (setting [failbit]) on
    a stream that is not good; it skips white space and fails with
    [eofbit | failbit] at the end of the input. *)
Definition sentry_skipws (s : istream) : istream * bool :=
  if is_good s then
    match skip_ws (is_buf s) with
    | [] => (mkIs [] true true, false)
    | l => (mkIs l false false, true)
    end
  else (mkIs (is_buf s) true (is_eof s), false).

Definition int_min : Z := - 2 ^ 31.
Definition int_max : Z := 2 ^ 31 - 1.

(** [is >> v] for an [int v] (libstdc++'s [num_get]): an optional sign,
    then decimal digits.  A failed sentry leaves [v] as it was ([None]:
    never written); no digit stores 0 and sets [failbit]; a value out of
    range stores [INT_MAX] or [INT_MIN] and sets [failbit]; reaching the end
    of the input sets [eofbit]. *)
Definition extract_int (s : istream) (v : option Z) : istream * option Z :=
  let (s1, ok) := sentry_skipws s in
  if negb ok then (s1, v) else
  let '(sign, l1) :=
    match is_buf s1 with
    | c :: r => if ascii_dec c "-"%char then (-1, r)
                else if ascii_dec c "+"%char then (1, r) else (1, is_buf s1)
    | [] => (1, [])
    end in
  let '(ds, l2) := span_digits l1 in
  let eof := match l2 with [] => true | _ => false end in
  match ds with
  | [] => (mkIs l2 true eof, Some 0)
  | _ =>
      let n := sign * digits_value ds in
      if (int_min <=? n) && (n <=? int_max) then (mkIs l2 false eof, Some n)
      else (mkIs l2 true eof, Some (if sign =? 1 then int_max else int_min))
  end.

(** [is >> c] for a [char c] (its value is never used). *)
Definition extract_char (s : istream) : istream :=
  let (s1, ok) := sentry_skipws s in
  if ok then match is_buf s1 with _ :: r => mkIs r false false | [] => s1 end else s1.

(** Up to [n] characters, stopping before a newline. *)
Fixpoint take_line (n : nat) (l : list ascii) : list ascii * list ascii :=
  match n, l with
  | O, _ => ([], l)
  | S n', c :: r =>
      if ascii_dec c "010"%char then ([], l)
      else let (got, rest) := take_line n' r in (c :: got, rest)
  | S _, [] => ([], [])
  end.

(** [is.get(buf, n)]: on a stream that is not good it sets [failbit] and
    stores only the terminating null; otherwise it reads up to [n - 1]
    characters, stopping before a newline, sets [eofbit] when the next
    character is the end of the input and [failbit] when it read nothing. *)
Definition get_chars (s : istream) (n : nat) : istream * list ascii :=
  if is_good s then
    let (got, rest) := take_line (n - 1) (is_buf s) in
    (mkIs rest (match got with [] => true | _ => false end)
          (match rest with [] => true | _ => false end), got)
  else (mkIs (is_buf s) true (is_eof s), []).

(** [std::string picoString(picoStr)]: the characters up to the first null. *)
Fixpoint take_until_nul (l : list ascii) : list ascii :=
  match l with
  | c :: r => if ascii_dec c "000"%char then [] else c :: take_until_nul r
  | [] => []
  end.

(** [while (picoString.length() < 12) picoString += '0';] *)
Definition pad12 (l : list ascii) : list ascii := l ++ repeat "0"%char (12 - length l).

(** [std::stoull(s)] (base 10, [strtoull]): white space, an optional sign,
    digits; [None] when it throws ([invalid_argument] without a digit,
    [out_of_range] above 2^64 - 1); a minus sign negates modulo 2^64. *)
Definition stoull (l : list ascii) : option Z :=
  let l0 := skip_ws l in
  let '(neg, l1) :=
    match l0 with
    | c :: r => if ascii_dec c "-"%char then (true, r)
                else if ascii_dec c "+"%char then (false, r) else (false, l0)
    | [] => (false, [])
    end in
  match fst (span_digits l1) with
  | [] => None
  | ds =>
      let v := digits_value ds in
      if 2 ^ 64 <=? v then None
      else Some (if neg then (- v) mod 2 ^ 64 else v)
  end.

Definition obind {A B : Type} (o : option A) (f : A -> option B) : option B :=
  match o with Some a => f a | None => None end.

(** An [int64_t] operation: [None] on signed overflow (undefined). *)
Definition i64 (z : Z) : option Z :=
  if (- 2 ^ 63 <=? z) && (z <? 2 ^ 63) then Some z else None.

(** [int64_t Orchestrator::parseGPSTime(const std::string& gpsTimeStr)]:
    [iss >> hour >> comma1 >> minute >> comma2 >> second >> dot;
    iss.get(picoStr, 13);], the padding and [std::stoull], then the
    [int64_t] sum.  [None] when [stoull] throws, when an [int] that was
    never written is read, or on signed overflow. *)
Definition parseGPSTime (gpsTimeStr : String.string) : option Z :=
  let s0 := mkIs (list_ascii_of_string gpsTimeStr) false false in
  let (s1, hour) := extract_int s0 None in
  let s2 := extract_char s1 in
  let (s3, minute) := extract_int s2 None in
  let s4 := extract_char s3 in
  let (s5, second) := extract_int s4 None in
  let s6 := extract_char s5 in
  let (_, picoStr) := get_chars s6 13 in
  let picoString := pad12 (take_until_nul picoStr) in
  obind (stoull picoString) (fun picoseconds =>
  obind hour (fun h => obind minute (fun m => obind second (fun s =>
  obind (i64 (h * 3600)) (fun a1 => obind (i64 (a1 * 1000000000000)) (fun t1 =>
  obind (i64 (m * 60)) (fun a2 => obind (i64 (a2 * 1000000000000)) (fun t2 =>
  obind (i64 (s * 1000000000000)) (fun t3 =>
  obind (i64 (t1 + t2)) (fun u1 => obind (i64 (u1 + t3)) (fun u2 =>
  i64 (u2 + Orchestrator.to_int64 picoseconds)))))))))))).

End GPSTime.

(** ** Orchestrator: the measurement state machine (runNextStep) *)
Module Machine.
Import Orchestrator.
Local Open Scope Q_scope.

(** The members of [class Orchestrator] beyond those of [OrchState]. *)
Record Machine := mkMachine {
  core : OrchState;
  lambda2_server : Q;
  lambda4_server : Q;
  lastMeasurementStartTime : String.string;
  previousVisibility : Q;
  visibilityThreshold : Q;
  qwpSideIndex : Z;
  qwpCurrentAngle : Q * Q;
  qwpPhase : Z;
  qwpTestIndex : nat;
  qwpTestAngles : list Q;
  qwpTestVisibilities : list Q;
  qwpBestVisibility : Q;
  qwpBestAngle : Q;
  qwpImprovedLastScan : bool
}.

(** What the machine reads from the outside world at a step: the time
    string of [fs.start_time()], and the data folder with the files in it
    (written by the stations between steps; [clearDataFolder] only acts on
    that folder). *)
Record StepEnv := mkEnv {
  env_start_time : String.string;
  env_folder : data_folder;
  env_contents : String.string -> option (list (Z * Z))
}.

(** The command string returned to the TCP client: a literal one, or
    [cmd << "rotate " << device << " " << std::fixed << std::setprecision(2)
    << angle] (the angle printed with two decimals). *)
Inductive Cmd :=
| CmdText (s : String.string)
| CmdRotate (device : String.string) (angle : Q).

Definition QWP_COARSE_STEP : Q := 2.
Definition QWP_COARSE_RANGE : Q := 10.
Definition QWP_FINE_STEP : Q := 1 # 2.
Definition QWP_FINE_RANGE : Q := 2.
(** [0.001] and [0.01] are not exact [double]s; they are read as the
    decimals. *)
Definition QWP_MIN_IMPROVEMENT : Q := 1 # 1000.

Definition set_core (m : Machine) (c : OrchState) : Machine :=
  mkMachine c (lambda2_server m) (lambda4_server m) (lastMeasurementStartTime m)
    (previousVisibility m) (visibilityThreshold m) (qwpSideIndex m) (qwpCurrentAngle m)
    (qwpPhase m) (qwpTestIndex m) (qwpTestAngles m) (qwpTestVisibilities m)
    (qwpBestVisibility m) (qwpBestAngle m) (qwpImprovedLastScan m).

Definition set_currentStep (m : Machine) (s : OrchestratorStep) : Machine :=
  set_core m (set_step (core m) s).

Definition set_measurement (m : Machine) (t : MeasurementType) (start : String.string)
  (startPico : Z) : Machine :=
  let c := core m in
  mkMachine (mkOrchState (currentStep c) (degreeStep c) (numAngleBins c) t startPico
               (coincidenceBins c) (totalCoincidences c) (stationTimeOffset c)
               (currentVisibility c))
    (lambda2_server m) (lambda4_server m) start
    (previousVisibility m) (visibilityThreshold m) (qwpSideIndex m) (qwpCurrentAngle m)
    (qwpPhase m) (qwpTestIndex m) (qwpTestAngles m) (qwpTestVisibilities m)
    (qwpBestVisibility m) (qwpBestAngle m) (qwpImprovedLastScan m).

Definition set_lambdas (m : Machine) (l2 l4 : Q) : Machine :=
  mkMachine (core m) l2 l4 (lastMeasurementStartTime m)
    (previousVisibility m) (visibilityThreshold m) (qwpSideIndex m) (qwpCurrentAngle m)
    (qwpPhase m) (qwpTestIndex m) (qwpTestAngles m) (qwpTestVisibilities m)
    (qwpBestVisibility m) (qwpBestAngle m) (qwpImprovedLastScan m).

Definition set_previousVisibility (m : Machine) (v : Q) : Machine :=
  mkMachine (core m) (lambda2_server m) (lambda4_server m) (lastMeasurementStartTime m)
    v (visibilityThreshold m) (qwpSideIndex m) (qwpCurrentAngle m)
    (qwpPhase m) (qwpTestIndex m) (qwpTestAngles m) (qwpTestVisibilities m)
    (qwpBestVisibility m) (qwpBestAngle m) (qwpImprovedLastScan m).

Definition set_qwpCurrentAngle (m : Machine) (a : Q * Q) : Machine :=
  mkMachine (core m) (lambda2_server m) (lambda4_server m) (lastMeasurementStartTime m)
    (previousVisibility m) (visibilityThreshold m) (qwpSideIndex m) a
    (qwpPhase m) (qwpTestIndex m) (qwpTestAngles m) (qwpTestVisibilities m)
    (qwpBestVisibility m) (qwpBestAngle m) (qwpImprovedLastScan m).

Definition set_side_phase (m : Machine) (side phase : Z) : Machine :=
  mkMachine (core m) (lambda2_server m) (lambda4_server m) (lastMeasurementStartTime m)
    (previousVisibility m) (visibilityThreshold m) side (qwpCurrentAngle m)
    phase (qwpTestIndex m) (qwpTestAngles m) (qwpTestVisibilities m)
    (qwpBestVisibility m) (qwpBestAngle m) (qwpImprovedLastScan m).

Definition set_scan (m : Machine) (idx : nat) (angles vis : list Q) : Machine :=
  mkMachine (core m) (lambda2_server m) (lambda4_server m) (lastMeasurementStartTime m)
    (previousVisibility m) (visibilityThreshold m) (qwpSideIndex m) (qwpCurrentAngle m)
    (qwpPhase m) idx angles vis
    (qwpBestVisibility m) (qwpBestAngle m) (qwpImprovedLastScan m).

Definition set_best (m : Machine) (improved : bool) (bestVis bestAngle : Q) : Machine :=
  mkMachine (core m) (lambda2_server m) (lambda4_server m) (lastMeasurementStartTime m)
    (previousVisibility m) (visibilityThreshold m) (qwpSideIndex m) (qwpCurrentAngle m)
    (qwpPhase m) (qwpTestIndex m) (qwpTestAngles m) (qwpTestVisibilities m)
    bestVis bestAngle improved.

(** [Orchestrator::Orchestrator(...)]: the initial members; [None] when
    [static_cast<size_t>(180.0 / stepDeg)] is undefined. *)
Definition Orchestrator_new (l2s l4s stepDeg : Q) : option Machine :=
  match size_t_of_double (180 / stepDeg) with
  | Some n =>
      Some (mkMachine
              (mkOrchState HomeAll stepDeg n FullPhase 0%Z (repeat 0%nat n) 0%nat 0%Z 0)
              l2s l4s EmptyString 0 (1 # 100) 0%Z (0, 0) 0%Z 0%nat [] [] 0 0 true)
  | None => None
  end.

(** [size_t Orchestrator::findMinVisibilityBin()]: [std::min_element]
    keeps the first smallest element (it moves only on a strictly smaller one). *)
Fixpoint min_index_loop (l : list nat) (k best_i : nat) (best_v : nat) : nat :=
  match l with
  | [] => best_i
  | x :: r =>
      if (x <? best_v)%nat then min_index_loop r (S k) k x
      else min_index_loop r (S k) best_i best_v
  end.

Definition findMinVisibilityBin (bins : list nat) : nat :=
  match bins with
  | [] => 0%nat
  | x :: r => min_index_loop r 1 0 x
  end.

(** [std::max_element] over the visibilities: the first largest one
    (it moves only on a strictly larger one). *)
Fixpoint max_index_loop (l : list Q) (k best_i : nat) (best_v : Q) : nat :=
  match l with
  | [] => best_i
  | x :: r =>
      if Qlt_le_dec best_v x then max_index_loop r (S k) k x
      else max_index_loop r (S k) best_i best_v
  end.

Definition max_element_index (l : list Q) : nat :=
  match l with
  | [] => 0%nat
  | x :: r => max_index_loop r 1 0 x
  end.

(** [for (double delta = -range; delta <= range + 0.001; delta += step)
    qwpTestAngles.push_back(currentAngle + delta);].  The deltas are
    multiples of 0.5 below 16 in magnitude, exact in [double]; the sum
    [currentAngle + delta] is read exactly.  [fuel] is the number of
    iterations the test allows. *)
Fixpoint scan_loop (fuel : nat) (currentAngle delta step limit : Q) : list Q :=
  match fuel with
  | O => []
  | S f =>
      if Qle_bool delta limit
      then (currentAngle + delta) :: scan_loop f currentAngle (delta + step) step limit
      else []
  end.

Definition current_side_angle (m : Machine) : Q :=
  if (qwpSideIndex m =? 0)%Z then fst (qwpCurrentAngle m) else snd (qwpCurrentAngle m).

(** [void Orchestrator::initializeQWPScan(bool fineScan)] *)
Definition initializeQWPScan (m : Machine) (fineScan : bool) : Machine :=
  let currentAngle := current_side_angle m in
  let step := if fineScan then QWP_FINE_STEP else QWP_COARSE_STEP in
  let range := if fineScan then QWP_FINE_RANGE else QWP_COARSE_RANGE in
  let limit := range + (1 # 1000) in
  let fuel := S (Z.to_nat (Qceiling ((limit + range) / step))) in
  set_scan m 0 (scan_loop fuel currentAngle (- range) step limit) [].

(** [bool Orchestrator::isQWPScanComplete()]: [qwpTestIndex >=
    qwpTestAngles.size()]. *)
Definition isQWPScanComplete (m : Machine) : bool :=
  (length (qwpTestAngles m) <=? qwpTestIndex m)%nat.

(** [std::string Orchestrator::getQWPDeviceName()] *)
Definition getQWPDeviceName (m : Machine) : String.string :=
  if (qwpSideIndex m =? 0)%Z then "bme4"%string else "wigner4"%string.

(** [void Orchestrator::updateQWPBestAngle()]; [None] when
    [qwpTestAngles[maxIndex]] is read out of range. *)
Definition updateQWPBestAngle (m : Machine) : option Machine :=
  match qwpTestVisibilities m with
  | [] => Some m
  | vis =>
      let maxIndex := max_element_index vis in
      let newBestVisibility := nth maxIndex vis 0 in
      if (length (qwpTestAngles m) <=? maxIndex)%nat then None else
      let newBestAngle := nth maxIndex (qwpTestAngles m) 0 in
      if Qlt_le_dec (qwpBestVisibility m + QWP_MIN_IMPROVEMENT) newBestVisibility then
        let m1 := set_best m true newBestVisibility newBestAngle in
        Some (set_qwpCurrentAngle m1
                (if (qwpSideIndex m =? 0)%Z then (newBestAngle, snd (qwpCurrentAngle m))
                 else (fst (qwpCurrentAngle m), newBestAngle)))
      else Some (set_best m false (qwpBestVisibility m) (qwpBestAngle m))
  end.

(** [void Orchestrator::advanceQWPOptimization()] *)
Definition advanceQWPOptimization (m : Machine) : Machine :=
  if (qwpPhase m =? 0)%Z then
    if qwpImprovedLastScan m then
      set_currentStep (initializeQWPScan (set_side_phase m (qwpSideIndex m) 1) true) AdjustQWP
    else if (qwpSideIndex m =? 0)%Z then
      set_currentStep (initializeQWPScan (set_side_phase m 1 0) false) AdjustQWP
    else set_currentStep m CheckConvergence
  else
    if qwpImprovedLastScan m then
      set_currentStep (initializeQWPScan m true) AdjustQWP
    else if (qwpSideIndex m =? 0)%Z then
      set_currentStep (initializeQWPScan (set_side_phase m 1 0) false) AdjustQWP
    else set_currentStep m CheckConvergence.

(** [bool Orchestrator::hasConverged()] *)
Definition hasConverged (m : Machine) : bool :=
  if Qlt_le_dec (Qabs (currentVisibility (core m) - previousVisibility m)) (visibilityThreshold m)
  then true else false.

(** The step functions of [orchestrator.cpp].  The instrument calls
    ([home()]) and [clearDataFolder()] act on the outside world only;
    [None] is a step whose [parseGPSTime] has no defined result. *)
Definition stepHomeAll (m : Machine) : Machine * Cmd :=
  (set_currentStep (set_qwpCurrentAngle (set_lambdas m 0 0) (0, 0)) Setup, CmdText "home").

Definition stepSetup (m : Machine) : Machine * Cmd :=
  (set_currentStep m MeasureFullPhase, CmdText "setup").

Definition stepMeasureFullPhase (env : StepEnv) (m : Machine) : option (Machine * Cmd) :=
  let t := env_start_time env in
  match GPSTime.parseGPSTime t with
  | Some pico =>
      Some (set_currentStep (set_measurement m FullPhase t pico) ReadData,
            CmdText ("rotate wigner2 full_phase " ++ "30" ++ " " ++ t)%string)
  | None => None
  end.

Definition stepReadData (m : Machine) : Machine * Cmd :=
  (set_currentStep m AnalyzeData, CmdText "read_data_file").

Definition stepAnalyzeData (env : StepEnv) (m : Machine) : Machine * Cmd :=
  let (c, s) := Orchestrator.stepAnalyzeData (env_folder env) (env_contents env) (core m) in
  (set_core m c, CmdText s).

Definition stepRotateToMinVis (m : Machine) : Machine * Cmd :=
  let c := core m in
  match coincidenceBins c, totalCoincidences c with
  | [], _ | _, O => (set_currentStep m AdjustQWP, CmdText "no_command")
  | bins, _ =>
      let minBin := findMinVisibilityBin bins in
      let targetAngle := (inject_Z (Z.of_nat minBin) + (1 # 2)) * degreeStep c in
      (set_currentStep (set_lambdas m targetAngle (lambda4_server m)) AdjustQWP,
       CmdRotate "wigner2" targetAngle)
  end.

Definition stepAdjustQWP (m : Machine) : Machine * Cmd :=
  let m1 := if (qwpTestIndex m =? 0)%nat && match qwpTestAngles m with [] => true | _ => false end
            then initializeQWPScan m (qwpPhase m =? 1)%Z else m in
  if isQWPScanComplete m1 then (set_currentStep m1 ProcessQWPResults, CmdText "no_command")
  else
    let testAngle := nth (qwpTestIndex m1) (qwpTestAngles m1) 0 in
    let deviceName := getQWPDeviceName m1 in
    let m2 := set_qwpCurrentAngle m1
                (if (qwpSideIndex m1 =? 0)%Z then (testAngle, snd (qwpCurrentAngle m1))
                 else (fst (qwpCurrentAngle m1), testAngle)) in
    (set_currentStep m2 MeasureWithQWP, CmdRotate deviceName testAngle).

Definition stepMeasureWithQWP (env : StepEnv) (m : Machine) : option (Machine * Cmd) :=
  let t := env_start_time env in
  match GPSTime.parseGPSTime t with
  | Some pico =>
      Some (set_currentStep (set_measurement m FineScan t pico) ReadData,
            CmdText ("rotate wigner2 fine_scan " ++ "5" ++ " " ++ t)%string)
  | None => None
  end.

Definition stepAnalyzeQWPData (env : StepEnv) (m : Machine) : Machine * Cmd :=
  let c := analyzeCoincidences (env_folder env) (env_contents env) (core m) in
  let m1 := set_core m c in
  let m2 := set_scan m1 (S (qwpTestIndex m1)) (qwpTestAngles m1)
                     (qwpTestVisibilities m1 ++ [currentVisibility c]) in
  if isQWPScanComplete m2 then (set_currentStep m2 ProcessQWPResults, CmdText "no_command")
  else (set_currentStep m2 AdjustQWP, CmdText "no_command").

Definition stepProcessQWPResults (m : Machine) : option (Machine * Cmd) :=
  match updateQWPBestAngle m with
  | Some m1 => Some (advanceQWPOptimization m1, CmdText "no_command")
  | None => None
  end.

Definition stepCheckConvergence (m : Machine) : Machine * Cmd :=
  if hasConverged m then (set_currentStep m Exit, CmdText "exit")
  else (set_currentStep (set_previousVisibility m (currentVisibility (core m))) MeasureFullPhase,
        CmdText "no_command").

(** [std::string Orchestrator::runNextStep()] *)
Definition runNextStep (env : StepEnv) (m : Machine) : option (Machine * Cmd) :=
  match currentStep (core m) with
  | HomeAll => Some (stepHomeAll m)
  | Setup => Some (stepSetup m)
  | MeasureFullPhase => stepMeasureFullPhase env m
  | ReadData => Some (stepReadData m)
  | AnalyzeData => Some (stepAnalyzeData env m)
  | RotateToMinVis => Some (stepRotateToMinVis m)
  | AdjustQWP => Some (stepAdjustQWP m)
  | MeasureWithQWP => stepMeasureWithQWP env m
  | AnalyzeQWPData => Some (stepAnalyzeQWPData env m)
  | ProcessQWPResults => stepProcessQWPResults m
  | CheckConvergence => Some (stepCheckConvergence m)
  | Exit => Some (m, CmdText "exit")
  end.

(** The machine after a sequence of calls of [runNextStep], with the
    commands returned, or [None] once a step has no defined result. *)
Fixpoint run_steps (envs : list StepEnv) (m : Machine) : option (Machine * list Cmd) :=
  match envs with
  | [] => Some (m, [])
  | e :: rest =>
      match runNextStep e m with
      | Some (m1, c) =>
          match run_steps rest m1 with
          | Some (m2, cs) => Some (m2, c :: cs)
          | None => None
          end
      | None => None
      end
  end.

(** The steps the machine can be at, from its construction on. *)
Definition live_step (s : OrchestratorStep) : bool :=
  match s with
  | HomeAll | Setup | MeasureFullPhase | ReadData | AnalyzeData | RotateToMinVis
  | AdjustQWP | MeasureWithQWP => true
  | _ => false
  end.

Definition machine_inv (m : Machine) : Prop :=
  qwpTestIndex m = 0%nat /\ live_step (currentStep (core m)) = true.

End Machine.

(** * Properties *)

(** ** Peak search *)
Section PeakSearch.
Import Correlator.
Local Open Scope R_scope.

Lemma rmax_loop_no_greater (rest : list R) (k : nat) (m : Vmax) :
  Forall (fun y => y <= vmax m) rest -> rmax_loop rest k m = m.
Proof.
  revert k m; induction rest as [|x rest IH]; intros k m H; simpl; [reflexivity|].
  inversion H as [|? ? Hx Hrest]; subst.
  destruct (Rlt_dec (vmax m) x) as [Hlt|_]; [lra|].
  apply IH; assumption.
Qed.

(** C1 (code_bug): when the maximum of [S] is its first element, [rmax]
    never writes [kmax], so [runCorrelation] returns [tau] times an
    indeterminate index instead of [tau * 0]. *)
Theorem rmax_peak_at_index0_kmax_unset (x : R) (rest : list R) (tau : Z) :
  Forall (fun y => y <= x) rest ->
  kmax (rmax (x :: rest)) = None /\ runCorrelation_result tau (rmax (x :: rest)) = None.
Proof.
  intros H. unfold rmax, runCorrelation_result.
  rewrite (rmax_loop_no_greater rest 1 (mkVmax x None) H). simpl. split; reflexivity.
Qed.

Lemma rmax_peak_at_index0_witness :
  Forall (fun y => y <= 1) [0] /\
  (kmax (rmax [1; 0]) = None /\ runCorrelation_result 1000 (rmax [1; 0]) = None).
Proof.
  assert (H : Forall (fun y => y <= 1) [0]) by (constructor; [apply Rle_0_1 | constructor]).
  split; [exact H|]. apply (rmax_peak_at_index0_kmax_unset 1 [0] 1000%Z H).
Defined.

End PeakSearch.

(** ** Binary search over the bounds *)
Section BoundSearch.
Import Bounds.
Local Open Scope Z_scope.

Lemma sorted_by_tail (f : Bound -> Z) (a : Bound) (rest : list Bound) :
  sorted_by f (a :: rest) = true -> sorted_by f rest = true.
Proof.
  destruct rest as [|b rest]; simpl; [reflexivity|].
  intros H; apply andb_true_iff in H as [_ H]; exact H.
Qed.

Lemma sorted_by_head (f : Bound -> Z) (a : Bound) (rest : list Bound) :
  sorted_by f (a :: rest) = true ->
  forall j, (j < length rest)%nat -> f a <= f (nth j rest bound0).
Proof.
  revert a; induction rest as [|b rest IH]; intros a H j Hj; simpl in Hj; [lia|].
  pose proof H as Hs. simpl in H. apply andb_true_iff in H as [Hab Hrest].
  apply Z.leb_le in Hab.
  destruct j as [|j]; simpl; [exact Hab|].
  specialize (IH b Hrest j ltac:(lia)). lia.
Qed.

Lemma sorted_by_nth (f : Bound -> Z) (arr : list Bound) :
  sorted_by f arr = true ->
  forall i j, (i <= j < length arr)%nat -> f (nth i arr bound0) <= f (nth j arr bound0).
Proof.
  induction arr as [|a rest IH]; intros H i j Hij; simpl in Hij; [lia|].
  destruct i as [|i], j as [|j]; simpl.
  - lia.
  - apply (sorted_by_head f a rest H); lia.
  - lia.
  - apply IH; [apply (sorted_by_tail f a rest H) | lia].
Qed.

(** The loop invariant of the search: left of [left] every [upper] is at
    most the target, from [right] on every [upper] exceeds it. *)
Lemma bsearch_spec (arr : list Bound) (t : Z) :
  sorted_by upper arr = true ->
  forall fuel l r, (l <= r <= length arr)%nat -> (r - l <= fuel)%nat ->
  (forall i, (i < l)%nat -> upper (nth i arr bound0) <= t) ->
  (forall i, (r <= i < length arr)%nat -> t < upper (nth i arr bound0)) ->
  (forall i, (i < bsearch fuel arr t l r)%nat -> upper (nth i arr bound0) <= t) /\
  (forall i, (bsearch fuel arr t l r <= i < length arr)%nat -> t < upper (nth i arr bound0)).
Proof.
  intros Hs fuel. induction fuel as [|f IH]; intros l r Hlr Hf Hlo Hhi; cbn [bsearch].
  - assert (l = r) by lia. subst. split; assumption.
  - destruct (l <? r)%nat eqn:Hlt.
    + apply Nat.ltb_lt in Hlt.
      assert (Hd : ((r - l) / 2 < r - l)%nat) by (apply Nat.div_lt; lia).
      remember ((r - l) / 2)%nat as h eqn:Hh.
      destruct (t <? upper (nth (l + h) arr bound0)) eqn:Hc.
      * apply Z.ltb_lt in Hc. apply IH; [lia | lia | exact Hlo |].
        intros i Hi. pose proof (sorted_by_nth upper arr Hs (l + h) i ltac:(lia)). lia.
      * apply Z.ltb_ge in Hc. apply IH; [lia | lia | | exact Hhi].
        intros i Hi. destruct (Nat.lt_ge_cases i l) as [Hil|Hil]; [apply Hlo; exact Hil|].
        pose proof (sorted_by_nth upper arr Hs i (l + h) ltac:(lia)). lia.
    + apply Nat.ltb_ge in Hlt. assert (l = r) by lia. subst. split; assumption.
Qed.

Lemma linear_in_bound_false (arr : list Bound) (t : Z) :
  (forall i, (i < length arr)%nat ->
     t < lower (nth i arr bound0) \/ upper (nth i arr bound0) < t) ->
  linear_in_bound arr (length arr) t = false.
Proof.
  intros H. unfold linear_in_bound. rewrite firstn_all.
  apply not_true_iff_false. intros Hex.
  apply existsb_exists in Hex as [b [Hin Hb]].
  apply (In_nth arr b bound0) in Hin as [i [Hi Hbi]]. subst b.
  apply andb_true_iff in Hb as [H1 H2]. apply Z.leb_le in H1, H2.
  specialize (H i Hi). lia.
Qed.

(** C2 (corrected): on bounds sorted by both [upper] and [lower], the
    binary search agrees with the linear containment scan for every target
    that is not the [upper] end of a bound. *)
Theorem is_target_in_bound_sorted_linear (arr : list Bound) (t : Z) :
  sorted_by upper arr = true ->
  sorted_by lower arr = true ->
  forallb (fun b => negb (upper b =? t)) arr = true ->
  is_target_in_bound arr (length arr) t = linear_in_bound arr (length arr) t.
Proof.
  intros Hu Hl Hne.
  assert (Hne' : forall i, (i < length arr)%nat -> upper (nth i arr bound0) <> t).
  { intros i Hi Heq. rewrite forallb_forall in Hne.
    specialize (Hne (nth i arr bound0) (nth_In arr bound0 Hi)).
    rewrite Heq, Z.eqb_refl in Hne. discriminate. }
  destruct (bsearch_spec arr t Hu (length arr) 0 (length arr)) as [Hlo Hhi];
    [lia | lia | intros; lia | intros i Hi; lia |].
  unfold is_target_in_bound.
  remember (bsearch (length arr) arr t 0 (length arr)) as res eqn:Hres.
  destruct (res <? length arr)%nat eqn:Hr; simpl.
  - apply Nat.ltb_lt in Hr. pose proof (Hhi res ltac:(lia)) as Hup.
    destruct (lower (nth res arr bound0) <=? t) eqn:Hlow; simpl.
    + assert (Hle : (t <=? upper (nth res arr bound0)) = true) by (apply Z.leb_le; lia).
      rewrite Hle. symmetry. unfold linear_in_bound. rewrite firstn_all.
      apply existsb_exists. exists (nth res arr bound0).
      split; [apply nth_In; exact Hr|]. rewrite Hlow, Hle. reflexivity.
    + apply Z.leb_gt in Hlow. symmetry. apply linear_in_bound_false.
      intros i Hi. destruct (Nat.lt_ge_cases i res) as [Hir|Hir].
      * right. specialize (Hlo i Hir). specialize (Hne' i Hi). lia.
      * left. pose proof (sorted_by_nth lower arr Hl res i ltac:(lia)). lia.
  - apply Nat.ltb_ge in Hr. symmetry. apply linear_in_bound_false.
    intros i Hi. right. specialize (Hlo i ltac:(lia)). specialize (Hne' i Hi). lia.
Qed.

Lemma is_target_in_bound_sorted_linear_witness :
  sorted_by upper [mkBound 0 20000; mkBound 5 20005] = true /\
  sorted_by lower [mkBound 0 20000; mkBound 5 20005] = true /\
  forallb (fun b => negb (upper b =? 10)) [mkBound 0 20000; mkBound 5 20005] = true /\
  is_target_in_bound [mkBound 0 20000; mkBound 5 20005] 2 10
  = linear_in_bound [mkBound 0 20000; mkBound 5 20005] 2 10.
Proof.
  split; [reflexivity|]. split; [reflexivity|]. split; [reflexivity|].
  apply (is_target_in_bound_sorted_linear [mkBound 0 20000; mkBound 5 20005] 10);
    reflexivity.
Defined.

(** C2 counterexample: on arrays sorted by [upper] the search misses a
    bound containing the target when the target is that bound's [upper]
    end, and when a bound further right with a smaller [lower] contains
    it. *)
Lemma is_target_in_bound_linear_cex :
  (sorted_by upper [mkBound 0 5; mkBound 10 20] = true /\
   is_target_in_bound [mkBound 0 5; mkBound 10 20] 2 5 = false /\
   linear_in_bound [mkBound 0 5; mkBound 10 20] 2 5 = true) /\
  (sorted_by upper [mkBound 5 10; mkBound 0 20] = true /\
   is_target_in_bound [mkBound 5 10; mkBound 0 20] 2 3 = false /\
   linear_in_bound [mkBound 5 10; mkBound 0 20] 2 3 = true).
Proof. vm_compute. repeat split. Qed.

End BoundSearch.

(** ** Cross-power spectrum and standardization *)
Section SpectralProps.
Import Spectral.
Local Open Scope R_scope.

Lemma fold_sum_repeat (c : R) (n : nat) (a : R) :
  fold_left (fun buff x => buff + x) (repeat c n) a = a + INR n * c.
Proof.
  revert a; induction n as [|n IH]; intros a; simpl repeat; cbn [fold_left].
  - simpl. ring.
  - rewrite IH, S_INR. ring.
Qed.

Lemma fold_sqdev_repeat (c : R) (n : nat) (a : R) :
  fold_left (fun buff x => buff + (x - c) * (x - c)) (repeat c n) a = a.
Proof.
  revert a; induction n as [|n IH]; intros a; simpl repeat; cbn [fold_left]; [reflexivity|].
  rewrite IH. ring.
Qed.

Lemma vec_mean_repeat (c : R) (n : nat) : (1 <= n)%nat -> vec_mean (repeat c n) n = c.
Proof.
  intros Hn. unfold vec_mean.
  rewrite firstn_all2 by (rewrite repeat_length; lia).
  rewrite fold_sum_repeat.
  assert (HI : INR n <> 0) by (apply not_0_INR; lia).
  field. exact HI.
Qed.

Lemma vec_variance_repeat (c : R) (n : nat) : vec_variance (repeat c n) c n = 0.
Proof.
  unfold vec_variance.
  rewrite firstn_all2 by (rewrite repeat_length; lia).
  rewrite fold_sqdev_repeat. unfold Rdiv. rewrite Rmult_0_l. apply sqrt_0.
Qed.

(** C3 (corrected): a constant raw correlation series of length [N >= 2]
    has mean [c] and sample standard deviation [0], and the
    standardization still divides every deviation by that zero
    deviation: no error outcome exists. *)
Theorem standardize_zero_stddev_unguarded (c : R) (N : nat) :
  (2 <= N)%nat ->
  vec_mean (repeat c N) N = c /\
  vec_variance (repeat c N) (vec_mean (repeat c N) N) N = 0 /\
  standardize (repeat c N) N = map (fun x => (x - c) / 0) (repeat c N).
Proof.
  intros HN.
  assert (Hm : vec_mean (repeat c N) N = c) by (apply vec_mean_repeat; lia).
  split; [exact Hm|]. rewrite Hm. split; [apply vec_variance_repeat|].
  unfold standardize. cbv zeta. rewrite Hm, vec_variance_repeat.
  rewrite firstn_all2 by (rewrite repeat_length; lia). reflexivity.
Qed.

Lemma standardize_zero_stddev_unguarded_witness :
  (2 <= 4)%nat /\
  (vec_mean (repeat 1 4) 4 = 1 /\
   vec_variance (repeat 1 4) (vec_mean (repeat 1 4) 4) 4 = 0 /\
   standardize (repeat 1 4) 4 = map (fun x => (x - 1) / 0) (repeat 1 4)).
Proof.
  split; [lia|]. apply (standardize_zero_stddev_unguarded 1 4). lia.
Defined.

(** C3 counterexample: on the degenerate series [1; 1] the tail of
    [CalculateDeltaT] divides by the zero standard deviation and returns
    the series and its peak; there is no error result. *)
Lemma standardize_degenerate_cex :
  vec_variance [1; 1] (vec_mean [1; 1] 2) 2 = 0 /\
  CalculateDeltaT_tail [1; 1] 2
  = (map (fun x => (x - 1) / 0) [1; 1], Correlator.rmax (map (fun x => (x - 1) / 0) [1; 1])).
Proof.
  assert (Hm : vec_mean [1; 1] 2 = 1) by exact (vec_mean_repeat 1 2 ltac:(lia)).
  assert (Hv : vec_variance [1; 1] 1 2 = 0) by exact (vec_variance_repeat 1 2).
  rewrite Hm. split; [exact Hv|].
  unfold CalculateDeltaT_tail, standardize. cbv zeta. rewrite Hm, Hv. reflexivity.
Qed.

(** C4 (corrected): element [k] of the cross-power spectrum is
    [(r1*r2 + i1*i2, r1*i2 - i1*r2)], which is the conjugate of station
    A's spectrum times station B's spectrum. *)
Theorem cross_power_conj_a_times_b (buff1_c buff2_c : list cpx) (k : nat) :
  (k < length buff1_c)%nat -> (k < length buff2_c)%nat ->
  let a := nth k buff1_c (0, 0) in
  let b := nth k buff2_c (0, 0) in
  nth k (cross_power buff1_c buff2_c) (0, 0)
    = (fst a * fst b + snd a * snd b, fst a * snd b - snd a * fst b) /\
  nth k (cross_power buff1_c buff2_c) (0, 0) = cmul (cconj a) b.
Proof.
  revert buff2_c k; induction buff1_c as [|[r1 i1] rest1 IH];
    intros buff2_c k H1 H2; simpl in H1; [lia|].
  destruct buff2_c as [|[r2 i2] rest2]; simpl in H2; [lia|].
  destruct k as [|k].
  - simpl. unfold cmul, cconj; simpl. split; f_equal; ring.
  - simpl. apply IH; lia.
Qed.

Lemma cross_power_conj_a_times_b_witness :
  (0 < length [(1, 2)])%nat /\ (0 < length [(3, 4)])%nat /\
  (nth 0 (cross_power [(1, 2)] [(3, 4)]) (0, 0) = (1 * 3 + 2 * 4, 1 * 4 - 2 * 3) /\
   nth 0 (cross_power [(1, 2)] [(3, 4)]) (0, 0) = cmul (cconj (1, 2)) (3, 4)).
Proof.
  split; [simpl; lia|]. split; [simpl; lia|].
  apply (cross_power_conj_a_times_b [(1, 2)] [(3, 4)] 0); simpl; lia.
Defined.

(** C4 counterexample: for A = i and B = 1 the code gives [-i], while
    A times the conjugate of B is [i]. *)
Lemma cross_power_not_a_conj_b :
  nth 0 (cross_power [(0, 1)] [(1, 0)]) (0, 0) <> cmul (0, 1) (cconj (1, 0)).
Proof.
  simpl. unfold cmul, cconj; simpl. intros H. injection H as _ H. lra.
Qed.

End SpectralProps.

(** ** Noise reduction is a filter on whole records *)
Section NoiseReducProps.
Import Bounds NoiseReduc.
Local Open Scope nat_scope.

Lemma flatten_records_length (recs : list (Z * Z)) :
  length (flatten_records recs) = 2 * length recs.
Proof. induction recs as [|[a b] rs IH]; simpl; lia. Qed.

Lemma firstn_flatten_records (h : nat) (recs : list (Z * Z)) :
  firstn (2 * h) (flatten_records recs) = flatten_records (firstn h recs).
Proof.
  revert recs; induction h as [|h IH]; intros recs; [reflexivity|].
  destruct recs as [|[a b] rs]; [reflexivity|].
  replace (2 * S h) with (S (S (2 * h))) by lia. simpl. rewrite IH. reflexivity.
Qed.

Lemma skipn_flatten_records (h : nat) (recs : list (Z * Z)) :
  skipn (2 * h) (flatten_records recs) = flatten_records (skipn h recs).
Proof.
  revert recs; induction h as [|h IH]; intros recs; [reflexivity|].
  destruct recs as [|[a b] rs]; [reflexivity|].
  replace (2 * S h) with (S (S (2 * h))) by lia. simpl. apply IH.
Qed.

Lemma chunks_S_nonempty (f cs : nat) (ws : list Z) :
  ws <> [] -> chunks (S f) cs ws = firstn cs ws :: chunks f cs (skipn cs ws).
Proof. destruct ws; [contradiction | reflexivity]. Qed.

Lemma record_marks_app (bounds : list Bound) (n base : nat) (l1 l2 : list (Z * Z)) :
  record_marks bounds n base (l1 ++ l2)
  = record_marks bounds n base l1 ++ record_marks bounds n (base + 2 * length l1) l2.
Proof.
  revert base; induction l1 as [|r l1 IH]; intros base; simpl.
  - apply (f_equal (fun b => record_marks bounds n b l2)). lia.
  - rewrite IH, app_assoc. f_equal.
    apply (f_equal (fun b => record_marks bounds n b l2)). lia.
Qed.

Lemma mark_chunk_records_from (bounds : list Bound) (n base i : nat) (recs : list (Z * Z)) :
  flat_map (fun p => if is_target_in_bound bounds n (snd p)
                     then [] else [int_of_size (base + fst p); int_of_size (base + fst p + 1)])
           (pairs_from (flatten_records recs) i)
  = map int_of_size (record_marks bounds n (base + i) recs).
Proof.
  revert i; induction recs as [|[a b] rs IH]; intros i; [reflexivity|].
  simpl. rewrite IH, map_app. unfold record_in_bounds; simpl.
  replace (base + (i + 2)) with (base + i + 2) by lia.
  destruct (is_target_in_bound bounds n (datapoint_of a b)); reflexivity.
Qed.

Lemma mark_chunk_records (bounds : list Bound) (n base : nat) (recs : list (Z * Z)) :
  mark_chunk bounds n base (flatten_records recs) = map int_of_size (record_marks bounds n base recs).
Proof.
  unfold mark_chunk. rewrite mark_chunk_records_from, Nat.add_0_r. reflexivity.
Qed.

Lemma mark_chunks_records (bounds : list Bound) (n cs h : nat) :
  cs = 2 * h -> 0 < h ->
  forall fuel recs c, 2 * length recs <= fuel ->
  mark_chunks bounds n cs c (chunks fuel cs (flatten_records recs))
  = map int_of_size (record_marks bounds n (c * cs) recs).
Proof.
  intros Hcs Hh fuel. induction fuel as [|f IH]; intros recs c Hf.
  - destruct recs; simpl in Hf; [reflexivity | lia].
  - destruct recs as [|[a b] rs] eqn:Hr; [reflexivity|]. rewrite <- Hr.
    rewrite chunks_S_nonempty by (subst recs; discriminate).
    cbn [mark_chunks]. subst cs.
    rewrite firstn_flatten_records, skipn_flatten_records, mark_chunk_records.
    rewrite IH by (rewrite length_skipn; rewrite Hr in *; cbn [length] in *; lia).
    transitivity (map int_of_size
                    (record_marks bounds n (c * (2 * h)) (firstn h recs ++ skipn h recs)));
      [| rewrite firstn_skipn; reflexivity].
    rewrite record_marks_app, map_app. f_equal.
    destruct (Nat.le_gt_cases h (length recs)) as [Hle|Hgt].
    + rewrite firstn_length_le by lia. do 2 f_equal. nia.
    + rewrite skipn_all2 by lia. reflexivity.
Qed.

Lemma keep_chunk_flat (marked : list Z) (base i : nat) (chunk : list Z) :
  keep_chunk marked base i chunk = keep_flat marked (base + i) chunk.
Proof.
  revert i; induction chunk as [|w rest IH]; intros i; [reflexivity|].
  simpl. rewrite IH, Nat.add_succ_r. reflexivity.
Qed.

Lemma keep_flat_app (marked : list Z) (g : nat) (l1 l2 : list Z) :
  keep_flat marked g (l1 ++ l2) = keep_flat marked g l1 ++ keep_flat marked (g + length l1) l2.
Proof.
  revert g; induction l1 as [|w l1 IH]; intros g; simpl.
  - rewrite Nat.add_0_r. reflexivity.
  - rewrite IH, app_assoc. f_equal. rewrite Nat.add_succ_r. reflexivity.
Qed.

Lemma keep_chunks_flat (marked : list Z) (cs : nat) :
  0 < cs ->
  forall fuel ws c, length ws <= fuel ->
  keep_chunks marked cs c (chunks fuel cs ws) = keep_flat marked (c * cs) ws.
Proof.
  intros Hcs fuel. induction fuel as [|f IH]; intros ws c Hf.
  - destruct ws; simpl in Hf; [reflexivity | lia].
  - destruct ws as [|w ws'] eqn:Hw; [reflexivity|]. rewrite <- Hw.
    rewrite chunks_S_nonempty by (subst ws; discriminate).
    cbn [keep_chunks]. rewrite keep_chunk_flat, Nat.add_0_r.
    rewrite IH by (rewrite length_skipn; rewrite Hw in *; cbn [length] in *; lia).
    transitivity (keep_flat marked (c * cs) (firstn cs ws ++ skipn cs ws));
      [| rewrite firstn_skipn; reflexivity].
    rewrite keep_flat_app. f_equal.
    destruct (Nat.le_gt_cases cs (length ws)) as [Hle|Hgt].
    + rewrite firstn_length_le by lia. f_equal. lia.
    + rewrite skipn_all2 by lia. reflexivity.
Qed.

Lemma record_marks_ge (bounds : list Bound) (n base g : nat) (recs : list (Z * Z)) :
  In g (record_marks bounds n base recs) -> base <= g.
Proof.
  revert base; induction recs as [|r rs IH]; intros base Hin; simpl in Hin; [contradiction|].
  apply in_app_or in Hin as [Hin|Hin].
  - destruct (record_in_bounds bounds n r); simpl in Hin; [contradiction|].
    destruct Hin as [<-|[<-|[]]]; lia.
  - apply IH in Hin. lia.
Qed.

Lemma record_marks_lt (bounds : list Bound) (n base g : nat) (recs : list (Z * Z)) :
  In g (record_marks bounds n base recs) -> g < base + 2 * length recs.
Proof.
  revert base; induction recs as [|r rs IH]; intros base Hin; simpl in Hin; [contradiction|].
  cbn [length]. apply in_app_or in Hin as [Hin|Hin].
  - destruct (record_in_bounds bounds n r); simpl in Hin; [contradiction|].
    destruct Hin as [<-|[<-|[]]]; lia.
  - apply IH in Hin. lia.
Qed.

(** A record is marked, through both of its words, exactly when its time
    lies in no bound. *)
Lemma record_marks_at (bounds : list Bound) (n : nat) (recs : list (Z * Z)) :
  forall base j r, nth_error recs j = Some r ->
  (In (base + 2 * j) (record_marks bounds n base recs) <-> record_in_bounds bounds n r = false) /\
  (In (base + 2 * j + 1) (record_marks bounds n base recs) <-> record_in_bounds bounds n r = false).
Proof.
  induction recs as [|r0 rs IH]; intros base j r Hj; [destruct j; discriminate|].
  cbn [record_marks]. destruct j as [|j].
  - simpl in Hj. injection Hj as <-.
    replace (base + 2 * 0) with base by lia.
    destruct (record_in_bounds bounds n r0) eqn:Hin; simpl.
    + split; split; intros H; try discriminate;
        apply record_marks_ge in H; lia.
    + split; split; intros _; [reflexivity | left; reflexivity | reflexivity | right; left; reflexivity].
  - simpl in Hj. destruct (IH (base + 2) j r Hj) as [IH1 IH2].
    replace (base + 2 * S j) with (base + 2 + 2 * j) by lia.
    split; rewrite in_app_iff; [rewrite <- IH1 | rewrite <- IH2];
      destruct (record_in_bounds bounds n r0); simpl; split; intros H;
      repeat (destruct H as [H|H]); try lia; auto.
Qed.

(** The libstdc++ [lower_bound] loop, on a range whose elements converted
    to [size_t] are nondecreasing, returns the first position whose
    element is not below [v]. *)
Lemma lower_bound_loop_spec (marked : list Z) (v : Z) :
  (forall i j, i <= j < length marked ->
     (u64 (nth i marked 0) <= u64 (nth j marked 0))%Z) ->
  forall fuel first len,
  first + len <= length marked -> len <= fuel ->
  (forall i, i < first -> (u64 (nth i marked 0) < v)%Z) ->
  (forall i, first + len <= i < length marked -> (v <= u64 (nth i marked 0))%Z) ->
  let r := lower_bound_loop fuel marked v first len in
  r <= length marked /\
  (forall i, i < r -> (u64 (nth i marked 0) < v)%Z) /\
  (forall i, r <= i < length marked -> (v <= u64 (nth i marked 0))%Z).
Proof.
  intros Hmono fuel. induction fuel as [|f IH]; intros first len Hfl Hlen Hlo Hhi r.
  - subst r. simpl. assert (len = 0) by lia. subst len.
    rewrite Nat.add_0_r in Hhi. split; [lia|]. split; assumption.
  - subst r. cbn [lower_bound_loop].
    destruct (0 <? len) eqn:Hpos.
    + apply Nat.ltb_lt in Hpos. cbv zeta.
      assert (Hhalf : len / 2 < len) by (apply Nat.div_lt; lia).
      destruct (Z.ltb_spec (u64 (nth (first + len / 2) marked 0%Z)) v) as [Hm|Hm].
      * apply IH; [lia | lia | |].
        -- intros i Hi. destruct (Nat.lt_ge_cases i first) as [Hf|Hf]; [apply Hlo; exact Hf|].
           eapply Z.le_lt_trans; [apply (Hmono i (first + len / 2)); lia | exact Hm].
        -- intros i Hi. apply Hhi. lia.
      * apply IH; [lia | lia | exact Hlo |].
        intros i Hi. eapply Z.le_trans; [exact Hm | apply (Hmono (first + len / 2) i); lia].
    + apply Nat.ltb_ge in Hpos. assert (len = 0) by lia. subst len.
      rewrite Nat.add_0_r in Hhi. split; [lia|]. split; assumption.
Qed.

Lemma binary_search_exists (marked : list Z) (g : nat) :
  (forall i j, i <= j < length marked ->
     (u64 (nth i marked 0) <= u64 (nth j marked 0))%Z) ->
  binary_search marked g = true <-> exists x, In x marked /\ u64 x = Z.of_nat g.
Proof.
  intros Hmono. unfold binary_search. cbv zeta.
  destruct (lower_bound_loop_spec marked (Z.of_nat g) Hmono (length marked) 0 (length marked)
              ltac:(lia) ltac:(lia) ltac:(intros; lia) ltac:(intros; lia)) as [Hr [Hlo Hhi]].
  set (r := lower_bound_loop (length marked) marked (Z.of_nat g) 0 (length marked)) in *.
  rewrite andb_true_iff, negb_true_iff, Nat.ltb_lt, Z.ltb_ge. split.
  - intros [Hlt Hle]. exists (nth r marked 0%Z). split; [apply nth_In; exact Hlt|].
    specialize (Hhi r ltac:(lia)). lia.
  - intros [x [Hin Hx]]. apply (In_nth marked x 0%Z) in Hin as [j [Hj Hjx]].
    subst x. destruct (Nat.lt_ge_cases j r) as [Hjr|Hjr].
    + specialize (Hlo j Hjr). lia.
    + split; [lia|]. rewrite <- Hx. apply Hmono. lia.
Qed.

Lemma u64_small (x : Z) : (0 <= x < 2 ^ 64)%Z -> u64 x = x.
Proof. intros H. unfold u64. apply Z.mod_small. exact H. Qed.

Lemma sorted_nth_mono (l : list Z) :
  Sorted Z.le l -> forall i j, i <= j < length l -> (nth i l 0 <= nth j l 0)%Z.
Proof.
  intros Hs. apply Sorted_StronglySorted in Hs; [|intros x y z; apply Z.le_trans].
  induction Hs as [|a l Hs IH Hall]; intros i j Hij; [simpl in Hij; lia|].
  destruct i as [|i], j as [|j]; simpl in Hij |- *; [lia | | lia |].
  - rewrite Forall_forall in Hall. apply Hall, nth_In. lia.
  - apply IH. lia.
Qed.

(** On a sorted vector of non-negative [int]s the mixed [int]/[size_t]
    comparisons are exact and [std::binary_search] is a membership test. *)
Lemma binary_search_In (marked : list Z) (g : nat) :
  Sorted Z.le marked -> Forall (fun x => 0 <= x < 2 ^ 31)%Z marked ->
  binary_search marked g = true <-> In (Z.of_nat g) marked.
Proof.
  intros Hs Hr. rewrite Forall_forall in Hr.
  assert (Hu : forall i, i < length marked -> u64 (nth i marked 0%Z) = nth i marked 0%Z).
  { intros i Hi. apply u64_small. specialize (Hr _ (nth_In marked 0%Z Hi)). lia. }
  rewrite binary_search_exists.
  - split.
    + intros [x [Hin Hx]]. rewrite u64_small in Hx by (specialize (Hr x Hin); lia).
      subst x. exact Hin.
    + intros Hin. exists (Z.of_nat g). split; [exact Hin|].
      apply u64_small. specialize (Hr _ Hin). lia.
  - intros i j Hij. rewrite !Hu by lia. apply sorted_nth_mono; assumption.
Qed.

Lemma sorted_leb_le (l : list Z) :
  Sorted (fun x y => is_true (ZOrder.leb x y)) l -> Sorted Z.le l.
Proof.
  induction 1 as [|a l Hs IH Hd]; constructor; [exact IH|].
  destruct Hd; constructor. apply Z.leb_le. assumption.
Qed.

(** Marks below 2^31 survive the narrowing to [int] unchanged, and the
    search in the sorted vector finds exactly them. *)
Lemma binary_search_sort_marks (marks : list nat) (g : nat) :
  Forall (fun m => Z.of_nat m < 2 ^ 31)%Z marks ->
  binary_search (ZSort.sort (map int_of_size marks)) g = true <-> In g marks.
Proof.
  intros Hm. rewrite Forall_forall in Hm.
  assert (Hi : forall m, In m marks -> int_of_size m = Z.of_nat m).
  { intros m Hin. specialize (Hm m Hin). unfold int_of_size.
    rewrite Z.mod_small by lia. destruct (Z.ltb_spec (Z.of_nat m) (2 ^ 31)); lia. }
  pose proof (ZSort.Permuted_sort (map int_of_size marks)) as Hp.
  rewrite binary_search_In.
  - split.
    + intros Hin. apply (Permutation_in _ (Permutation_sym Hp)), in_map_iff in Hin.
      destruct Hin as [m [Hx Hin]]. rewrite Hi in Hx by exact Hin.
      apply Nat2Z.inj in Hx. subst m. exact Hin.
    + intros Hin. apply (Permutation_in _ Hp), in_map_iff. exists g.
      split; [apply Hi|]; exact Hin.
  - apply sorted_leb_le, ZSort.Sorted_sort.
  - apply Forall_forall. intros x Hx.
    apply (Permutation_in _ (Permutation_sym Hp)), in_map_iff in Hx.
    destruct Hx as [m [<- Hin]]. rewrite Hi by exact Hin. specialize (Hm m Hin). lia.
Qed.

Lemma keep_flat_records (marked : list Z) (good : Z * Z -> bool) :
  forall recs base,
  (forall j r, nth_error recs j = Some r ->
     binary_search marked (base + 2 * j) = negb (good r) /\
     binary_search marked (base + 2 * j + 1) = negb (good r)) ->
  keep_flat marked base (flatten_records recs) = flatten_records (filter good recs).
Proof.
  induction recs as [|[a b] rs IH]; intros base H; [reflexivity|].
  destruct (H 0 (a, b) eq_refl) as [H0 H1].
  replace (base + 2 * 0) with base in H0 by lia.
  replace (base + 2 * 0 + 1) with (S base) in H1 by lia.
  cbn [flatten_records keep_flat filter]. rewrite H0, H1.
  rewrite (IH (S (S base))).
  - destruct (good (a, b)); reflexivity.
  - intros j r Hj. destruct (H (S j) r Hj) as [Ha Hb].
    replace (S (S base) + 2 * j) with (base + 2 * S j) by lia.
    replace (S (S base) + 2 * j + 1) with (base + 2 * S j + 1) by lia.
    split; assumption.
Qed.

(** Both passes together on a file of whole records of at most 2^31
    words (every index fits the [int] of [marked]): the larger file is
    rewritten to exactly its records whose time lies in some bound. *)
Lemma delete_marked_records (cs : nat) (bounds : list Bound) (n : nat) (recs : list (Z * Z)) :
  Nat.even cs = true -> 0 < cs ->
  (Z.of_nat (2 * length recs) <= 2 ^ 31)%Z ->
  delete_marked_values cs
    (ZSort.sort (mark_chunks bounds n cs 0 (read_chunks cs (flatten_records recs))))
    (flatten_records recs)
  = flatten_records (filter (record_in_bounds bounds n) recs).
Proof.
  intros Hev Hcs Hsz. apply Nat.even_spec in Hev as [h Hh].
  unfold read_chunks.
  rewrite (mark_chunks_records bounds n cs h Hh ltac:(lia)) by (rewrite flatten_records_length; lia).
  unfold delete_marked_values, read_chunks.
  rewrite (keep_chunks_flat _ cs Hcs) by lia.
  assert (Hm : Forall (fun m => Z.of_nat m < 2 ^ 31)%Z (record_marks bounds n (0 * cs) recs)).
  { apply Forall_forall. intros m Hin. apply record_marks_lt in Hin. lia. }
  apply keep_flat_records. intros j r Hj.
  destruct (record_marks_at bounds n recs (0 * cs) j r Hj) as [I1 I2].
  destruct (record_in_bounds bounds n r) eqn:Hr; simpl; split.
  - apply not_true_iff_false. rewrite (binary_search_sort_marks _ _ Hm), I1. discriminate.
  - apply not_true_iff_false. rewrite (binary_search_sort_marks _ _ Hm), I2. discriminate.
  - apply (binary_search_sort_marks _ _ Hm), I1. reflexivity.
  - apply (binary_search_sort_marks _ _ Hm), I2. reflexivity.
Qed.

Lemma subseq_filter {A : Type} (p : A -> bool) (l : list A) : subseq (filter p l) l.
Proof.
  induction l as [|x l IH]; simpl; [constructor|].
  destruct (p x); constructor; exact IH.
Qed.

Lemma subseq_refl {A : Type} (l : list A) : subseq l l.
Proof. induction l; constructor; assumption. Qed.

Lemma subseq_In {A : Type} (l l' : list A) (x : A) : subseq l l' -> In x l -> In x l'.
Proof.
  induction 1; simpl; intros Hin; [exact Hin | |].
  - destruct Hin as [<-|Hin]; [left; reflexivity | right; auto].
  - right. auto.
Qed.

(** X21: for files of at most 2^31 words each (every word index fits the
    [int] element of [marked]) and the even chunk size the code uses
    (100000 words), the noise-reduction pass leaves each of the two files
    as an order-preserving subsequence of its records, every kept record
    unchanged. *)
Theorem noise_reduc_bound_subsequence_int_range (cs : nat) (f1 f2 : list (Z * Z)) :
  Nat.even cs = true -> 0 < cs ->
  (Z.of_nat (length (flatten_records f1)) <= 2 ^ 31)%Z ->
  (Z.of_nat (length (flatten_records f2)) <= 2 ^ 31)%Z ->
  exists r1 r2,
    subseq r1 f1 /\ subseq r2 f2 /\
    noise_reduc_bound cs (flatten_records f1) (flatten_records f2)
    = (flatten_records r1, flatten_records r2).
Proof.
  intros Hev Hcs Hs1 Hs2. rewrite flatten_records_length in Hs1, Hs2.
  unfold noise_reduc_bound. cbv zeta.
  set (size1 := 8 * length (flatten_records f1)).
  set (size2 := 8 * length (flatten_records f2)).
  set (num := (if size1 <? size2 then size1 else size2) / 8 / 2).
  set (bnds := build_bounds cs num (if size1 <? size2 then flatten_records f1
                                    else flatten_records f2)).
  destruct (size2 <? size1).
  - exists (filter (record_in_bounds bnds num) f1), f2.
    split; [apply subseq_filter|]. split; [apply subseq_refl|].
    rewrite delete_marked_records by assumption. reflexivity.
  - exists f1, (filter (record_in_bounds bnds num) f2).
    split; [apply subseq_refl|]. split; [apply subseq_filter|].
    rewrite delete_marked_records by assumption. reflexivity.
Qed.

Lemma noise_reduc_bound_subsequence_int_range_witness :
  Nat.even 4 = true /\ 0 < 4 /\
  (Z.of_nat (length (flatten_records [(1, 0); (50000, 0); (3, 0)]%Z)) <= 2 ^ 31)%Z /\
  (Z.of_nat (length (flatten_records [(1, 0); (2, 0)]%Z)) <= 2 ^ 31)%Z /\
  exists r1 r2,
    subseq r1 [(1, 0); (50000, 0); (3, 0)]%Z /\ subseq r2 [(1, 0); (2, 0)]%Z /\
    noise_reduc_bound 4 (flatten_records [(1, 0); (50000, 0); (3, 0)]%Z)
                        (flatten_records [(1, 0); (2, 0)]%Z)
    = (flatten_records r1, flatten_records r2).
Proof.
  split; [reflexivity|]. split; [lia|]. split; [simpl; lia|]. split; [simpl; lia|].
  apply (noise_reduc_bound_subsequence_int_range 4 [(1, 0); (50000, 0); (3, 0)]%Z [(1, 0); (2, 0)]%Z);
    [reflexivity | lia | simpl; lia | simpl; lia].
Defined.

End NoiseReducProps.

(** ** Coincidence matching *)
Section Coincidences.
Import Orchestrator.
Local Open Scope Z_scope.

(** The server cursor only passes events earlier than the window. *)
Lemma skip_early_suffix (limit : Z) (rest : list Z) :
  exists pre, rest = pre ++ skip_early limit rest /\ Forall (fun s => s < limit) pre.
Proof.
  induction rest as [|s rest IH]; simpl.
  - exists []. split; [reflexivity | constructor].
  - destruct (s <? limit) eqn:Hs.
    + destruct IH as [pre [Hpre Hall]]. exists (s :: pre). split.
      * simpl. rewrite <- Hpre. reflexivity.
      * constructor; [apply Z.ltb_lt; exact Hs | exact Hall].
    + exists []. split; [reflexivity | constructor].
Qed.

Lemma skip_early_In (limit s : Z) (rest : list Z) :
  In s (skip_early limit rest) -> In s rest.
Proof.
  intros Hin. destruct (skip_early_suffix limit rest) as [pre [Hpre _]].
  rewrite Hpre. apply in_or_app. right. exact Hin.
Qed.

Lemma match_clients_sound (offset tol : Z) (clients : list Z) :
  forall rest x, In x (match_clients offset tol clients rest) ->
  exists c s, In c clients /\ In s rest /\
    x = Z.quot (c + offset + s) 2 /\ Z.abs (s - (c + offset)) <= tol.
Proof.
  induction clients as [|c cs IH]; intros rest x Hin; [contradiction|].
  cbn [match_clients] in Hin.
  destruct (skip_early (c + offset - tol) rest) as [|s r] eqn:Hsk.
  - destruct (IH [] x Hin) as [c' [s' [_ [Hs' _]]]]. contradiction.
  - assert (Hs : In s rest) by (apply (skip_early_In (c + offset - tol)); rewrite Hsk; left; reflexivity).
    destruct (Z.abs (s - (c + offset)) <=? tol) eqn:Htol.
    + destruct Hin as [Hx|Hin].
      * exists c, s. split; [left; reflexivity|]. split; [exact Hs|].
        split; [symmetry; exact Hx | apply Z.leb_le; exact Htol].
      * destruct (IH (s :: r) x Hin) as [c' [s' [Hc' [Hs' Hrest]]]].
        exists c', s'. split; [right; exact Hc'|]. split; [|exact Hrest].
        apply (skip_early_In (c + offset - tol)). rewrite Hsk. exact Hs'.
    + destruct (IH (s :: r) x Hin) as [c' [s' [Hc' [Hs' Hrest]]]].
      exists c', s'. split; [right; exact Hc'|]. split; [|exact Hrest].
      apply (skip_early_In (c + offset - tol)). rewrite Hsk. exact Hs'.
Qed.

(** C6 (confirmed): every coincidence is the truncated midpoint of a
    client time, shifted by [stationTimeOffset], and a server time at most
    [tolerancePico] apart. *)
Theorem findCoincidences_within_tolerance (offset : Z) (clientTimestamps serverTimestamps : list Z)
  (tolerancePico x : Z) :
  In x (findCoincidences offset clientTimestamps serverTimestamps tolerancePico) ->
  exists clientTime serverTime,
    In clientTime clientTimestamps /\ In serverTime serverTimestamps /\
    x = Z.quot (clientTime + offset + serverTime) 2 /\
    Z.abs (serverTime - (clientTime + offset)) <= tolerancePico.
Proof.
  unfold findCoincidences.
  destruct clientTimestamps as [|c cs]; [contradiction|].
  destruct serverTimestamps as [|s ss]; [contradiction|].
  apply match_clients_sound.
Qed.

Lemma findCoincidences_within_tolerance_witness :
  In 97 (findCoincidences 0 [0; 100; 200] [5; 95; 300] 10) /\
  exists clientTime serverTime,
    In clientTime [0; 100; 200] /\ In serverTime [5; 95; 300] /\
    97 = Z.quot (clientTime + 0 + serverTime) 2 /\
    Z.abs (serverTime - (clientTime + 0)) <= 10.
Proof.
  assert (H : In 97 (findCoincidences 0 [0; 100; 200] [5; 95; 300] 10))
    by (vm_compute; right; left; reflexivity).
  split; [exact H|].
  apply (findCoincidences_within_tolerance 0 [0; 100; 200] [5; 95; 300] 10 97 H).
Defined.

(** C10 (confirmed): the cursor passes only server events earlier than
    the window, and after a match the next client starts from the matched
    event itself; so one server event can serve several clients, and two
    clients against a single server event give two coincidences. *)
Theorem findCoincidences_not_one_to_one :
  (forall limit rest, exists pre,
     rest = pre ++ skip_early limit rest /\ Forall (fun s => s < limit) pre) /\
  (forall offset tol c cs rest s rest',
     skip_early (c + offset - tol) rest = s :: rest' ->
     Z.abs (s - (c + offset)) <= tol ->
     match_clients offset tol (c :: cs) rest
     = Z.quot (c + offset + s) 2 :: match_clients offset tol cs (s :: rest')) /\
  findCoincidences 0 [0; 1] [0] 10000 = [0; 0].
Proof.
  split; [exact skip_early_suffix|]. split.
  - intros offset tol c cs rest s rest' Hsk Htol. cbn [match_clients].
    rewrite Hsk. apply Z.leb_le in Htol. rewrite Htol. reflexivity.
  - reflexivity.
Qed.

End Coincidences.

(** ** Angle histogram *)
Section AngleBins.
Import Orchestrator.
Local Open Scope nat_scope.

Lemma length_incr_at (i : nat) (l : list nat) : length (incr_at i l) = length l.
Proof.
  revert i; induction l as [|x l IH]; intros [|i]; cbn [incr_at length]; auto.
Qed.

Lemma nth_incr_at (i b : nat) (l : list nat) :
  b < length l -> nth b (incr_at i l) 0 = nth b l 0 + (if i =? b then 1 else 0).
Proof.
  revert i b; induction l as [|x l IH]; intros i b Hb; cbn [length] in Hb; [lia|].
  destruct i as [|i], b as [|b]; cbn [incr_at nth Nat.eqb].
  - lia.
  - destruct (0 =? S b) eqn:E; [apply Nat.eqb_eq in E; lia | lia].
  - lia.
  - rewrite IH by lia. destruct (i =? b); reflexivity.
Qed.

Lemma bin_one_frame (sp : Q) (st : OrchState) (t : Z) :
  degreeStep (bin_one sp st t) = degreeStep st /\
  numAngleBins (bin_one sp st t) = numAngleBins st /\
  lastMeasurementStartTimePico (bin_one sp st t) = lastMeasurementStartTimePico st.
Proof.
  unfold bin_one. destruct (bin_index st sp t) as [b|]; [destruct (b <? numAngleBins st)|];
    repeat split; reflexivity.
Qed.

Lemma in_histogram_frame (st1 st2 : OrchState) (sp : Q) :
  degreeStep st1 = degreeStep st2 -> numAngleBins st1 = numAngleBins st2 ->
  lastMeasurementStartTimePico st1 = lastMeasurementStartTimePico st2 ->
  in_histogram st1 sp = in_histogram st2 sp.
Proof.
  intros H1 H2 H3. unfold in_histogram, bin_index. rewrite H1, H2, H3. reflexivity.
Qed.

Lemma in_bucket_frame (st1 st2 : OrchState) (sp : Q) (b : nat) :
  degreeStep st1 = degreeStep st2 -> numAngleBins st1 = numAngleBins st2 ->
  lastMeasurementStartTimePico st1 = lastMeasurementStartTimePico st2 ->
  in_bucket st1 sp b = in_bucket st2 sp b.
Proof.
  intros H1 H2 H3. unfold in_bucket, bin_index. rewrite H1, H2, H3. reflexivity.
Qed.

Lemma bin_one_spec (sp : Q) (st : OrchState) (t : Z) :
  length (coincidenceBins (bin_one sp st t)) = length (coincidenceBins st) /\
  totalCoincidences (bin_one sp st t)
  = totalCoincidences st + (if in_histogram st sp t then 1 else 0) /\
  forall b, b < length (coincidenceBins st) ->
    nth b (coincidenceBins (bin_one sp st t)) 0
    = nth b (coincidenceBins st) 0 + (if in_bucket st sp b t then 1 else 0).
Proof.
  unfold bin_one, in_histogram, in_bucket.
  destruct (bin_index st sp t) as [b'|]; [destruct (b' <? numAngleBins st)|].
  - unfold set_bins; cbn [coincidenceBins totalCoincidences].
    split; [apply length_incr_at|]. split; [lia|].
    intros b Hb. rewrite nth_incr_at by exact Hb. rewrite andb_true_r. reflexivity.
  - split; [reflexivity|]. split; [lia|]. intros b _. rewrite andb_false_r. lia.
  - split; [reflexivity|]. split; [lia|]. intros b _. lia.
Qed.

Lemma bin_fold_spec (sp : Q) (ts : list Z) : forall st,
  degreeStep (fold_left (bin_one sp) ts st) = degreeStep st /\
  numAngleBins (fold_left (bin_one sp) ts st) = numAngleBins st /\
  lastMeasurementStartTimePico (fold_left (bin_one sp) ts st) = lastMeasurementStartTimePico st /\
  length (coincidenceBins (fold_left (bin_one sp) ts st)) = length (coincidenceBins st) /\
  totalCoincidences (fold_left (bin_one sp) ts st)
  = totalCoincidences st + length (filter (in_histogram st sp) ts) /\
  forall b, b < length (coincidenceBins st) ->
    nth b (coincidenceBins (fold_left (bin_one sp) ts st)) 0
    = nth b (coincidenceBins st) 0 + length (filter (in_bucket st sp b) ts).
Proof.
  induction ts as [|t ts IH]; intros st; cbn [fold_left filter length].
  - repeat split; intros; lia.
  - destruct (bin_one_frame sp st t) as [F1 [F2 F3]].
    destruct (bin_one_spec sp st t) as [S1 [S2 S3]].
    destruct (IH (bin_one sp st t)) as [G1 [G2 [G3 [G4 [G5 G6]]]]].
    rewrite (in_histogram_frame _ _ sp F1 F2 F3) in G5.
    split; [congruence|]. split; [congruence|]. split; [congruence|].
    split; [congruence|]. split.
    + rewrite G5, S2. destruct (in_histogram st sp t); cbn [length]; lia.
    + intros b Hb. rewrite G6 by lia. rewrite S3 by exact Hb.
      rewrite (in_bucket_frame _ _ sp b F1 F2 F3).
      destruct (in_bucket st sp b t); cbn [length]; lia.
Qed.

(** C7 (corrected): [binCoincidencesByAngle] counts a coincidence only
    when its bucket index [elapsedSec * rotationSpeed / degreeStep]
    (truncated) is below [numAngleBins]; such a coincidence increments
    [totalCoincidences] and exactly that bucket, and any other coincidence
    leaves the state unchanged. *)
Theorem binCoincidencesByAngle_counts_in_range (st : OrchState) (coincidenceTimestamps : list Z)
  (rotationSpeed : Q) :
  length (coincidenceBins st) = numAngleBins st ->
  length (coincidenceBins (binCoincidencesByAngle st coincidenceTimestamps rotationSpeed))
  = numAngleBins st /\
  totalCoincidences (binCoincidencesByAngle st coincidenceTimestamps rotationSpeed)
  = totalCoincidences st + length (filter (in_histogram st rotationSpeed) coincidenceTimestamps) /\
  (forall b, b < numAngleBins st ->
     nth b (coincidenceBins (binCoincidencesByAngle st coincidenceTimestamps rotationSpeed)) 0
     = nth b (coincidenceBins st) 0
       + length (filter (in_bucket st rotationSpeed b) coincidenceTimestamps)) /\
  (forall t, in_histogram st rotationSpeed t = true ->
     exists b, b < numAngleBins st /\ bin_index st rotationSpeed t = Some b /\
       bin_one rotationSpeed st t
       = set_bins st (incr_at b (coincidenceBins st)) (S (totalCoincidences st))) /\
  (forall t, in_histogram st rotationSpeed t = false -> bin_one rotationSpeed st t = st).
Proof.
  intros Hlen. unfold binCoincidencesByAngle.
  destruct (bin_fold_spec rotationSpeed coincidenceTimestamps st)
    as [_ [_ [_ [G4 [G5 G6]]]]].
  split; [congruence|]. split; [exact G5|]. split.
  - intros b Hb. apply G6. lia.
  - split.
    + intros t. unfold in_histogram, bin_one.
      destruct (bin_index st rotationSpeed t) as [b|]; [|discriminate].
      intros Hb. exists b. rewrite Hb. apply Nat.ltb_lt in Hb.
      split; [exact Hb|]. split; reflexivity.
    + intros t. unfold in_histogram, bin_one.
      destruct (bin_index st rotationSpeed t) as [b|]; [|reflexivity].
      intros Hb. rewrite Hb. reflexivity.
Qed.

Lemma binCoincidencesByAngle_counts_in_range_witness :
  let st := mkOrchState AnalyzeData 5%Q 36 FullPhase 0%Z (repeat 0 36) 0 0%Z 0%Q in
  let cs := [1000000000000%Z; 40000000000000%Z] in
  length (coincidenceBins st) = numAngleBins st /\
  totalCoincidences (binCoincidencesByAngle st cs (getRotationSpeed FullPhase)) = 1 /\
  totalCoincidences (binCoincidencesByAngle st cs (getRotationSpeed FullPhase))
  = totalCoincidences st + length (filter (in_histogram st (getRotationSpeed FullPhase)) cs).
Proof.
  intros st cs.
  assert (Hlen : length (coincidenceBins st) = numAngleBins st) by reflexivity.
  split; [exact Hlen|]. split; [vm_compute; reflexivity|].
  exact (proj1 (proj2 (binCoincidencesByAngle_counts_in_range st cs (getRotationSpeed FullPhase) Hlen))).
Defined.

(** A coincidence 40 s after the start of a full-phase measurement lands
    in bucket 48 of a 36-bucket histogram and is not counted. *)
Lemma binCoincidencesByAngle_drops_out_of_range_cex :
  let st := mkOrchState AnalyzeData 5%Q 36 FullPhase 0%Z (repeat 0 36) 0 0%Z 0%Q in
  let cs := findCoincidences 0 [40000000000000%Z] [40000000000000%Z] 10000 in
  cs = [40000000000000%Z] /\
  bin_index st (getRotationSpeed FullPhase) 40000000000000%Z = Some 48 /\
  totalCoincidences (binCoincidencesByAngle st cs (getRotationSpeed FullPhase)) = 0 /\
  coincidenceBins (binCoincidencesByAngle st cs (getRotationSpeed FullPhase)) = repeat 0 36.
Proof.
  vm_compute. repeat split.
Qed.

End AngleBins.

(** ** Visibility *)
Section Visibility.
Import Orchestrator.

Lemma fold_min_lower (rest : list nat) : forall b,
  (fold_left Nat.min rest b <= b)%nat /\ Forall (fun x => (fold_left Nat.min rest b <= x)%nat) rest.
Proof.
  induction rest as [|a rest IH]; intros b; cbn [fold_left].
  - split; [lia | constructor].
  - destruct (IH (Nat.min b a)) as [H1 H2]. split; [lia|]. constructor; [lia | exact H2].
Qed.

Lemma fold_max_upper (rest : list nat) : forall b,
  (b <= fold_left Nat.max rest b)%nat /\ Forall (fun x => (x <= fold_left Nat.max rest b)%nat) rest.
Proof.
  induction rest as [|a rest IH]; intros b; cbn [fold_left].
  - split; [lia | constructor].
  - destruct (IH (Nat.max b a)) as [H1 H2]. split; [lia|]. constructor; [lia | exact H2].
Qed.

Lemma fold_min_In (rest : list nat) : forall b, In (fold_left Nat.min rest b) (b :: rest).
Proof.
  induction rest as [|a rest IH]; intros b; cbn [fold_left]; [left; reflexivity|].
  destruct (IH (Nat.min b a)) as [H|H].
  - set (m := fold_left Nat.min rest (Nat.min b a)) in *.
    destruct (Nat.min_spec b a) as [[_ E]|[_ E]]; rewrite E in H;
      [left; exact H | right; left; exact H].
  - right; right; exact H.
Qed.

Lemma fold_max_In (rest : list nat) : forall b, In (fold_left Nat.max rest b) (b :: rest).
Proof.
  induction rest as [|a rest IH]; intros b; cbn [fold_left]; [left; reflexivity|].
  destruct (IH (Nat.max b a)) as [H|H].
  - set (m := fold_left Nat.max rest (Nat.max b a)) in *.
    destruct (Nat.max_spec b a) as [[_ E]|[_ E]]; rewrite E in H;
      [right; left; exact H | left; exact H].
  - right; right; exact H.
Qed.

Lemma fold_min_const (rest : list nat) (b : nat) :
  Forall (fun x => x = b) rest -> fold_left Nat.min rest b = b.
Proof.
  induction rest as [|a rest IH]; intros H; [reflexivity|].
  inversion H as [|? ? Ha Hrest]; subst. cbn [fold_left]. rewrite Nat.min_id. apply IH, Hrest.
Qed.

Lemma fold_max_const (rest : list nat) (b : nat) :
  Forall (fun x => x = b) rest -> fold_left Nat.max rest b = b.
Proof.
  induction rest as [|a rest IH]; intros H; [reflexivity|].
  inversion H as [|? ? Ha Hrest]; subst. cbn [fold_left]. rewrite Nat.max_id. apply IH, Hrest.
Qed.

Lemma fold_min_eq_max (rest : list nat) (b : nat) :
  fold_left Nat.min rest b = fold_left Nat.max rest b <-> Forall (fun x => x = b) rest.
Proof.
  split.
  - intros E. destruct (fold_min_lower rest b) as [L1 L2]. destruct (fold_max_upper rest b) as [U1 U2].
    apply Forall_forall. intros x Hx.
    rewrite Forall_forall in L2, U2. specialize (L2 x Hx). specialize (U2 x Hx). lia.
  - intros H. rewrite (fold_min_const rest b H), (fold_max_const rest b H). reflexivity.
Qed.

Lemma inject_nat_nonneg (n : nat) : 0 <= inject_Z (Z.of_nat n).
Proof. change 0 with (inject_Z 0). rewrite <- Zle_Qle. lia. Qed.

Lemma inject_nat_le (m n : nat) : (m <= n)%nat -> inject_Z (Z.of_nat m) <= inject_Z (Z.of_nat n).
Proof. intros H. rewrite <- Zle_Qle. lia. Qed.

Lemma inject_nat_eq (m n : nat) : inject_Z (Z.of_nat m) == inject_Z (Z.of_nat n) -> m = n.
Proof. intros H. apply Nat2Z.inj. exact (proj1 (inject_Z_injective _ _) H). Qed.

(** C8 (confirmed): with [C_min] and [C_max] the least and the greatest
    bin, [computeVisibility] is [(C_max - C_min) / (C_max + C_min)] for a
    non-empty histogram with counted coincidences and a non-zero
    denominator, and 0 otherwise; its value lies in [0, 1] and is 0
    exactly when all bins are equal. *)
Theorem computeVisibility_formula_range (bins : list nat) (total : nat) :
  ((bins = [] \/ total = 0%nat) -> computeVisibility bins total = 0) /\
  (forall b rest, bins = b :: rest -> (0 < total)%nat ->
     let C_min := inject_Z (Z.of_nat (fold_left Nat.min rest b)) in
     let C_max := inject_Z (Z.of_nat (fold_left Nat.max rest b)) in
     (forall x, In x bins ->
        (fold_left Nat.min rest b <= x <= fold_left Nat.max rest b)%nat) /\
     In (fold_left Nat.min rest b) bins /\ In (fold_left Nat.max rest b) bins /\
     (C_max + C_min == 0 -> computeVisibility bins total = 0) /\
     (~ C_max + C_min == 0 ->
        computeVisibility bins total = (C_max - C_min) / (C_max + C_min)) /\
     0 <= computeVisibility bins total <= 1 /\
     (computeVisibility bins total == 0 <-> Forall (fun x => x = b) rest)).
Proof.
  split.
  - intros [-> | ->]; [reflexivity|]. destruct bins; reflexivity.
  - intros b rest -> Htot C_min C_max.
    destruct (fold_min_lower rest b) as [L1 L2]. destruct (fold_max_upper rest b) as [U1 U2].
    assert (HA : 0 <= C_min) by apply inject_nat_nonneg.
    assert (HAC : C_min <= C_max) by (apply inject_nat_le; lia).
    assert (Hv : computeVisibility (b :: rest) total
                 = if Qeq_bool (C_max + C_min) 0 then 0 else (C_max - C_min) / (C_max + C_min)).
    { unfold computeVisibility. destruct total as [|total]; [lia|]. reflexivity. }
    split.
    { intros x [Hx|Hx]; [subst x; lia|].
      rewrite Forall_forall in L2, U2. specialize (L2 x Hx). specialize (U2 x Hx). lia. }
    split; [apply fold_min_In|]. split; [apply fold_max_In|].
    rewrite Hv. destruct (Qeq_bool (C_max + C_min) 0) eqn:E.
    + apply Qeq_bool_iff in E.
      split; [intros _; reflexivity|]. split; [intros N; contradiction|].
      split; [split; Lqa.lra|].
      split; [intros _ | intros _; reflexivity].
      apply fold_min_eq_max, inject_nat_eq. fold C_min C_max. Lqa.lra.
    + assert (Hne : ~ C_max + C_min == 0)
        by (intros H; apply Qeq_bool_iff in H; congruence).
      assert (Hpos : 0 < C_max + C_min).
      { destruct (Qlt_le_dec 0 (C_max + C_min)) as [H|H]; [exact H|].
        exfalso. apply Hne. Lqa.lra. }
      split; [intros H; contradiction|]. split; [intros _; reflexivity|].
      split; [split|].
      * apply Qle_shift_div_l; [exact Hpos|]. Lqa.lra.
      * apply Qle_shift_div_r; [exact Hpos|]. Lqa.lra.
      * split.
        -- intros H0. apply fold_min_eq_max, inject_nat_eq. fold C_min C_max.
           assert (Hd : C_max - C_min == (C_max + C_min) * ((C_max - C_min) / (C_max + C_min)))
             by (symmetry; apply Qmult_div_r; exact Hne).
           rewrite H0, Qmult_0_r in Hd. Lqa.lra.
        -- intros Hall. apply fold_min_eq_max in Hall.
           assert (Hz : C_max - C_min == 0) by (unfold C_min, C_max; rewrite Hall; Lqa.lra).
           rewrite Hz. unfold Qdiv. apply Qmult_0_l.
Qed.

Lemma computeVisibility_formula_range_witness :
  computeVisibility [3; 1; 2]%nat 6 = (inject_Z 3 - inject_Z 1) / (inject_Z 3 + inject_Z 1) /\
  0 <= computeVisibility [3; 1; 2]%nat 6 <= 1.
Proof.
  destruct (proj2 (computeVisibility_formula_range [3; 1; 2]%nat 6) 3%nat [1; 2]%nat
              eq_refl ltac:(lia)) as [_ [_ [_ [_ [H1 [H2 _]]]]]].
  split; [|exact H2].
  apply H1. vm_compute. discriminate.
Defined.

End Visibility.

(** ** Analysis without data *)
Section NoData.
Import Orchestrator.

(** C9 (confirmed): when the data folder is missing, cannot be listed,
    is empty, or yields no client ([bme]) or no server ([wigner]) file,
    [analyzeCoincidences] returns normally with every bin and
    [totalCoincidences] at 0 and [currentVisibility] 0, and
    [stepAnalyzeData] moves on to [RotateToMinVis]. *)
Theorem analyzeCoincidences_no_data_zero (folder : data_folder)
  (contents : String.string -> option (list (Z * Z))) (st : OrchState) :
  (folder = FolderMissing \/ folder = FolderFails \/ folder = Folder [] \/
   collectDataFiles folder "bme"%string = [] \/ collectDataFiles folder "wigner"%string = []) ->
  totalCoincidences (analyzeCoincidences folder contents st) = 0%nat /\
  currentVisibility (analyzeCoincidences folder contents st) = 0 /\
  coincidenceBins (analyzeCoincidences folder contents st)
  = repeat 0%nat (length (coincidenceBins st)) /\
  currentStep (fst (stepAnalyzeData folder contents st)) = RotateToMinVis /\
  snd (stepAnalyzeData folder contents st) = "no_command"%string.
Proof.
  intros Hf.
  assert (Hempty : collectDataFiles folder "bme"%string = [] \/
                   collectDataFiles folder "wigner"%string = []).
  { destruct Hf as [-> | [-> | [-> | H]]]; [left; reflexivity .. | exact H]. }
  unfold stepAnalyzeData, analyzeCoincidences. cbv zeta.
  destruct Hempty as [H|H]; rewrite H;
    [|destruct (collectDataFiles folder "bme"%string)];
    repeat split; reflexivity.
Qed.

Lemma analyzeCoincidences_no_data_zero_witness :
  let st := mkOrchState AnalyzeData 5 36 FullPhase 0%Z [3; 4]%nat 7 0%Z (1 # 2) in
  totalCoincidences (analyzeCoincidences FolderMissing (fun _ => None) st) = 0%nat /\
  currentVisibility (analyzeCoincidences FolderMissing (fun _ => None) st) = 0.
Proof.
  intros st.
  destruct (analyzeCoincidences_no_data_zero FolderMissing (fun _ => None) st
              (or_introl eq_refl)) as [H1 [H2 _]].
  split; [exact H1 | exact H2].
Defined.

End NoData.

(** ** The measurement state machine *)
Section MachineProps.
Import Orchestrator Machine.

Lemma scan_loop_first (fuel : nat) (cur delta step limit : Q) :
  Qle_bool delta limit = true ->
  scan_loop (S fuel) cur delta step limit = (cur + delta) :: scan_loop fuel cur (delta + step) step limit.
Proof. intros H. cbn [scan_loop]. rewrite H. reflexivity. Qed.

Lemma initializeQWPScan_nonempty (m : Machine) (fineScan : bool) :
  qwpTestIndex (initializeQWPScan m fineScan) = 0%nat /\ qwpTestAngles (initializeQWPScan m fineScan) <> [].
Proof.
  split; [reflexivity|]. unfold initializeQWPScan, set_scan. cbn [qwpTestAngles].
  destruct fineScan; rewrite scan_loop_first by reflexivity; discriminate.
Qed.

Lemma stepAdjustQWP_inv (m : Machine) :
  qwpTestIndex m = 0%nat ->
  qwpTestIndex (fst (stepAdjustQWP m)) = 0%nat /\
  currentStep (core (fst (stepAdjustQWP m))) = MeasureWithQWP /\
  (exists d a, snd (stepAdjustQWP m) = CmdRotate d a).
Proof.
  intros H0. unfold stepAdjustQWP. rewrite H0. cbn [Nat.eqb andb].
  set (m1 := if match qwpTestAngles m with [] => true | _ => false end
             then initializeQWPScan m (qwpPhase m =? 1)%Z else m).
  assert (Hm1 : qwpTestIndex m1 = 0%nat /\ qwpTestAngles m1 <> []).
  { unfold m1. destruct (qwpTestAngles m) as [|a l] eqn:E.
    - apply initializeQWPScan_nonempty.
    - split; [exact H0 | rewrite E; discriminate]. }
  destruct Hm1 as [I1 A1].
  assert (Hc : isQWPScanComplete m1 = false).
  { unfold isQWPScanComplete. rewrite I1. destruct (qwpTestAngles m1); [contradiction | reflexivity]. }
  rewrite Hc. cbn [fst snd]. split; [exact I1|]. split; [reflexivity|]. eexists; eexists; reflexivity.
Qed.

Lemma runNextStep_inv (env : StepEnv) (m m' : Machine) (c : Cmd) :
  machine_inv m -> runNextStep env m = Some (m', c) -> machine_inv m' /\ c <> CmdText "exit".
Proof.
  intros [H0 Hlive] Hrun. unfold runNextStep in Hrun.
  destruct (currentStep (core m)) eqn:Hs; try discriminate Hlive.
  - unfold stepHomeAll in Hrun. injection Hrun as <- <-.
    split; [split; [exact H0 | reflexivity] | discriminate].
  - unfold stepSetup in Hrun. injection Hrun as <- <-.
    split; [split; [exact H0 | reflexivity] | discriminate].
  - unfold stepMeasureFullPhase in Hrun.
    destruct (GPSTime.parseGPSTime (env_start_time env)); [|discriminate].
    injection Hrun as <- <-. split; [split; [exact H0 | reflexivity] | discriminate].
  - unfold stepReadData in Hrun. injection Hrun as <- <-.
    split; [split; [exact H0 | reflexivity] | discriminate].
  - unfold stepAnalyzeData, Orchestrator.stepAnalyzeData in Hrun. injection Hrun as <- <-.
    split; [split; [exact H0 | reflexivity] | discriminate].
  - unfold stepRotateToMinVis in Hrun.
    destruct (coincidenceBins (core m)) as [|b bins]; [|destruct (totalCoincidences (core m))];
      injection Hrun as <- <-; (split; [split; [exact H0 | reflexivity] | discriminate]).
  - injection Hrun as Hrun. destruct (stepAdjustQWP_inv m H0) as [I1 [S1 [d [a Hc]]]].
    rewrite Hrun in I1, S1, Hc. cbn [fst snd] in I1, S1, Hc.
    split; [split; [exact I1 | rewrite S1; reflexivity]|]. rewrite Hc. discriminate.
  - unfold stepMeasureWithQWP in Hrun.
    destruct (GPSTime.parseGPSTime (env_start_time env)); [|discriminate].
    injection Hrun as <- <-. split; [split; [exact H0 | reflexivity] | discriminate].
Qed.

Lemma run_steps_inv (envs : list StepEnv) : forall m m' cmds,
  machine_inv m -> run_steps envs m = Some (m', cmds) ->
  machine_inv m' /\ ~ In (CmdText "exit") cmds.
Proof.
  induction envs as [|e envs IH]; intros m m' cmds Hinv Hrun; cbn [run_steps] in Hrun.
  - injection Hrun as <- <-. split; [exact Hinv | intros []].
  - destruct (runNextStep e m) as [[m1 c]|] eqn:E1; [|discriminate].
    destruct (run_steps envs m1) as [[m2 cs]|] eqn:E2; [|discriminate].
    injection Hrun as <- <-.
    destruct (runNextStep_inv e m m1 c Hinv E1) as [Hinv1 Hc].
    destruct (IH m1 m2 cs Hinv1 E2) as [Hinv2 Hcs].
    split; [exact Hinv2|]. intros [H|H]; [exact (Hc H) | exact (Hcs H)].
Qed.

(** X1: from a freshly constructed [Orchestrator], no sequence of calls of
    [runNextStep] ever returns ["exit"] or reaches [AnalyzeQWPData],
    [ProcessQWPResults], [CheckConvergence] or [Exit]: [stepReadData] always
    moves to [AnalyzeData], so [qwpTestIndex], which only
    [stepAnalyzeQWPData] increments, stays 0, and the QWP scan tests its
    first angle again and again. *)
Theorem runNextStep_never_exits (l2s l4s stepDeg : Q) (m0 : Machine) (envs : list StepEnv)
  (m : Machine) (cmds : list Cmd) :
  Orchestrator_new l2s l4s stepDeg = Some m0 ->
  run_steps envs m0 = Some (m, cmds) ->
  ~ In (CmdText "exit") cmds /\ qwpTestIndex m = 0%nat /\
  ~ In (currentStep (core m)) [AnalyzeQWPData; ProcessQWPResults; CheckConvergence; Exit].
Proof.
  intros Hnew Hrun.
  assert (Hinv0 : machine_inv m0).
  { unfold Orchestrator_new in Hnew. destruct (size_t_of_double (180 / stepDeg)); [|discriminate].
    injection Hnew as <-. split; reflexivity. }
  destruct (run_steps_inv envs m0 m cmds Hinv0 Hrun) as [[I1 L1] Hc].
  split; [exact Hc|]. split; [exact I1|].
  destruct (currentStep (core m)); try discriminate L1;
    cbn [In]; intuition discriminate.
Qed.

Lemma runNextStep_never_exits_witness :
  match Orchestrator_new 0 0 5 with
  | Some m0 =>
      match run_steps (repeat (mkEnv "10,00,00.0"%string (Folder []) (fun _ => None)) 30) m0 with
      | Some (m, cmds) => ~ In (CmdText "exit") cmds /\ qwpTestIndex m = 0%nat
      | None => False
      end
  | None => False
  end.
Proof.
  destruct (Orchestrator_new 0 0 5) as [m0|] eqn:H0; [|discriminate].
  destruct (run_steps (repeat (mkEnv "10,00,00.0"%string (Folder []) (fun _ => None)) 30) m0)
    as [[m cmds]|] eqn:H1.
  - destruct (runNextStep_never_exits 0 0 5 m0 _ m cmds H0 H1) as [A [B _]].
    split; [exact A | exact B].
  - vm_compute in H0. injection H0 as <-. vm_compute in H1. discriminate H1.
Defined.

End MachineProps.

(** ** Orchestrator: the minimum-visibility bin and the QWP scan *)
Section QWPProps.
Import Orchestrator Machine.

Lemma nth_app_last_l {A} (p : list A) (x d : A) (j : nat) :
  (j < length p)%nat -> nth j (p ++ [x]) d = nth j p d.
Proof. intros H. apply app_nth1. exact H. Qed.

Lemma nth_app_last_r {A} (p : list A) (x d : A) :
  nth (length p) (p ++ [x]) d = x.
Proof. rewrite app_nth2 by lia. rewrite Nat.sub_diag. reflexivity. Qed.

Lemma length_app_last {A} (p : list A) (x : A) : length (p ++ [x]) = S (length p).
Proof. rewrite length_app. cbn. lia. Qed.

Lemma min_index_loop_spec (r : list nat) : forall (p : list nat) (bi bv : nat),
  (bi < length p)%nat -> nth bi p 0%nat = bv ->
  (forall j, (j < length p)%nat -> (bv <= nth j p 0)%nat) ->
  (forall j, (j < bi)%nat -> (bv < nth j p 0)%nat) ->
  let i := min_index_loop r (length p) bi bv in
  (i < length (p ++ r))%nat /\
  (forall j, (j < length (p ++ r))%nat -> (nth i (p ++ r) 0 <= nth j (p ++ r) 0)%nat) /\
  (forall j, (j < i)%nat -> (nth i (p ++ r) 0 < nth j (p ++ r) 0)%nat).
Proof.
  induction r as [|x r IH]; intros p bi bv Hbi Hbv Hle Hlt; cbn zeta.
  - cbn [min_index_loop]. rewrite app_nil_r. subst bv. split; [exact Hbi|]. split; assumption.
  - cbn [min_index_loop]. replace (p ++ x :: r) with ((p ++ [x]) ++ r) by (rewrite <- app_assoc; reflexivity).
    rewrite <- (length_app_last p x).
    destruct (Nat.ltb_spec x bv) as [Hx|Hx].
    + apply IH.
      * rewrite length_app_last. lia.
      * apply nth_app_last_r.
      * intros j Hj. rewrite length_app_last in Hj.
        destruct (Nat.eq_dec j (length p)) as [->|Hne].
        -- rewrite nth_app_last_r. lia.
        -- rewrite nth_app_last_l by lia. specialize (Hle j ltac:(lia)). lia.
      * intros j Hj. rewrite nth_app_last_l by lia. specialize (Hle j Hj). lia.
    + apply IH.
      * rewrite length_app_last. lia.
      * rewrite nth_app_last_l by lia. exact Hbv.
      * intros j Hj. rewrite length_app_last in Hj.
        destruct (Nat.eq_dec j (length p)) as [->|Hne].
        -- rewrite nth_app_last_r. lia.
        -- rewrite nth_app_last_l by lia. apply Hle. lia.
      * intros j Hj. rewrite nth_app_last_l by lia. apply Hlt. exact Hj.
Qed.

Lemma findMinVisibilityBin_spec (bins : list nat) :
  bins <> [] ->
  let i := findMinVisibilityBin bins in
  (i < length bins)%nat /\
  (forall j, (j < length bins)%nat -> (nth i bins 0 <= nth j bins 0)%nat) /\
  (forall j, (j < i)%nat -> (nth i bins 0 < nth j bins 0)%nat).
Proof.
  intros Hne. destruct bins as [|x r]; [contradiction|]. unfold findMinVisibilityBin.
  exact (min_index_loop_spec r [x] 0 x ltac:(cbn; lia) eq_refl
           (fun j Hj => ltac:(cbn in Hj; destruct j; [cbn; lia | lia]))
           (fun j Hj => ltac:(lia))).
Qed.

(** X2: [findMinVisibilityBin] on a non-empty histogram returns an index
    in range whose count is the smallest of all bins, and no earlier bin has
    that count (the first minimum, as [std::min_element] keeps it). *)
Theorem findMinVisibilityBin_first_min (bins : list nat) :
  bins <> [] ->
  (findMinVisibilityBin bins < length bins)%nat /\
  (forall j, (j < length bins)%nat ->
     (nth (findMinVisibilityBin bins) bins 0 <= nth j bins 0)%nat) /\
  (forall j, (j < findMinVisibilityBin bins)%nat ->
     (nth (findMinVisibilityBin bins) bins 0 < nth j bins 0)%nat).
Proof. intros Hne. exact (findMinVisibilityBin_spec bins Hne). Qed.

Lemma findMinVisibilityBin_first_min_witness :
  (findMinVisibilityBin [5%nat; 2%nat; 7%nat; 2%nat] < 4)%nat /\ findMinVisibilityBin [5%nat; 2%nat; 7%nat; 2%nat] = 1%nat.
Proof.
  split; [exact (proj1 (findMinVisibilityBin_first_min [5%nat; 2%nat; 7%nat; 2%nat] ltac:(discriminate))) | reflexivity].
Defined.

(** X3: when the histogram has bins and a non-zero total, [stepRotateToMinVis]
    moves to [AdjustQWP] and rotates ["wigner2"] to an angle [t] (also stored
    in [lambda2_server]) strictly inside the angle range of the bin with the
    fewest coincidences, the bin's midpoint for a positive [degreeStep]. *)
Theorem stepRotateToMinVis_min_bin (m : Machine) :
  coincidenceBins (core m) <> [] -> totalCoincidences (core m) <> 0%nat ->
  0 < degreeStep (core m) ->
  currentStep (core (fst (stepRotateToMinVis m))) = AdjustQWP /\
  exists (i : nat) (t : Q),
    snd (stepRotateToMinVis m) = CmdRotate "wigner2" t /\
    lambda2_server (fst (stepRotateToMinVis m)) = t /\
    (i < length (coincidenceBins (core m)))%nat /\
    (forall j, (j < length (coincidenceBins (core m)))%nat ->
       (nth i (coincidenceBins (core m)) 0 <= nth j (coincidenceBins (core m)) 0)%nat) /\
    inject_Z (Z.of_nat i) * degreeStep (core m) < t /\
    t < inject_Z (Z.of_nat (S i)) * degreeStep (core m).
Proof.
  intros Hb Ht Hd. unfold stepRotateToMinVis.
  destruct (findMinVisibilityBin_spec (coincidenceBins (core m)) Hb) as [Hi [Hmin _]].
  destruct (coincidenceBins (core m)) as [|b bins] eqn:Eb; [contradiction|].
  destruct (totalCoincidences (core m)) as [|tot]; [contradiction|].
  cbn [fst snd]. split; [reflexivity|].
  set (i := findMinVisibilityBin (b :: bins)) in *.
  exists i, ((inject_Z (Z.of_nat i) + (1 # 2)) * degreeStep (core m)).
  split; [reflexivity|]. split; [reflexivity|]. split; [exact Hi|]. split; [exact Hmin|].
  rewrite Nat2Z.inj_succ, <- Z.add_1_r, inject_Z_plus.
  set (I := inject_Z (Z.of_nat i)). set (d := degreeStep (core m)) in *.
  assert (E1 : (I + (1 # 2)) * d == I * d + (1 # 2) * d) by ring.
  assert (E2 : (I + inject_Z 1) * d == I * d + d) by (unfold inject_Z; ring).
  rewrite E1, E2. split; Lqa.lra.
Qed.

Lemma stepRotateToMinVis_min_bin_witness :
  match snd (stepRotateToMinVis (mkMachine (mkOrchState RotateToMinVis 30 6 FullPhase 0%Z
                        [5%nat; 2%nat; 7%nat; 2%nat; 9%nat; 4%nat] 29%nat 0%Z 0)
             0 0 EmptyString 0 (1 # 100) 0%Z (0, 0) 0%Z 0%nat [] [] 0 0 true)) with CmdRotate _ t => t == 45 | CmdText _ => False end /\
  currentStep (core (fst (stepRotateToMinVis (mkMachine (mkOrchState RotateToMinVis 30 6 FullPhase 0%Z
                        [5%nat; 2%nat; 7%nat; 2%nat; 9%nat; 4%nat] 29%nat 0%Z 0)
             0 0 EmptyString 0 (1 # 100) 0%Z (0, 0) 0%Z 0%nat [] [] 0 0 true)))) = AdjustQWP.
Proof.
  split; [vm_compute; reflexivity|].
  refine (proj1 (stepRotateToMinVis_min_bin _ _ _ _)); [discriminate | discriminate | reflexivity].
Defined.

Lemma scan_loop_length_cur (step limit : Q) (fuel : nat) : forall (cur cur' delta : Q),
  length (scan_loop fuel cur delta step limit) = length (scan_loop fuel cur' delta step limit).
Proof.
  induction fuel as [|f IH]; intros cur cur' delta; cbn [scan_loop]; [reflexivity|].
  destruct (Qle_bool delta limit); cbn [length]; [f_equal; apply IH | reflexivity].
Qed.

Lemma inject_nat_succ (k : nat) : inject_Z (Z.of_nat (S k)) == inject_Z (Z.of_nat k) + 1.
Proof. rewrite Nat2Z.inj_succ, <- Z.add_1_r, inject_Z_plus. reflexivity. Qed.

Lemma scan_loop_nth (step limit : Q) (fuel : nat) : forall (cur delta : Q) (k : nat),
  (k < length (scan_loop fuel cur delta step limit))%nat ->
  nth k (scan_loop fuel cur delta step limit) 0 == cur + (delta + inject_Z (Z.of_nat k) * step).
Proof.
  induction fuel as [|f IH]; intros cur delta k Hk; cbn [scan_loop length] in *; [lia|].
  destruct (Qle_bool delta limit); cbn [length] in Hk; [|lia].
  destruct k as [|k]; cbn [nth].
  - cbn. ring.
  - eapply Qeq_trans; [apply IH; lia|]. rewrite inject_nat_succ. ring.
Qed.

(** X4: [initializeQWPScan] resets the scan (index 0, no visibilities) and
    fills the test angles with 11 angles (coarse) or 9 angles (fine), the
    [k]-th being the current angle of the side plus [-range + k * step]:
    the current angle [-10, -8, ..., +10] degrees for the coarse scan and
    [-2, -1.5, ..., +2] for the fine one.  Nothing else changes. *)
Theorem initializeQWPScan_angles (m : Machine) (fineScan : bool) :
  qwpTestIndex (initializeQWPScan m fineScan) = 0%nat /\
  qwpTestVisibilities (initializeQWPScan m fineScan) = [] /\
  length (qwpTestAngles (initializeQWPScan m fineScan)) = (if fineScan then 9 else 11)%nat /\
  (forall k, (k < length (qwpTestAngles (initializeQWPScan m fineScan)))%nat ->
     nth k (qwpTestAngles (initializeQWPScan m fineScan)) 0 ==
     current_side_angle m +
       (- (if fineScan then QWP_FINE_RANGE else QWP_COARSE_RANGE) +
        inject_Z (Z.of_nat k) * (if fineScan then QWP_FINE_STEP else QWP_COARSE_STEP))) /\
  core (initializeQWPScan m fineScan) = core m /\
  qwpSideIndex (initializeQWPScan m fineScan) = qwpSideIndex m /\
  qwpPhase (initializeQWPScan m fineScan) = qwpPhase m /\
  qwpCurrentAngle (initializeQWPScan m fineScan) = qwpCurrentAngle m /\
  qwpBestVisibility (initializeQWPScan m fineScan) = qwpBestVisibility m /\
  qwpBestAngle (initializeQWPScan m fineScan) = qwpBestAngle m.
Proof.
  unfold initializeQWPScan, set_scan. cbn [qwpTestIndex qwpTestVisibilities qwpTestAngles
    core qwpSideIndex qwpPhase qwpCurrentAngle qwpBestVisibility qwpBestAngle].
  split; [reflexivity|]. split; [reflexivity|]. split.
  - rewrite (scan_loop_length_cur _ _ _ _ 0). destruct fineScan; vm_compute; reflexivity.
  - split; [intros k Hk; apply scan_loop_nth; exact Hk|].
    repeat split.
Qed.

Lemma max_index_loop_spec (r : list Q) : forall (p : list Q) (bi : nat) (bv : Q),
  (bi < length p)%nat -> nth bi p 0 = bv ->
  (forall j, (j < length p)%nat -> nth j p 0 <= bv) ->
  (forall j, (j < bi)%nat -> nth j p 0 < bv) ->
  let i := max_index_loop r (length p) bi bv in
  (i < length (p ++ r))%nat /\
  (forall j, (j < length (p ++ r))%nat -> nth j (p ++ r) 0 <= nth i (p ++ r) 0) /\
  (forall j, (j < i)%nat -> nth j (p ++ r) 0 < nth i (p ++ r) 0).
Proof.
  induction r as [|x r IH]; intros p bi bv Hbi Hbv Hle Hlt; cbn zeta.
  - cbn [max_index_loop]. rewrite app_nil_r. subst bv. split; [exact Hbi|]. split; assumption.
  - cbn [max_index_loop]. replace (p ++ x :: r) with ((p ++ [x]) ++ r) by (rewrite <- app_assoc; reflexivity).
    rewrite <- (length_app_last p x).
    destruct (Qlt_le_dec bv x) as [Hx|Hx].
    + apply IH.
      * rewrite length_app_last. lia.
      * apply nth_app_last_r.
      * intros j Hj. rewrite length_app_last in Hj.
        destruct (Nat.eq_dec j (length p)) as [->|Hne].
        -- rewrite nth_app_last_r. apply Qle_refl.
        -- rewrite nth_app_last_l by lia. specialize (Hle j ltac:(lia)). Lqa.lra.
      * intros j Hj. rewrite nth_app_last_l by lia. specialize (Hle j Hj). Lqa.lra.
    + apply IH.
      * rewrite length_app_last. lia.
      * rewrite nth_app_last_l by lia. exact Hbv.
      * intros j Hj. rewrite length_app_last in Hj.
        destruct (Nat.eq_dec j (length p)) as [->|Hne].
        -- rewrite nth_app_last_r. exact Hx.
        -- rewrite nth_app_last_l by lia. apply Hle. lia.
      * intros j Hj. rewrite nth_app_last_l by lia. apply Hlt. exact Hj.
Qed.

Lemma max_element_index_spec (l : list Q) :
  l <> [] ->
  let i := max_element_index l in
  (i < length l)%nat /\
  (forall j, (j < length l)%nat -> nth j l 0 <= nth i l 0) /\
  (forall j, (j < i)%nat -> nth j l 0 < nth i l 0).
Proof.
  intros Hne. destruct l as [|x r]; [contradiction|]. unfold max_element_index.
  apply (max_index_loop_spec r [x] 0 x).
  - cbn. lia.
  - reflexivity.
  - intros j Hj. cbn in Hj. destruct j as [|j]; [apply Qle_refl | lia].
  - intros j Hj. lia.
Qed.

(** X5: on a non-empty list of scan visibilities (with an angle for each),
    [updateQWPBestAngle] takes the first largest visibility.  If it beats
    the best visibility so far by more than [QWP_MIN_IMPROVEMENT], it
    becomes the best one, its angle becomes the best angle and the current
    angle of the side, and the scan is marked improved; otherwise the best
    values and the current angles are kept and the scan is marked not
    improved.  The best visibility never decreases. *)
Theorem updateQWPBestAngle_best (m : Machine) :
  qwpTestVisibilities m <> [] ->
  (length (qwpTestVisibilities m) <= length (qwpTestAngles m))%nat ->
  exists m', updateQWPBestAngle m = Some m' /\
    qwpBestVisibility m <= qwpBestVisibility m' /\
    qwpSideIndex m' = qwpSideIndex m /\ core m' = core m /\
    qwpTestAngles m' = qwpTestAngles m /\ qwpTestVisibilities m' = qwpTestVisibilities m /\
    (qwpImprovedLastScan m' = true ->
       exists i, (i < length (qwpTestVisibilities m))%nat /\
         (forall j, (j < length (qwpTestVisibilities m))%nat ->
            nth j (qwpTestVisibilities m) 0 <= nth i (qwpTestVisibilities m) 0) /\
         (forall j, (j < i)%nat -> nth j (qwpTestVisibilities m) 0 < nth i (qwpTestVisibilities m) 0) /\
         qwpBestVisibility m' = nth i (qwpTestVisibilities m) 0 /\
         qwpBestVisibility m + QWP_MIN_IMPROVEMENT < qwpBestVisibility m' /\
         qwpBestAngle m' = nth i (qwpTestAngles m) 0 /\
         current_side_angle m' = nth i (qwpTestAngles m) 0) /\
    (qwpImprovedLastScan m' = false ->
       qwpBestVisibility m' = qwpBestVisibility m /\ qwpBestAngle m' = qwpBestAngle m /\
       qwpCurrentAngle m' = qwpCurrentAngle m /\
       (forall j, (j < length (qwpTestVisibilities m))%nat ->
          nth j (qwpTestVisibilities m) 0 <= qwpBestVisibility m + QWP_MIN_IMPROVEMENT)).
Proof.
  intros Hne Hlen.
  destruct (max_element_index_spec (qwpTestVisibilities m) Hne) as [Hi [Hle Hlt]].
  unfold updateQWPBestAngle.
  destruct (qwpTestVisibilities m) as [|v0 vs] eqn:Ev; [contradiction|].
  set (vis := v0 :: vs) in *. set (i := max_element_index vis) in *.
  assert (Hlt2 : (length (qwpTestAngles m) <=? i)%nat = false) by (apply Nat.leb_gt; lia).
  rewrite Hlt2.
  destruct (Qlt_le_dec (qwpBestVisibility m + QWP_MIN_IMPROVEMENT) (nth i vis 0)) as [Himp|Hnot].
  - eexists. split; [reflexivity|].
    unfold set_qwpCurrentAngle, set_best. cbn [qwpBestVisibility qwpSideIndex core qwpTestAngles qwpTestVisibilities qwpImprovedLastScan qwpBestAngle qwpCurrentAngle].
    split; [unfold QWP_MIN_IMPROVEMENT in *; Lqa.lra|].
    split; [reflexivity|]. split; [reflexivity|]. split; [reflexivity|]. split; [exact Ev|].
    split; [|intros H; discriminate H].
    intros _. exists i. split; [exact Hi|]. split; [exact Hle|]. split; [exact Hlt|].
    split; [reflexivity|]. split; [exact Himp|]. split; [reflexivity|].
    unfold current_side_angle. cbn [qwpBestVisibility qwpSideIndex core qwpTestAngles qwpTestVisibilities qwpImprovedLastScan qwpBestAngle qwpCurrentAngle]. destruct (qwpSideIndex m =? 0)%Z; reflexivity.
  - eexists. split; [reflexivity|].
    unfold set_best. cbn [qwpBestVisibility qwpSideIndex core qwpTestAngles qwpTestVisibilities qwpImprovedLastScan qwpBestAngle qwpCurrentAngle].
    split; [apply Qle_refl|].
    split; [reflexivity|]. split; [reflexivity|]. split; [reflexivity|]. split; [exact Ev|].
    split; [intros H; discriminate H|].
    intros _. split; [reflexivity|]. split; [reflexivity|]. split; [reflexivity|].
    intros j Hj. eapply Qle_trans; [apply Hle; exact Hj | exact Hnot].
Qed.

Lemma updateQWPBestAngle_best_witness :
  exists m', updateQWPBestAngle (mkMachine (mkOrchState ProcessQWPResults 5 36 FineScan 0%Z [] 0%nat 0%Z 0)
       0 0 EmptyString 0 (1 # 100) 0%Z (0, 0) 0%Z 3%nat [-2; 0; 2] [1 # 4; 3 # 4; 1 # 2]
       (1 # 2) 0 false) = Some m' /\
    qwpBestVisibility (mkMachine (mkOrchState ProcessQWPResults 5 36 FineScan 0%Z [] 0%nat 0%Z 0)
       0 0 EmptyString 0 (1 # 100) 0%Z (0, 0) 0%Z 3%nat [-2; 0; 2] [1 # 4; 3 # 4; 1 # 2]
       (1 # 2) 0 false) <= qwpBestVisibility m'.
Proof.
  match goal with |- context [updateQWPBestAngle ?M] =>
    destruct (updateQWPBestAngle_best M ltac:(discriminate) ltac:(cbn; lia)) as [m' [E [L _]]] end.
  exists m'. split; [exact E | exact L].
Defined.

Lemma initializeQWPScan_fields (m : Machine) (fineScan : bool) :
  qwpTestIndex (initializeQWPScan m fineScan) = 0%nat /\
  qwpTestVisibilities (initializeQWPScan m fineScan) = [] /\
  length (qwpTestAngles (initializeQWPScan m fineScan)) = (if fineScan then 9 else 11)%nat /\
  qwpSideIndex (initializeQWPScan m fineScan) = qwpSideIndex m /\
  qwpPhase (initializeQWPScan m fineScan) = qwpPhase m.
Proof.
  unfold initializeQWPScan, set_scan.
  cbn [qwpTestIndex qwpTestVisibilities qwpTestAngles qwpSideIndex qwpPhase].
  split; [reflexivity|]. split; [reflexivity|]. split; [|split; reflexivity].
  rewrite (scan_loop_length_cur _ _ _ _ 0). destruct fineScan; vm_compute; reflexivity.
Qed.

(** X6: [advanceQWPOptimization] after an improved scan starts a fine scan
    (9 angles) on the same side, in phase 1 when it was in phase 0; after a
    scan without improvement on side 0 it starts a coarse scan (11 angles)
    on side 1 in phase 0; after a scan without improvement on the other
    side it only moves to [CheckConvergence].  A new scan always starts at
    index 0 with no visibilities, at step [AdjustQWP]. *)
Theorem advanceQWPOptimization_next (m : Machine) :
  (qwpImprovedLastScan m = true ->
     currentStep (core (advanceQWPOptimization m)) = AdjustQWP /\
     qwpSideIndex (advanceQWPOptimization m) = qwpSideIndex m /\
     qwpPhase (advanceQWPOptimization m) = (if (qwpPhase m =? 0)%Z then 1%Z else qwpPhase m) /\
     qwpTestIndex (advanceQWPOptimization m) = 0%nat /\
     qwpTestVisibilities (advanceQWPOptimization m) = [] /\
     length (qwpTestAngles (advanceQWPOptimization m)) = 9%nat) /\
  (qwpImprovedLastScan m = false -> qwpSideIndex m = 0%Z ->
     currentStep (core (advanceQWPOptimization m)) = AdjustQWP /\
     qwpSideIndex (advanceQWPOptimization m) = 1%Z /\
     qwpPhase (advanceQWPOptimization m) = 0%Z /\
     qwpTestIndex (advanceQWPOptimization m) = 0%nat /\
     qwpTestVisibilities (advanceQWPOptimization m) = [] /\
     length (qwpTestAngles (advanceQWPOptimization m)) = 11%nat) /\
  (qwpImprovedLastScan m = false -> qwpSideIndex m <> 0%Z ->
     advanceQWPOptimization m = set_currentStep m CheckConvergence).
Proof.
  unfold advanceQWPOptimization.
  destruct (qwpPhase m =? 0)%Z eqn:Ep, (qwpImprovedLastScan m) eqn:Ei, (qwpSideIndex m =? 0)%Z eqn:Es;
    (split; [|split]); intros; try discriminate;
    try (apply Z.eqb_neq in Es; contradiction);
    try (apply Z.eqb_eq in Es; contradiction);
    try reflexivity;
    match goal with |- context [initializeQWPScan ?x ?b] =>
      destruct (initializeQWPScan_fields x b) as (I1 & I2 & I3 & I4 & I5) end;
    unfold set_currentStep, set_core;
    cbn [core qwpSideIndex qwpPhase qwpTestIndex qwpTestVisibilities qwpTestAngles];
    rewrite ?I1, ?I2, ?I3, ?I4, ?I5;
    repeat split; reflexivity.
Qed.

End QWPProps.

(** ** Orchestrator: the GPS time parser (Orchestrator::parseGPSTime) *)
Section GPSTimeProps.
Import GPSTime.
Local Open Scope Z_scope.

Local Notation digit_chars l := (map (fun d => ascii_of_nat (48 + Z.to_nat d)) l).

Lemma digit_char_props (d : Z) :
  0 <= d <= 9 ->
  digit_of (ascii_of_nat (48 + Z.to_nat d)) = Some d /\
  is_space (ascii_of_nat (48 + Z.to_nat d)) = false /\
  ascii_of_nat (48 + Z.to_nat d) <> "-"%char /\ ascii_of_nat (48 + Z.to_nat d) <> "+"%char /\
  ascii_of_nat (48 + Z.to_nat d) <> "010"%char /\ ascii_of_nat (48 + Z.to_nat d) <> "000"%char.
Proof.
  intros Hd.
  assert (H : d = 0 \/ d = 1 \/ d = 2 \/ d = 3 \/ d = 4 \/ d = 5 \/ d = 6 \/ d = 7 \/ d = 8 \/ d = 9)
    by lia.
  repeat destruct H as [H|H]; subst d; vm_compute;
    (split; [reflexivity|]); (split; [reflexivity|]); repeat split; discriminate.
Qed.

Lemma span_digits_chars (ds : list Z) (rest : list ascii) :
  Forall (fun d => 0 <= d <= 9) ds ->
  span_digits (digit_chars ds ++ rest) = (ds ++ fst (span_digits rest), snd (span_digits rest)).
Proof.
  induction 1 as [|d ds Hd Hds IH]; cbn [map app].
  - destruct (span_digits rest); reflexivity.
  - cbn [span_digits]. rewrite (proj1 (digit_char_props d Hd)), IH. reflexivity.
Qed.

Lemma span_digits_stop (c : ascii) (r : list ascii) :
  is_digit c = false -> span_digits (c :: r) = ([], c :: r).
Proof.
  unfold is_digit. intros H. cbn [span_digits]. destruct (digit_of c); [discriminate | reflexivity].
Qed.

Lemma digits_value_acc (ds : list Z) : forall acc,
  fold_left (fun acc d => acc * 10 + d) ds acc = acc * 10 ^ Z.of_nat (length ds) + digits_value ds.
Proof.
  unfold digits_value.
  induction ds as [|d ds IH]; intros acc; cbn [fold_left length].
  - cbn. ring.
  - rewrite IH, (IH (0 * 10 + d)). rewrite Nat2Z.inj_succ, Z.pow_succ_r by lia. ring.
Qed.

Lemma digits_value_cons (d : Z) (ds : list Z) :
  digits_value (d :: ds) = d * 10 ^ Z.of_nat (length ds) + digits_value ds.
Proof. unfold digits_value at 1. cbn [fold_left]. rewrite digits_value_acc. ring. Qed.

Lemma digits_value_bound (ds : list Z) :
  Forall (fun d => 0 <= d <= 9) ds -> 0 <= digits_value ds < 10 ^ Z.of_nat (length ds).
Proof.
  induction 1 as [|d ds Hd Hds IH].
  - cbn. lia.
  - rewrite digits_value_cons. cbn [length]. rewrite Nat2Z.inj_succ, Z.pow_succ_r by lia.
    assert (0 < 10 ^ Z.of_nat (length ds)) by (apply Z.pow_pos_nonneg; lia).
    nia.
Qed.

Lemma digits_value_zeros (l : list Z) (k : nat) :
  digits_value (l ++ repeat 0 k) = digits_value l * 10 ^ Z.of_nat k.
Proof.
  unfold digits_value at 1. rewrite fold_left_app, digits_value_acc, repeat_length.
  assert (Hz : digits_value (repeat 0 k) = 0).
  { induction k as [|k IH]; [reflexivity|].
    cbn [repeat]. rewrite digits_value_cons, IH. ring. }
  rewrite Hz, Z.add_0_r. reflexivity.
Qed.

Lemma extract_int_digits (ds : list Z) (c : ascii) (r : list ascii) (v : option Z) :
  ds <> [] -> Forall (fun d => 0 <= d <= 9) ds -> digits_value ds <= int_max ->
  is_digit c = false ->
  extract_int (mkIs (digit_chars ds ++ c :: r) false false) v =
  (mkIs (c :: r) false false, Some (digits_value ds)).
Proof.
  intros Hne Hds Hmax Hc.
  destruct ds as [|d ds']; [contradiction|].
  pose proof (digits_value_bound _ Hds) as Hb.
  inversion Hds as [|? ? Hd Hds']; subst.
  destruct (digit_char_props d Hd) as (D1 & D2 & D3 & D4 & _).
  unfold extract_int, sentry_skipws, is_good. cbn [is_fail is_eof negb andb is_buf].
  cbn [map app skip_ws]. rewrite D2.
  cbn [negb is_buf].
  destruct (ascii_dec (ascii_of_nat (48 + Z.to_nat d)) "-") as [E|_]; [contradiction|].
  destruct (ascii_dec (ascii_of_nat (48 + Z.to_nat d)) "+") as [E|_]; [contradiction|].
  change (ascii_of_nat (48 + Z.to_nat d) :: digit_chars ds' ++ c :: r)
    with (digit_chars (d :: ds') ++ c :: r).
  rewrite (span_digits_chars _ _ Hds), (span_digits_stop c r Hc). cbn [fst snd].
  rewrite app_nil_r.
  replace (1 * digits_value (d :: ds')) with (digits_value (d :: ds')) by ring.
  unfold int_min.
  assert (Hle : (- 2 ^ 31 <=? digits_value (d :: ds')) && (digits_value (d :: ds') <=? int_max) = true).
  { apply andb_true_intro. split; apply Z.leb_le; [|exact Hmax]. lia. }
  rewrite Hle. reflexivity.
Qed.

Lemma extract_char_next (c : ascii) (r : list ascii) :
  is_space c = false -> extract_char (mkIs (c :: r) false false) = mkIs r false false.
Proof. intros H. unfold extract_char, sentry_skipws, is_good. cbn. rewrite H. reflexivity. Qed.

Lemma take_line_no_newline (n : nat) : forall l : list ascii,
  Forall (fun x => x <> "010"%char) l -> take_line n l = (firstn n l, skipn n l).
Proof.
  induction n as [|n IH]; intros l Hl; [reflexivity|].
  destruct l as [|x l]; [reflexivity|]. inversion Hl; subst.
  cbn [take_line]. destruct (ascii_dec x "010") as [E|_]; [contradiction|].
  rewrite IH by assumption. reflexivity.
Qed.

Lemma take_until_nul_digits (l : list Z) :
  Forall (fun d => 0 <= d <= 9) l -> take_until_nul (digit_chars l) = digit_chars l.
Proof.
  induction 1 as [|d l Hd Hl IH]; [reflexivity|].
  cbn [map take_until_nul]. destruct (digit_char_props d Hd) as (_ & _ & _ & _ & _ & N).
  destruct (ascii_dec _ "000") as [E|_]; [contradiction|]. rewrite IH. reflexivity.
Qed.

Lemma stoull_digits (l : list Z) :
  l <> [] -> Forall (fun d => 0 <= d <= 9) l -> (length l <= 19)%nat ->
  stoull (digit_chars l) = Some (digits_value l).
Proof.
  intros Hne Hl Hlen. destruct l as [|d l']; [contradiction|].
  pose proof (digits_value_bound _ Hl) as Hb.
  inversion Hl as [|? ? Hd Hl']; subst.
  destruct (digit_char_props d Hd) as (D1 & D2 & D3 & D4 & _).
  unfold stoull. cbn [map skip_ws]. rewrite D2.
  destruct (ascii_dec (ascii_of_nat (48 + Z.to_nat d)) "-") as [E|_]; [contradiction|].
  destruct (ascii_dec (ascii_of_nat (48 + Z.to_nat d)) "+") as [E|_]; [contradiction|].
  replace (ascii_of_nat (48 + Z.to_nat d) :: digit_chars l')
    with (digit_chars (d :: l') ++ []) by (rewrite app_nil_r; reflexivity).
  rewrite (span_digits_chars _ _ Hl). cbn [fst span_digits]. rewrite app_nil_r.
  assert (H64 : (2 ^ 64 <=? digits_value (d :: l')) = false).
  { apply Z.leb_gt. destruct Hb as [_ Hb].
    assert (10 ^ Z.of_nat (length (d :: l')) <= 10 ^ 19).
    { apply Z.pow_le_mono_r; lia. }
    lia. }
  rewrite H64. reflexivity.
Qed.

Lemma i64_small (z : Z) : 0 <= z < 10 ^ 18 -> i64 z = Some z.
Proof.
  intros H. unfold i64.
  assert (E : (- 2 ^ 63 <=? z) && (z <? 2 ^ 63) = true).
  { apply andb_true_intro. split; [apply Z.leb_le | apply Z.ltb_lt]; lia. }
  rewrite E. reflexivity.
Qed.

(** X7: [parseGPSTime] reads a time written ["H,M,S.F"] with decimal
    digits ([H < 24], [M < 60], [S < 60], any one non-space, non-digit
    character for each separator) as the number of picoseconds
    [((H * 60 + M) * 60 + S) * 10^12] plus the fraction: its first 12
    digits, padded on the right with zeros to 12 digits (so ["5"] is 0.5 s
    and an empty fraction is 0). *)
Theorem parseGPSTime_decimal (hs ms ss fs : list Z) (c1 c2 c3 : ascii) :
  hs <> [] -> ms <> [] -> ss <> [] ->
  Forall (fun d => 0 <= d <= 9) (hs ++ ms ++ ss ++ fs) ->
  is_digit c1 = false -> is_space c1 = false ->
  is_digit c2 = false -> is_space c2 = false ->
  is_digit c3 = false -> is_space c3 = false ->
  digits_value hs < 24 -> digits_value ms < 60 -> digits_value ss < 60 ->
  parseGPSTime (string_of_list_ascii
    (digit_chars hs ++ c1 :: digit_chars ms ++ c2 :: digit_chars ss ++ c3 :: digit_chars fs)) =
  Some (((digits_value hs * 60 + digits_value ms) * 60 + digits_value ss) * 10 ^ 12 +
        digits_value (firstn 12 fs) * 10 ^ Z.of_nat (12 - length (firstn 12 fs))).
Proof.
  intros Hh Hm Hs Hall C1 S1 C2 S2 C3 S3 Bh Bm Bs.
  apply Forall_app in Hall as [Dh Hall]. apply Forall_app in Hall as [Dm Hall].
  apply Forall_app in Hall as [Ds Df].
  pose proof (digits_value_bound _ Dh). pose proof (digits_value_bound _ Dm).
  pose proof (digits_value_bound _ Ds).
  unfold parseGPSTime. rewrite list_ascii_of_string_of_list_ascii.
  rewrite (extract_int_digits hs c1) by (try assumption; unfold int_max; lia).
  rewrite (extract_char_next c1) by exact S1.
  rewrite (extract_int_digits ms c2) by (try assumption; unfold int_max; lia).
  rewrite (extract_char_next c2) by exact S2.
  rewrite (extract_int_digits ss c3) by (try assumption; unfold int_max; lia).
  rewrite (extract_char_next c3) by exact S3.
  unfold get_chars, is_good. cbn [is_fail is_eof negb andb is_buf].
  replace (13 - 1)%nat with 12%nat by reflexivity.
  rewrite take_line_no_newline.
  2: { rewrite Forall_map. eapply Forall_impl; [|exact Df].
       intros d Hd. exact (proj1 (proj2 (proj2 (proj2 (proj2 (digit_char_props d Hd)))))). }
  rewrite firstn_map.
  set (f := firstn 12 fs).
  assert (Df' : Forall (fun d => 0 <= d <= 9) f).
  { unfold f. rewrite <- (firstn_skipn 12 fs) in Df. apply Forall_app in Df. exact (proj1 Df). }
  assert (Lf : (length f <= 12)%nat) by apply firstn_le_length.
  rewrite (take_until_nul_digits _ Df').
  unfold pad12. rewrite length_map.
  replace (repeat "0"%char (12 - length f))
    with (digit_chars (repeat 0 (12 - length f))) by (rewrite map_repeat; reflexivity).
  rewrite <- map_app.
  rewrite stoull_digits.
  2: { destruct f; cbn; [discriminate|]. discriminate. }
  2: { apply Forall_app. split; [exact Df'|]. apply Forall_forall.
       intros x Hx. apply repeat_spec in Hx. lia. }
  2: { rewrite length_app, repeat_length. lia. }
  cbn [obind].
  rewrite digits_value_zeros.
  pose proof (digits_value_bound _ Df') as Bf.
  set (Hv := digits_value hs) in *. set (Mv := digits_value ms) in *. set (Sv := digits_value ss) in *.
  set (F := digits_value f) in *.
  assert (Hp : 0 <= F * 10 ^ Z.of_nat (12 - length f) < 10 ^ 12).
  { assert (E : 10 ^ 12 = 10 ^ Z.of_nat (length f) * 10 ^ Z.of_nat (12 - length f)).
    { rewrite <- Z.pow_add_r by lia. f_equal. lia. }
    assert (0 < 10 ^ Z.of_nat (12 - length f)) by (apply Z.pow_pos_nonneg; lia).
    rewrite E. nia. }
  set (P := F * 10 ^ Z.of_nat (12 - length f)) in *.
  rewrite (i64_small (Hv * 3600)) by lia. cbn [obind].
  rewrite (i64_small (Hv * 3600 * 1000000000000)) by lia. cbn [obind].
  rewrite (i64_small (Mv * 60)) by lia. cbn [obind].
  rewrite (i64_small (Mv * 60 * 1000000000000)) by lia. cbn [obind].
  rewrite (i64_small (Sv * 1000000000000)) by lia. cbn [obind].
  rewrite (i64_small (Hv * 3600 * 1000000000000 + Mv * 60 * 1000000000000)) by lia. cbn [obind].
  rewrite (i64_small (Hv * 3600 * 1000000000000 + Mv * 60 * 1000000000000 + Sv * 1000000000000)) by lia.
  cbn [obind].
  assert (Ti : Orchestrator.to_int64 P = P).
  { unfold Orchestrator.to_int64. assert (E : (P <? 2 ^ 63) = true) by (apply Z.ltb_lt; lia).
    rewrite E. reflexivity. }
  rewrite Ti, i64_small by lia. f_equal. ring.
Qed.

Lemma parseGPSTime_decimal_witness :
  parseGPSTime "12,34,56.5"%string = Some 45296500000000000.
Proof.
  exact (parseGPSTime_decimal [1; 2] [3; 4] [5; 6] [5] ","%char ","%char "."%char
           ltac:(discriminate) ltac:(discriminate) ltac:(discriminate)
           ltac:(repeat constructor; lia) eq_refl eq_refl eq_refl eq_refl eq_refl eq_refl
           ltac:(vm_compute; reflexivity) ltac:(vm_compute; reflexivity) ltac:(vm_compute; reflexivity)).
Defined.

End GPSTimeProps.

(** ** Correlator: peak search, histograms, delay estimate and file copy *)
Section CorrelatorAuxProps.
Import Correlator CorrelatorAux.
Local Open Scope R_scope.

Lemma nth_app_last_l_R (p : list R) (x : R) (j : nat) :
  (j < length p)%nat -> nth j (p ++ [x]) 0 = nth j p 0.
Proof. intros H. apply app_nth1. exact H. Qed.

Lemma nth_app_last_r_R (p : list R) (x : R) : nth (length p) (p ++ [x]) 0 = x.
Proof. rewrite app_nth2 by lia. rewrite Nat.sub_diag. reflexivity. Qed.

Lemma length_app_last_R (p : list R) (x : R) : length (p ++ [x]) = S (length p).
Proof. rewrite length_app. cbn. lia. Qed.

Lemma rmax_loop_spec (rest : list R) : forall (p : list R) (m : Vmax),
  (match kmax m with Some k => k | None => 0 end < length p)%nat ->
  nth (match kmax m with Some k => k | None => 0 end) p 0 = vmax m ->
  (forall j, (j < length p)%nat -> nth j p 0 <= vmax m) ->
  (forall j, (j < match kmax m with Some k => k | None => 0 end)%nat -> nth j p 0 < vmax m) ->
  kmax m <> Some 0%nat ->
  let m' := rmax_loop rest (length p) m in
  (match kmax m' with Some k => k | None => 0 end < length (p ++ rest))%nat /\
  nth (match kmax m' with Some k => k | None => 0 end) (p ++ rest) 0 = vmax m' /\
  (forall j, (j < length (p ++ rest))%nat -> nth j (p ++ rest) 0 <= vmax m') /\
  (forall j, (j < match kmax m' with Some k => k | None => 0 end)%nat ->
     nth j (p ++ rest) 0 < vmax m') /\
  kmax m' <> Some 0%nat.
Proof.
  induction rest as [|x rest IH]; intros p m Hi Hv Hle Hlt H0; cbn zeta.
  - cbn [rmax_loop]. rewrite app_nil_r. repeat split; assumption.
  - cbn [rmax_loop]. replace (p ++ x :: rest) with ((p ++ [x]) ++ rest) by (rewrite <- app_assoc; reflexivity).
    rewrite <- (length_app_last_R p x).
    destruct (Rlt_dec (vmax m) x) as [Hx|Hx]; apply IH; cbn [kmax vmax].
    + rewrite length_app_last_R. lia.
    + apply nth_app_last_r_R.
    + intros j Hj. rewrite length_app_last_R in Hj.
      destruct (Nat.eq_dec j (length p)) as [->|Hne].
      * rewrite nth_app_last_r_R. lra.
      * rewrite nth_app_last_l_R by lia. specialize (Hle j ltac:(lia)). lra.
    + intros j Hj. rewrite nth_app_last_l_R by lia. specialize (Hle j Hj). lra.
    + intros E. injection E as E. lia.
    + rewrite length_app_last_R. lia.
    + rewrite nth_app_last_l_R by lia. exact Hv.
    + intros j Hj. rewrite length_app_last_R in Hj.
      destruct (Nat.eq_dec j (length p)) as [->|Hne].
      * rewrite nth_app_last_r_R. lra.
      * rewrite nth_app_last_l_R by lia. apply Hle. lia.
    + intros j Hj. rewrite nth_app_last_l_R by lia. apply Hlt. exact Hj.
    + exact H0.
Qed.

(** X8: [rmax] on a non-empty array finds its first maximum: [max] is the
    largest element, every earlier element is strictly smaller, and [kmax]
    holds its index, except when the first maximum is [v[0]], where [kmax]
    is never written (it is never set to 0). *)
Theorem rmax_first_max (v : list R) :
  v <> [] ->
  (forall j, (j < length v)%nat -> nth j v 0 <= vmax (rmax v)) /\
  match kmax (rmax v) with
  | Some k => (0 < k < length v)%nat /\ nth k v 0 = vmax (rmax v) /\
              (forall j, (j < k)%nat -> nth j v 0 < vmax (rmax v))
  | None => nth 0 v 0 = vmax (rmax v)
  end.
Proof.
  intros Hne. destruct v as [|x rest]; [contradiction|]. unfold rmax.
  destruct (rmax_loop_spec rest [x] (mkVmax x None)) as (Hi & Hv & Hle & Hlt & H0);
    cbn [kmax vmax length nth].
  - lia.
  - reflexivity.
  - intros j Hj. destruct j; [lra | lia].
  - intros j Hj. lia.
  - discriminate.
  - cbn [length app] in *. split; [exact Hle|].
    destruct (kmax (rmax_loop rest 1 (mkVmax x None))) as [k|] eqn:Ek.
    + split; [|split; [exact Hv | exact Hlt]]. split; [|exact Hi].
      destruct k; [contradiction|lia].
    + exact Hv.
Qed.

Lemma rmax_first_max_witness :
  kmax (rmax [1; 3; 2; 3]) = Some 1%nat /\ vmax (rmax [1; 3; 2; 3]) = 3 /\
  nth 1 [1; 3; 2; 3] 0 = vmax (rmax [1; 3; 2; 3]).
Proof.
  assert (E : rmax [1; 3; 2; 3] = mkVmax 3 (Some 1%nat)).
  { unfold rmax. cbn [rmax_loop].
    repeat (cbn [vmax kmax]; match goal with |- context [Rlt_dec ?a ?b] =>
      lazymatch constr:((a, b)) with context [Rlt_dec] => fail | _ =>
      destruct (Rlt_dec a b); [try (exfalso; lra) | try (exfalso; lra)] end end).
    reflexivity. }
  split; [rewrite E; reflexivity|]. split; [rewrite E; reflexivity|].
  pose proof (rmax_first_max [1; 3; 2; 3] ltac:(discriminate)) as [_ H].
  rewrite E in H |- *. exact (proj1 (proj2 H)).
Defined.

Lemma rmin_loop_spec (rest : list R) : forall (p : list R) (m : Vmin),
  (match kmin m with Some k => k | None => 0 end < length p)%nat ->
  nth (match kmin m with Some k => k | None => 0 end) p 0 = vmin m ->
  (forall j, (j < length p)%nat -> vmin m <= nth j p 0) ->
  (forall j, (j < match kmin m with Some k => k | None => 0 end)%nat -> vmin m < nth j p 0) ->
  kmin m <> Some 0%nat ->
  let m' := rmin_loop rest (length p) m in
  (match kmin m' with Some k => k | None => 0 end < length (p ++ rest))%nat /\
  nth (match kmin m' with Some k => k | None => 0 end) (p ++ rest) 0 = vmin m' /\
  (forall j, (j < length (p ++ rest))%nat -> vmin m' <= nth j (p ++ rest) 0) /\
  (forall j, (j < match kmin m' with Some k => k | None => 0 end)%nat ->
     vmin m' < nth j (p ++ rest) 0) /\
  kmin m' <> Some 0%nat.
Proof.
  induction rest as [|x rest IH]; intros p m Hi Hv Hle Hlt H0; cbn zeta.
  - cbn [rmin_loop]. rewrite app_nil_r. repeat split; assumption.
  - cbn [rmin_loop]. replace (p ++ x :: rest) with ((p ++ [x]) ++ rest) by (rewrite <- app_assoc; reflexivity).
    rewrite <- (length_app_last_R p x).
    destruct (Rlt_dec x (vmin m)) as [Hx|Hx]; apply IH; cbn [kmin vmin].
    + rewrite length_app_last_R. lia.
    + apply nth_app_last_r_R.
    + intros j Hj. rewrite length_app_last_R in Hj.
      destruct (Nat.eq_dec j (length p)) as [->|Hne].
      * rewrite nth_app_last_r_R. lra.
      * rewrite nth_app_last_l_R by lia. specialize (Hle j ltac:(lia)). lra.
    + intros j Hj. rewrite nth_app_last_l_R by lia. specialize (Hle j Hj). lra.
    + intros E. injection E as E. lia.
    + rewrite length_app_last_R. lia.
    + rewrite nth_app_last_l_R by lia. exact Hv.
    + intros j Hj. rewrite length_app_last_R in Hj.
      destruct (Nat.eq_dec j (length p)) as [->|Hne].
      * rewrite nth_app_last_r_R. lra.
      * rewrite nth_app_last_l_R by lia. apply Hle. lia.
    + intros j Hj. rewrite nth_app_last_l_R by lia. apply Hlt. exact Hj.
    + exact H0.
Qed.

(** X9: [rmin] on a non-empty array finds its first minimum: [min] is the
    smallest element, every earlier element is strictly larger, and [kmin]
    holds its index, except when the first minimum is [v[0]], where [kmin]
    is never written. *)
Theorem rmin_first_min (v : list R) :
  v <> [] ->
  (forall j, (j < length v)%nat -> vmin (rmin v) <= nth j v 0) /\
  match kmin (rmin v) with
  | Some k => (0 < k < length v)%nat /\ nth k v 0 = vmin (rmin v) /\
              (forall j, (j < k)%nat -> vmin (rmin v) < nth j v 0)
  | None => nth 0 v 0 = vmin (rmin v)
  end.
Proof.
  intros Hne. destruct v as [|x rest]; [contradiction|]. unfold rmin.
  destruct (rmin_loop_spec rest [x] (mkVmin x None)) as (Hi & Hv & Hle & Hlt & H0);
    cbn [kmin vmin length nth].
  - lia.
  - reflexivity.
  - intros j Hj. destruct j; [lra | lia].
  - intros j Hj. lia.
  - discriminate.
  - cbn [length app] in *. split; [exact Hle|].
    destruct (kmin (rmin_loop rest 1 (mkVmin x None))) as [k|] eqn:Ek.
    + split; [|split; [exact Hv | exact Hlt]]. split; [|exact Hi].
      destruct k; [contradiction|lia].
    + exact Hv.
Qed.

Lemma rmin_first_min_witness :
  kmin (rmin [3; 1; 2; 1]) = Some 1%nat /\
  nth 1 [3; 1; 2; 1] 0 = vmin (rmin [3; 1; 2; 1]).
Proof.
  assert (E : rmin [3; 1; 2; 1] = mkVmin 1 (Some 1%nat)).
  { unfold rmin. cbn [rmin_loop].
    repeat (cbn [vmin kmin]; match goal with |- context [Rlt_dec ?a ?b] =>
      lazymatch constr:((a, b)) with context [Rlt_dec] => fail | _ =>
      destruct (Rlt_dec a b); [try (exfalso; lra) | try (exfalso; lra)] end end).
    reflexivity. }
  split; [rewrite E; reflexivity|].
  pose proof (rmin_first_min [3; 1; 2; 1] ltac:(discriminate)) as [_ H].
  rewrite E in H |- *. exact (proj1 (proj2 H)).
Defined.

End CorrelatorAuxProps.

Section HistogramProps.
Import CorrelatorAux.
Local Open Scope R_scope.

Lemma fold_add_acc (l : list nat) : forall acc,
  fold_left Nat.add l acc = (acc + fold_left Nat.add l 0)%nat.
Proof.
  induction l as [|x l IH]; intros acc; simpl; [lia|].
  rewrite IH, (IH x). lia.
Qed.

Lemma fold_add_In (l : list nat) (h : nat) :
  In h l -> (h <= fold_left Nat.add l 0)%nat.
Proof.
  induction l as [|x l IH]; simpl; intros Hin; [contradiction|].
  rewrite fold_add_acc. destruct Hin as [<-|Hin]; [lia|]. apply IH in Hin. lia.
Qed.

(** While the running total stays within 2^53, the rounded sum of the
    rounded counts is the exact total. *)
Lemma fold_rnd_exact (rnd : R -> R) :
  (forall n, (Z.of_nat n <= 2 ^ 53)%Z -> rnd (INR n) = INR n) ->
  forall (l : list nat) (acc : nat),
  (Z.of_nat (fold_left Nat.add l acc) <= 2 ^ 53)%Z ->
  fold_left (fun area h => rnd (area + rnd (INR h))) l (INR acc)
  = INR (fold_left Nat.add l acc).
Proof.
  intros Hex l. induction l as [|x l IH]; intros acc Hsum; [reflexivity|].
  cbn [fold_left] in Hsum |- *.
  rewrite fold_add_acc in Hsum.
  rewrite (Hex x) by lia. rewrite <- plus_INR, (Hex (acc + x)%nat) by lia.
  apply IH. rewrite fold_add_acc. lia.
Qed.

(** X10: with [rnd] the rounding of the [double] format (monotone, and
    exact on the integers up to 2^53), when one of the first [Nbin]
    counts is non-zero and their total [T] is at most 2^53, [hist_norm]
    writes [Nbin] values, the [k]-th being [hin[k] / T] rounded once, and
    each in [0, 1]. *)
Theorem hist_norm_distribution (rnd : R -> R) (hin : list nat) (Nbin : nat) :
  (forall x y, x <= y -> rnd x <= rnd y) ->
  (forall n, (Z.of_nat n <= 2 ^ 53)%Z -> rnd (INR n) = INR n) ->
  (Nbin <= length hin)%nat ->
  (Z.of_nat (fold_left Nat.add (firstn Nbin hin) 0%nat) <= 2 ^ 53)%Z ->
  (exists k, (k < Nbin)%nat /\ nth k hin 0%nat <> 0%nat) ->
  length (hist_norm rnd hin Nbin) = Nbin /\
  (forall k, (k < Nbin)%nat ->
     nth k (hist_norm rnd hin Nbin) 0
     = rnd (INR (nth k hin 0%nat) / INR (fold_left Nat.add (firstn Nbin hin) 0%nat)) /\
     0 <= nth k (hist_norm rnd hin Nbin) 0 <= 1).
Proof.
  intros Hmono Hex Hlen Hsum [k0 [Hk0 Hnz]]. unfold hist_norm.
  set (l := firstn Nbin hin) in *.
  assert (Ll : length l = Nbin) by (unfold l; rewrite length_firstn; lia).
  assert (Hnth : forall k, (k < Nbin)%nat -> nth k l 0%nat = nth k hin 0%nat).
  { intros k Hk. unfold l. rewrite <- (firstn_skipn Nbin hin) at 2.
    rewrite app_nth1 by (rewrite length_firstn; lia). reflexivity. }
  set (T := fold_left Nat.add l 0%nat) in *.
  assert (Harea : fold_left (fun area h => rnd (area + rnd (INR h))) l 0 = INR T)
    by exact (fold_rnd_exact rnd Hex l 0%nat Hsum).
  rewrite Harea.
  assert (HT : (0 < T)%nat).
  { assert (Hin : In (nth k0 hin 0%nat) l) by (rewrite <- Hnth by exact Hk0; apply nth_In; lia).
    apply fold_add_In in Hin. fold T in Hin. lia. }
  apply lt_0_INR in HT.
  split; [rewrite length_map; exact Ll|].
  intros k Hk.
  assert (E : nth k (map (fun h => rnd (rnd (INR h) / INR T)) l) 0
              = rnd (rnd (INR (nth k l 0%nat)) / INR T)).
  { rewrite (nth_indep (map (fun h => rnd (rnd (INR h) / INR T)) l) 0
               (rnd (rnd (INR 0) / INR T))) by (rewrite length_map; lia).
    exact (map_nth (fun h => rnd (rnd (INR h) / INR T)) l 0%nat k). }
  rewrite E.
  assert (Hin : In (nth k l 0%nat) l) by (apply nth_In; lia).
  apply fold_add_In in Hin. fold T in Hin.
  assert (Hh : (Z.of_nat (nth k l 0%nat) <= 2 ^ 53)%Z) by lia.
  rewrite (Hex _ Hh), (Hnth k Hk). split; [reflexivity|].
  rewrite (Hnth k Hk) in Hin.
  apply le_INR in Hin. pose proof (pos_INR (nth k hin 0%nat)).
  assert (H0 : rnd 0 = 0) by exact (Hex 0%nat ltac:(lia)).
  assert (H1 : rnd 1 = 1) by exact (Hex 1%nat ltac:(lia)).
  split.
  - apply Rle_trans with (rnd 0); [right; symmetry; exact H0 | apply Hmono].
    unfold Rdiv. apply Rmult_le_pos; [lra | left; apply Rinv_0_lt_compat; lra].
  - apply Rle_trans with (rnd 1); [apply Hmono | right; exact H1].
    apply Rmult_le_reg_r with (INR T); [exact HT|]. unfold Rdiv.
    rewrite Rmult_assoc, Rinv_l by lra. lra.
Qed.

Lemma hist_norm_distribution_witness :
  length (hist_norm (fun x => x) [1%nat; 3%nat; 0%nat] 3) = 3%nat /\
  (forall k, (k < 3)%nat ->
     nth k (hist_norm (fun x => x) [1%nat; 3%nat; 0%nat] 3) 0
     = INR (nth k [1%nat; 3%nat; 0%nat] 0%nat)
       / INR (fold_left Nat.add (firstn 3 [1%nat; 3%nat; 0%nat]) 0%nat) /\
     0 <= nth k (hist_norm (fun x => x) [1%nat; 3%nat; 0%nat] 3) 0 <= 1).
Proof.
  apply (hist_norm_distribution (fun x => x) [1%nat; 3%nat; 0%nat] 3).
  - intros x y H. exact H.
  - intros n _. reflexivity.
  - cbn. lia.
  - cbn. lia.
  - exists 0%nat. split; [lia | discriminate].
Defined.

Lemma dT_loop_bound (rest : list Z) : forall (prev : Z) (dt : R),
  dt <= dT_loop prev rest dt /\
  (rest <> [] -> dT_loop prev rest dt < dt + INR (length rest) * IZR 50000000).
Proof.
  induction rest as [|x r IH]; intros prev dt; cbn [dT_loop].
  - split; [lra | intros H; contradiction].
  - set (d := ((x - prev) mod 2 ^ 64)%Z).
    assert (Hd : (0 <= d)%Z) by (apply Z.mod_pos_bound; lia).
    apply IZR_le in Hd.
    set (dt' := if Rlt_dec (IZR d) (IZR 50000000) then dt + IZR d else dt).
    assert (H1 : dt <= dt' < dt + IZR 50000000).
    { unfold dt'. destruct (Rlt_dec (IZR d) (IZR 50000000)); lra. }
    destruct (IH x dt') as [L U]. split; [lra|].
    intros _. cbn [length]. rewrite S_INR.
    destruct r as [|y r].
    + cbn [dT_loop length INR]. lra.
    + specialize (U ltac:(discriminate)). lra.
Qed.

(** X11: for [2 <= N <= length v] (and [N - 1] a [size_t]), [dTmean]
    lies in [[0, 5e7)]: it is the sum of the differences below [5e7]
    divided by the [N - 1] differences. *)
Theorem dTmean_range (v : list Z) (N : nat) :
  (2 <= N)%nat -> (N <= length v)%nat -> (Z.of_nat N <= 2 ^ 64)%Z ->
  0 <= dTmean v N < IZR 50000000.
Proof.
  intros H2 HN H64. unfold dTmean, Spectral.size_t_pred_R.
  rewrite Z.mod_small by lia.
  assert (Lf : length (firstn N v) = N) by (rewrite length_firstn; lia).
  destruct (firstn N v) as [|x r] eqn:Ef; [cbn in Lf; lia|].
  cbn [length] in Lf.
  assert (Hr : r <> []) by (destruct r; [cbn in Lf; lia | discriminate]).
  destruct (dT_loop_bound r x 0) as [L U]. specialize (U Hr).
  replace (Z.of_nat N - 1)%Z with (Z.of_nat (length r)) by lia.
  rewrite <- INR_IZR_INZ.
  assert (Hpos : 0 < INR (length r)) by (apply lt_0_INR; lia).
  split.
  - unfold Rdiv. apply Rmult_le_pos; [lra | left; apply Rinv_0_lt_compat; lra].
  - apply Rmult_lt_reg_r with (INR (length r)); [exact Hpos|]. unfold Rdiv.
    rewrite Rmult_assoc, Rinv_l by lra. lra.
Qed.

Lemma dTmean_range_witness :
  0 <= dTmean [0%Z; 100%Z; 60000000%Z; 60000300%Z] 4 < IZR 50000000.
Proof. apply dTmean_range; cbn; lia. Defined.

Lemma hist_loop_spec (Nbin Tbin : nat) (rest : list Z) : forall (prev : Z) (h : list nat),
  length h = Nbin ->
  length (hist_loop prev rest h Nbin Tbin) = Nbin /\
  forall b, (b < Nbin)%nat ->
    nth b (hist_loop prev rest h Nbin Tbin) 0%nat =
    (nth b h 0 + length (filter (fun g => Z.to_nat (g / Z.of_nat Tbin) =? b) (diffs (prev :: rest))))%nat.
Proof.
  induction rest as [|x r IH]; intros prev h Hh; cbn [hist_loop].
  - split; [exact Hh|]. intros b Hb. cbn. lia.
  - set (bk := Z.to_nat (((x - prev) mod 2 ^ 64) / Z.of_nat Tbin)).
    set (h1 := if (bk <? Nbin)%nat then Orchestrator.incr_at bk h else h).
    assert (Hh1 : length h1 = Nbin).
    { unfold h1. destruct (bk <? Nbin)%nat; [rewrite length_incr_at|]; exact Hh. }
    destruct (IH x h1 Hh1) as [L N]. split; [exact L|].
    intros b Hb. rewrite (N b Hb).
    assert (Ed : diffs (prev :: x :: r) = ((x - prev) mod 2 ^ 64)%Z :: diffs (x :: r)) by reflexivity.
    rewrite Ed. cbn [filter]. fold bk.
    unfold h1. destruct (Nat.ltb_spec bk Nbin) as [Hlt|Hge].
    + rewrite nth_incr_at by lia.
      destruct (bk =? b)%nat; cbn [length]; lia.
    + destruct (Nat.eqb_spec bk b) as [E|E]; [lia|]. lia.
Qed.

(** X12: with [Tbin > 0] and [h] of [Nbin] counters, [histogram] adds to
    each [h[b]] the number of consecutive differences
    [v[k] - v[k - 1]] ([k < N], modulo 2^64) whose quotient by [Tbin] is
    [b]; a difference whose quotient is [Nbin] or more is dropped. *)
Theorem histogram_counts (v : list Z) (N : nat) (h : list nat) (Nbin Tbin : nat) :
  Tbin <> 0%nat -> length h = Nbin ->
  exists h', histogram v N h Nbin Tbin = Some h' /\ length h' = Nbin /\
    forall b, (b < Nbin)%nat ->
      nth b h' 0%nat =
      (nth b h 0 + length (filter (fun g => Z.to_nat (g / Z.of_nat Tbin) =? b) (diffs (firstn N v))))%nat.
Proof.
  intros HT Hh. unfold histogram.
  destruct (firstn N v) as [|x [|y r]].
  - exists h. split; [reflexivity|]. split; [exact Hh|]. intros b _. cbn. lia.
  - exists h. split; [reflexivity|]. split; [exact Hh|]. intros b _. cbn. lia.
  - destruct (Nat.eqb_spec Tbin 0) as [E|_]; [contradiction|].
    exists (hist_loop x (y :: r) h Nbin Tbin). split; [reflexivity|].
    exact (hist_loop_spec Nbin Tbin (y :: r) x h Hh).
Qed.

Lemma histogram_counts_witness :
  exists h', histogram [0%Z; 5%Z; 7%Z; 30%Z] 4 [0%nat; 0%nat; 0%nat] 3 3 = Some h' /\
    length h' = 3%nat.
Proof.
  destruct (histogram_counts [0%Z; 5%Z; 7%Z; 30%Z] 4 [0%nat; 0%nat; 0%nat] 3 3
              ltac:(discriminate) eq_refl) as [h' [E [L _]]].
  exists h'. split; [exact E | exact L].
Defined.

Lemma copy_loop_all (cs : nat) (delay : Z) (tail : nat) (fuel : nat) : forall ws,
  cs <> 0%nat -> (tail < 8)%nat -> (length ws < fuel)%nat ->
  copy_loop fuel cs delay ws tail = map (fun w => ((w + delay) mod 2 ^ 64)%Z) ws.
Proof.
  induction fuel as [|f IH]; intros ws Hcs Ht Hf; [lia|]. cbn [copy_loop].
  destruct (Nat.leb_spec (cs * 8) (length ws * 8 + tail)) as [Hfull|Hshort].
  - rewrite IH by (try rewrite length_skipn; lia).
    rewrite <- map_app, firstn_skipn. reflexivity.
  - destruct (Nat.eqb_spec (length ws * 8 + tail) 0) as [E|E].
    + destruct ws; [reflexivity | cbn in E; lia].
    + replace ((length ws * 8 + tail) / 8)%nat with (length ws).
      * rewrite firstn_all. reflexivity.
      * rewrite Nat.div_add_l by lia. rewrite Nat.div_small by lia. lia.
Qed.

(** X13: when the output opens and [chunk_size > 0], [copyFiles] writes,
    for each input that opens and in their order, every whole 8-byte word
    of the input plus [delay] (modulo 2^64), whatever the chunk size; the
    bytes of a trailing partial word are dropped, and inputs that do not
    open are skipped. *)
Theorem copyFiles_words (inputs : list (option InFile)) (chunk_size : nat) (delay : Z) :
  chunk_size <> 0%nat ->
  Forall (fun o => match o with Some f => (in_tail f < 8)%nat | None => True end) inputs ->
  copyFiles true inputs chunk_size delay =
  CopyWrote (flat_map (fun o => match o with
                                | Some f => map (fun w => ((w + delay) mod 2 ^ 64)%Z) (in_words f)
                                | None => []
                                end) inputs).
Proof.
  intros Hcs Hall. unfold copyFiles. cbn [negb].
  destruct (Nat.eqb_spec chunk_size 0) as [E|_]; [contradiction|].
  f_equal. induction Hall as [|o os Ho Hos IH]; [reflexivity|].
  cbn [flat_map]. rewrite IH. f_equal.
  destruct o as [f|]; [|reflexivity].
  apply copy_loop_all; [exact Hcs | exact Ho | lia].
Qed.

Lemma copyFiles_words_witness :
  copyFiles true [Some (mkInFile [1%Z; 2%Z; 3%Z] 5); None; Some (mkInFile [7%Z] 0)] 2 10 =
  CopyWrote [11%Z; 12%Z; 13%Z; 17%Z].
Proof.
  exact (copyFiles_words [Some (mkInFile [1%Z; 2%Z; 3%Z] 5); None; Some (mkInFile [7%Z] 0)] 2 10
    ltac:(discriminate) ltac:(repeat constructor; cbn; lia)).
Defined.

End HistogramProps.


(** ** Orchestrator: the data files, the coincidence list and the histogram *)
Section DataProps.
Import Orchestrator.

Local Notation selected condition entries :=
  (flat_map (fun e => match e with
                      | Entry name regular => if regular && contains name condition then [name] else []
                      | EntryFails => []
                      end) entries).

Lemma collect_loop_ok (condition : String.string) (pre : list dir_entry) :
  Forall (fun e => e <> EntryFails) pre -> forall files,
  collect_loop condition pre files = inr (files ++ selected condition pre).
Proof.
  induction 1 as [|e pre He Hpre IH]; intros files.
  - cbn. rewrite app_nil_r. reflexivity.
  - destruct e as [name regular|]; [|contradiction].
    cbn [collect_loop flat_map]. destruct (regular && contains name condition).
    + rewrite IH, <- app_assoc. reflexivity.
    + rewrite IH. reflexivity.
Qed.

Lemma collect_loop_fails (condition : String.string) (pre : list dir_entry) (r : list dir_entry) :
  Forall (fun e => e <> EntryFails) pre -> forall files,
  collect_loop condition (pre ++ EntryFails :: r) files =
  inl (files ++ selected condition pre, FilesystemError).
Proof.
  induction 1 as [|e pre He Hpre IH]; intros files.
  - cbn. rewrite app_nil_r. reflexivity.
  - destruct e as [name regular|]; [|contradiction].
    cbn [app collect_loop flat_map]. destruct (regular && contains name condition).
    + rewrite IH, <- app_assoc. reflexivity.
    + rewrite IH. reflexivity.
Qed.

(** X14: [collectDataFiles] returns, in directory order, the names of the
    regular files whose name contains [condition], among the entries before
    the first entry whose query throws; the entries from that one on are
    silently ignored (the files found so far are kept). *)
Theorem collectDataFiles_prefix (condition : String.string) (pre rest : list dir_entry) :
  Forall (fun e => e <> EntryFails) pre ->
  (rest = [] \/ exists r, rest = EntryFails :: r) ->
  collectDataFiles (Folder (pre ++ rest)) condition = selected condition pre.
Proof.
  intros Hpre [->|[r ->]]; unfold collectDataFiles.
  - rewrite app_nil_r, (collect_loop_ok condition pre Hpre []). reflexivity.
  - rewrite (collect_loop_fails condition pre r Hpre []). reflexivity.
Qed.

Lemma collectDataFiles_prefix_witness :
  collectDataFiles (Folder [Entry "bme_1.bin" true; Entry "wigner_1.bin" true;
                            Entry "bme_dir" false; EntryFails; Entry "bme_2.bin" true]) "bme" =
  ["bme_1.bin"]%string.
Proof.
  exact (collectDataFiles_prefix "bme" [Entry "bme_1.bin" true; Entry "wigner_1.bin" true;
           Entry "bme_dir" false] [EntryFails; Entry "bme_2.bin" true]
           ltac:(repeat constructor; discriminate) (or_intror (ex_intro _ _ eq_refl))).
Defined.

Lemma StronglySorted_suffix (pre l : list Z) :
  StronglySorted Z.le (pre ++ l) -> StronglySorted Z.le l.
Proof.
  induction pre as [|a pre IH]; intros H; [exact H|].
  apply StronglySorted_inv in H. apply IH, H.
Qed.

Lemma match_clients_lower (offset tol : Z) (clients rest : list Z) (lo_c lo_s : Z) :
  Forall (fun c => lo_c <= c)%Z clients -> Forall (fun s => lo_s <= s)%Z rest ->
  Forall (fun y => Z.quot (lo_c + offset + lo_s) 2 <= y)%Z (match_clients offset tol clients rest).
Proof.
  intros Hc Hs. apply Forall_forall. intros y Hy.
  destruct (match_clients_sound offset tol clients rest y Hy) as [c [s [Hic [His [-> _]]]]].
  rewrite Forall_forall in Hc, Hs. specialize (Hc c Hic). specialize (Hs s His).
  apply Z.quot_le_mono; lia.
Qed.

Lemma match_clients_sorted (offset tol : Z) (clients : list Z) :
  StronglySorted Z.le clients -> forall rest, StronglySorted Z.le rest ->
  StronglySorted Z.le (match_clients offset tol clients rest).
Proof.
  induction 1 as [|c cs Hcs IH Hc]; intros rest Hrest; [constructor|].
  cbn [match_clients].
  destruct (skip_early_suffix (c + offset - tol) rest) as [pre [Hpre _]].
  assert (Hr' : StronglySorted Z.le (skip_early (c + offset - tol) rest)).
  { apply (StronglySorted_suffix pre). rewrite <- Hpre. exact Hrest. }
  destruct (skip_early (c + offset - tol) rest) as [|s r] eqn:Hsk; [apply IH; exact Hr'|].
  destruct (Z.abs (s - (c + offset)) <=? tol)%Z; [|apply IH; exact Hr'].
  constructor; [apply IH; exact Hr'|].
  apply (match_clients_lower offset tol cs (s :: r) c s).
  - eapply Forall_impl; [|exact Hc]. intros a H. exact H.
  - constructor; [lia|]. apply StronglySorted_inv in Hr'. exact (proj2 Hr').
Qed.

(** X15: when both timestamp lists are in non-decreasing order (as the
    station files record them), the coincidence list of
    [findCoincidences] is in non-decreasing order too. *)
Theorem findCoincidences_sorted (offset : Z) (clientTimestamps serverTimestamps : list Z)
  (tolerancePico : Z) :
  Sorted Z.le clientTimestamps -> Sorted Z.le serverTimestamps ->
  Sorted Z.le (findCoincidences offset clientTimestamps serverTimestamps tolerancePico).
Proof.
  intros Hc Hs. apply StronglySorted_Sorted.
  apply Sorted_StronglySorted in Hc; [|exact Z.le_trans].
  apply Sorted_StronglySorted in Hs; [|exact Z.le_trans].
  unfold findCoincidences.
  destruct clientTimestamps as [|c cs]; [constructor|].
  destruct serverTimestamps as [|s ss]; [constructor|].
  apply match_clients_sorted; assumption.
Qed.

Lemma findCoincidences_sorted_witness :
  Sorted Z.le (findCoincidences 0 [100%Z; 200%Z; 300%Z] [105%Z; 190%Z; 290%Z; 400%Z] 20).
Proof.
  apply findCoincidences_sorted; repeat constructor; cbn; lia.
Defined.

Lemma list_sum_incr_at (i : nat) (l : list nat) :
  (i < length l)%nat -> list_sum (incr_at i l) = S (list_sum l).
Proof.
  revert i; induction l as [|x l IH]; intros [|i] Hi; cbn [length] in Hi; try lia.
  - reflexivity.
  - change (x + list_sum (incr_at i l) = S (x + list_sum l))%nat. rewrite IH by lia. lia.
Qed.

Local Notation hist_ok st :=
  (length (coincidenceBins st) = numAngleBins st /\
   list_sum (coincidenceBins st) = totalCoincidences st).

Lemma bin_one_ok (sp : Q) (st : OrchState) (t : Z) :
  hist_ok st -> hist_ok (bin_one sp st t) /\ numAngleBins (bin_one sp st t) = numAngleBins st.
Proof.
  intros [Hl Hs]. unfold bin_one.
  destruct (bin_index st sp t) as [b|]; [|split; [split; assumption | reflexivity]].
  destruct (Nat.ltb_spec b (numAngleBins st)) as [Hb|_]; [|split; [split; assumption | reflexivity]].
  unfold set_bins. cbn [coincidenceBins totalCoincidences numAngleBins].
  rewrite length_incr_at, list_sum_incr_at by lia. split; [split; lia | reflexivity].
Qed.

Lemma binCoincidencesByAngle_ok (sp : Q) (ts : list Z) : forall st,
  hist_ok st -> hist_ok (binCoincidencesByAngle st ts sp) /\
  numAngleBins (binCoincidencesByAngle st ts sp) = numAngleBins st.
Proof.
  unfold binCoincidencesByAngle.
  induction ts as [|t ts IH]; intros st H; cbn [fold_left]; [split; [exact H | reflexivity]|].
  destruct (bin_one_ok sp st t H) as [H1 N1]. destruct (IH _ H1) as [H2 N2].
  split; [exact H2 | rewrite N2; exact N1].
Qed.

Lemma analyze_pairs_ok (contents : String.string -> option (list (Z * Z)))
  (pairs : list (String.string * String.string)) : forall st,
  hist_ok st -> hist_ok (analyze_pairs contents pairs st) /\
  numAngleBins (analyze_pairs contents pairs st) = numAngleBins st.
Proof.
  induction pairs as [|[cf sf] pairs IH]; intros st H; cbn [analyze_pairs]; [split; [exact H | reflexivity]|].
  edestruct binCoincidencesByAngle_ok as [H1 N1]; [exact H|].
  destruct (IH _ H1) as [H2 N2]. split; [exact H2 | rewrite N2; exact N1].
Qed.

Lemma computeVisibility_unit (bins : list nat) (total : nat) :
  0 <= computeVisibility bins total <= 1.
Proof.
  unfold computeVisibility.
  destruct bins as [|b rest]; [split; discriminate|].
  destruct (total =? 0)%nat; [split; discriminate|].
  destruct (fold_min_lower rest b) as [L _]. destruct (fold_max_upper rest b) as [U _].
  pose proof (inject_nat_le _ _ (Nat.le_trans _ _ _ L U)) as Hmm.
  pose proof (inject_nat_nonneg (fold_left Nat.min rest b)) as H0.
  set (cmin := inject_Z (Z.of_nat (fold_left Nat.min rest b))) in *.
  set (cmax := inject_Z (Z.of_nat (fold_left Nat.max rest b))) in *.
  destruct (Qeq_bool (cmax + cmin) 0) eqn:E; [split; discriminate|].
  assert (Hpos : 0 < cmax + cmin).
  { destruct (Qlt_le_dec 0 (cmax + cmin)) as [H|H]; [exact H|].
    exfalso. assert (Heq : cmax + cmin == 0) by Lqa.lra.
    apply Qeq_bool_iff in Heq. rewrite Heq in E. discriminate. }
  split.
  - apply Qle_shift_div_l; [exact Hpos|]. rewrite Qmult_0_l. Lqa.lra.
  - apply Qle_shift_div_r; [exact Hpos|]. rewrite Qmult_1_l. Lqa.lra.
Qed.

(** X16: when the histogram has [numAngleBins] bins (as the constructor
    builds it), [analyzeCoincidences] keeps that length, leaves
    [totalCoincidences] equal to the sum of the bins, and sets
    [currentVisibility] to a value in [0, 1]. *)
Theorem analyzeCoincidences_histogram_total (folder : data_folder)
  (contents : String.string -> option (list (Z * Z))) (st : OrchState) :
  length (coincidenceBins st) = numAngleBins st ->
  length (coincidenceBins (analyzeCoincidences folder contents st)) = numAngleBins st /\
  list_sum (coincidenceBins (analyzeCoincidences folder contents st)) =
    totalCoincidences (analyzeCoincidences folder contents st) /\
  0 <= currentVisibility (analyzeCoincidences folder contents st) <= 1.
Proof.
  intros Hl. unfold analyzeCoincidences.
  set (st0 := set_bins st (repeat 0%nat (length (coincidenceBins st))) 0).
  assert (H0 : hist_ok st0 /\ numAngleBins st0 = numAngleBins st).
  { unfold st0, set_bins. cbn [coincidenceBins totalCoincidences numAngleBins].
    rewrite repeat_length. split; [split; [exact Hl|] | reflexivity].
    clear. induction (length (coincidenceBins st)) as [|n IH]; [reflexivity|]. exact IH. }
  destruct H0 as [[L0 S0] N0].
  destruct (collectDataFiles folder "bme") as [|c cs];
    [|destruct (collectDataFiles folder "wigner") as [|s ss]].
  - unfold set_visibility. cbn [coincidenceBins totalCoincidences currentVisibility].
    split; [rewrite L0; exact N0|]. split; [exact S0|]. split; discriminate.
  - unfold set_visibility. cbn [coincidenceBins totalCoincidences currentVisibility].
    split; [rewrite L0; exact N0|]. split; [exact S0|]. split; discriminate.
  - destruct (analyze_pairs_ok contents (combine (c :: cs) (s :: ss)) st0 (conj L0 S0)) as [[L1 S1] N1].
    unfold set_visibility. cbn [coincidenceBins totalCoincidences currentVisibility].
    split; [rewrite L1, N1; exact N0|]. split; [exact S1|]. apply computeVisibility_unit.
Qed.

Lemma analyzeCoincidences_histogram_total_witness :
  list_sum (coincidenceBins (analyzeCoincidences
    (Folder [Entry "bme_1.bin" true; Entry "wigner_1.bin" true])
    (fun name => if String.eqb name "bme_1.bin" then Some [(100%Z, 0%Z); (200%Z, 1%Z)]
                 else Some [(105%Z, 0%Z); (190%Z, 1%Z)])
    (mkOrchState AnalyzeData 5 36 FullPhase 0%Z (repeat 0%nat 36) 0%nat 0%Z 0))) =
  totalCoincidences (analyzeCoincidences
    (Folder [Entry "bme_1.bin" true; Entry "wigner_1.bin" true])
    (fun name => if String.eqb name "bme_1.bin" then Some [(100%Z, 0%Z); (200%Z, 1%Z)]
                 else Some [(105%Z, 0%Z); (190%Z, 1%Z)])
    (mkOrchState AnalyzeData 5 36 FullPhase 0%Z (repeat 0%nat 36) 0%nat 0%Z 0)).
Proof.
  refine (proj1 (proj2 (analyzeCoincidences_histogram_total _ _ _ _))). reflexivity.
Defined.

End DataProps.

(** ** Which records the noise reduction keeps *)
Section NoiseWindowProps.
Import Bounds NoiseReduc.
Local Open Scope Z_scope.

(** The absolute time of a record, as both passes compute it. *)
Local Notation rtime r := (datapoint_of (fst r) (snd r)).

Lemma datapoint_of_range (w0 w1 : Z) : 0 <= datapoint_of w0 w1 < 2 ^ 64.
Proof. unfold datapoint_of, u64. apply Z.mod_pos_bound. lia. Qed.

(** The delay estimate and [bound_size] cancel in [upper]: the bound of
    an event at [d] is [[max 0 (d - 20000), d]]. *)
Lemma make_bound_window (d : Z) :
  0 <= d < 2 ^ 64 ->
  lower (make_bound d) = Z.max 0 (d - 20000) /\ upper (make_bound d) = d.
Proof.
  intros Hd. unfold make_bound, get_delay_estimate, bound_size, u64. cbn [lower upper].
  split.
  - destruct (Z.ltb_spec (10000 + 10000) d); lia.
  - rewrite Zplus_mod_idemp_l. replace (d - 10000 + 10000) with d by lia.
    apply Z.mod_small. exact Hd.
Qed.

Lemma make_bound_0 : make_bound 0 = bound0.
Proof. reflexivity. Qed.

Lemma nth_map_make_bound (ds : list Z) (i : nat) :
  nth i (map make_bound ds) bound0 = make_bound (nth i ds 0).
Proof. rewrite <- make_bound_0. apply map_nth. Qed.

Lemma sorted_by_upper_make_bound (ds : list Z) :
  Sorted Z.le ds -> Forall (fun d => 0 <= d < 2 ^ 64) ds ->
  sorted_by upper (map make_bound ds) = true.
Proof.
  induction ds as [|a [|b rest] IH]; intros Hs Hr; [reflexivity | reflexivity|].
  apply Sorted_inv in Hs as [Hs Hh]. apply HdRel_inv in Hh.
  pose proof (Forall_inv Hr) as Ha. pose proof (Forall_inv (Forall_inv_tail Hr)) as Hb.
  assert (E : sorted_by upper (map make_bound (a :: b :: rest))
             = (upper (make_bound a) <=? upper (make_bound b))
               && sorted_by upper (map make_bound (b :: rest))) by reflexivity.
  rewrite E.
  rewrite (proj2 (make_bound_window a Ha)), (proj2 (make_bound_window b Hb)).
  apply andb_true_iff. split; [apply Z.leb_le; exact Hh|].
  apply IH; [exact Hs | exact (Forall_inv_tail Hr)].
Qed.

Lemma existsb_false_nth (f : Z -> bool) (ds : list Z) :
  (forall i, (i < length ds)%nat -> f (nth i ds 0) = false) -> existsb f ds = false.
Proof.
  intros H. apply not_true_iff_false. intros Hex.
  apply existsb_exists in Hex as [d [Hin Hd]].
  apply (In_nth ds d 0) in Hin as [i [Hi Hn]]. subst d.
  rewrite (H i Hi) in Hd. discriminate.
Qed.

(** On the bounds of non-decreasing event times, the binary search finds
    [t] in a bound exactly when an event lies in [(t, t + 20000]]. *)
Lemma in_bounds_window (ds : list Z) (t : Z) :
  Sorted Z.le ds -> Forall (fun d => 0 <= d < 2 ^ 64) ds -> 0 <= t ->
  is_target_in_bound (map make_bound ds) (length ds) t
  = existsb (fun d => (t <? d) && (d <=? t + 20000)) ds.
Proof.
  intros Hs Hr Ht.
  pose proof (sorted_by_upper_make_bound ds Hs Hr) as Hu.
  assert (Hrng : forall i, (i < length ds)%nat -> 0 <= nth i ds 0 < 2 ^ 64).
  { intros i Hi. rewrite Forall_forall in Hr. apply Hr, nth_In, Hi. }
  assert (Hup : forall i, (i < length ds)%nat -> upper (nth i (map make_bound ds) bound0) = nth i ds 0).
  { intros i Hi. rewrite nth_map_make_bound. exact (proj2 (make_bound_window _ (Hrng i Hi))). }
  assert (Hlow : forall i, (i < length ds)%nat ->
            lower (nth i (map make_bound ds) bound0) = Z.max 0 (nth i ds 0 - 20000)).
  { intros i Hi. rewrite nth_map_make_bound. exact (proj1 (make_bound_window _ (Hrng i Hi))). }
  assert (Hmono : forall i j, (i <= j < length ds)%nat -> nth i ds 0 <= nth j ds 0).
  { intros i j Hij. rewrite <- (Hup i), <- (Hup j) by lia.
    apply (sorted_by_nth upper (map make_bound ds) Hu). rewrite length_map. lia. }
  destruct (bsearch_spec (map make_bound ds) t Hu (length ds) 0 (length ds)) as [Hlo Hhi];
    [rewrite length_map; lia | lia | intros; lia | intros i Hi; rewrite length_map in Hi; lia |].
  rewrite length_map in Hhi.
  unfold is_target_in_bound.
  remember (bsearch (length ds) (map make_bound ds) t 0 (length ds)) as res eqn:Hres.
  destruct (Nat.ltb_spec res (length ds)) as [Hr'|Hr']; simpl.
  - pose proof (Hhi res ltac:(lia)) as Hres_up. rewrite (Hup res Hr') in Hres_up.
    rewrite (Hup res Hr'), (Hlow res Hr').
    destruct (Z.leb_spec (Z.max 0 (nth res ds 0 - 20000)) t) as [Hl|Hl]; simpl.
    + replace (t <=? nth res ds 0) with true by (symmetry; apply Z.leb_le; lia).
      symmetry. apply existsb_exists. exists (nth res ds 0).
      split; [apply nth_In; exact Hr'|].
      apply andb_true_iff; split; [apply Z.ltb_lt | apply Z.leb_le]; lia.
    + symmetry. apply existsb_false_nth. intros i Hi.
      destruct (Nat.lt_ge_cases i res) as [Hir|Hir].
      * specialize (Hlo i Hir). rewrite (Hup i Hi) in Hlo.
        replace (t <? nth i ds 0) with false by (symmetry; apply Z.ltb_ge; lia). reflexivity.
      * pose proof (Hmono res i ltac:(lia)).
        replace (nth i ds 0 <=? t + 20000) with false by (symmetry; apply Z.leb_gt; lia).
        apply andb_false_r.
  - symmetry. apply existsb_false_nth. intros i Hi.
    specialize (Hlo i ltac:(lia)). rewrite (Hup i Hi) in Hlo.
    replace (t <? nth i ds 0) with false by (symmetry; apply Z.ltb_ge; lia). reflexivity.
Qed.

Lemma pairs_from_records (recs : list (Z * Z)) (i : nat) :
  map (fun p => make_bound (snd p)) (pairs_from (flatten_records recs) i)
  = map (fun r => make_bound (rtime r)) recs.
Proof.
  revert i; induction recs as [|[a b] rs IH]; intros i; [reflexivity|].
  cbn [flatten_records pairs_from map]. rewrite IH. reflexivity.
Qed.

Lemma chunks_bounds_records (cs h : nat) :
  cs = (2 * h)%nat -> (0 < h)%nat ->
  forall fuel recs, (2 * length recs <= fuel)%nat ->
  flat_map (fun ch => map (fun p => make_bound (snd p)) (pairs_from ch 0))
           (chunks fuel cs (flatten_records recs))
  = map (fun r => make_bound (rtime r)) recs.
Proof.
  intros Hcs Hh fuel. induction fuel as [|f IH]; intros recs Hf.
  - destruct recs; simpl in Hf; [reflexivity | lia].
  - destruct recs as [|[a b] rs] eqn:Hr; [reflexivity|]. rewrite <- Hr.
    rewrite chunks_S_nonempty by (subst recs; discriminate).
    cbn [flat_map]. subst cs.
    rewrite firstn_flatten_records, skipn_flatten_records, pairs_from_records.
    rewrite IH by (rewrite length_skipn; rewrite Hr in *; cbn [length] in *; lia).
    rewrite <- map_app, firstn_skipn. reflexivity.
Qed.

(** The first pass writes one bound per record of the smaller file, in
    order, whatever the even chunk size. *)
Lemma build_bounds_records (cs : nat) (recs : list (Z * Z)) :
  Nat.even cs = true -> (0 < cs)%nat ->
  build_bounds cs (length recs) (flatten_records recs)
  = map make_bound (map (fun r => rtime r) recs).
Proof.
  intros Hev Hcs. apply Nat.even_spec in Hev as [h Hh].
  unfold build_bounds, read_chunks.
  rewrite (chunks_bounds_records cs h Hh ltac:(lia)) by (rewrite flatten_records_length; lia).
  rewrite firstn_app, length_map, Nat.sub_diag, firstn_O, app_nil_r, firstn_all2
    by (rewrite length_map; lia).
  rewrite map_map. reflexivity.
Qed.

Lemma size_ltb (a b : nat) : (8 * (2 * a) <? 8 * (2 * b))%nat = (a <? b)%nat.
Proof.
  destruct (Nat.ltb_spec (8 * (2 * a)) (8 * (2 * b))), (Nat.ltb_spec a b);
    first [reflexivity | exfalso; lia].
Qed.

Lemma size_div (n : nat) : (8 * (2 * n) / 8 / 2)%nat = n.
Proof.
  replace (8 * (2 * n))%nat with (n * 2 * 8)%nat by lia.
  rewrite !Nat.div_mul by lia. reflexivity.
Qed.

Lemma filter_in_bounds (recs sm : list (Z * Z)) :
  Sorted Z.le (map (fun r => rtime r) sm) ->
  filter (record_in_bounds (map make_bound (map (fun r => rtime r) sm)) (length sm)) recs
  = filter (fun r => existsb (fun d => (rtime r <? d) && (d <=? rtime r + 20000))
                             (map (fun r => rtime r) sm)) recs.
Proof.
  intros Hs. apply filter_ext. intros r. unfold record_in_bounds.
  rewrite <- (length_map (fun r => rtime r) sm).
  apply in_bounds_window; [exact Hs | | apply datapoint_of_range].
  apply Forall_forall. intros d Hd. apply in_map_iff in Hd as [s [<- _]].
  apply datapoint_of_range.
Qed.

(** X17: with an even chunk size, [noise_reduc_bound] leaves the file
    with fewer records unchanged and keeps, in order, exactly the records
    of the other file whose time [t] has an event [d] of the smaller file
    with [t < d <= t + 20000] (the bounds are [[d - 20000, d]], and the
    search never accepts [t = d]), provided the smaller file's times are
    non-decreasing and both files hold at most 2^31 words (every word
    index fits the [int] element of [marked]).  On a tie the second file
    is both the "larger" and the "smaller" one: it is filtered against its
    own times, and the first file is left unchanged. *)
Theorem noise_reduc_bound_window (cs : nat) (f1 f2 : list (Z * Z)) :
  Nat.even cs = true -> (0 < cs)%nat ->
  Z.of_nat (length (flatten_records f1)) <= 2 ^ 31 ->
  Z.of_nat (length (flatten_records f2)) <= 2 ^ 31 ->
  Sorted Z.le (map (fun r => rtime r) (if (length f1 <? length f2)%nat then f1 else f2)) ->
  noise_reduc_bound cs (flatten_records f1) (flatten_records f2)
  = if (length f2 <? length f1)%nat
    then (flatten_records
            (filter (fun r => existsb (fun d => (rtime r <? d) && (d <=? rtime r + 20000))
                                      (map (fun r => rtime r) f2)) f1),
          flatten_records f2)
    else (flatten_records f1,
          flatten_records
            (filter (fun r => existsb (fun d => (rtime r <? d) && (d <=? rtime r + 20000))
                                      (map (fun r => rtime r)
                                         (if (length f1 <? length f2)%nat then f1 else f2))) f2)).
Proof.
  intros Hev Hcs Hs1 Hs2 Hs. rewrite flatten_records_length in Hs1, Hs2.
  unfold noise_reduc_bound. cbv zeta.
  rewrite !flatten_records_length, !size_ltb.
  destruct (Nat.ltb_spec (length f2) (length f1)) as [B|B].
  - replace (length f1 <? length f2)%nat with false in * by (symmetry; apply Nat.ltb_ge; lia).
    rewrite size_div, build_bounds_records by assumption.
    rewrite delete_marked_records by assumption.
    rewrite filter_in_bounds by exact Hs. reflexivity.
  - destruct (Nat.ltb_spec (length f1) (length f2)) as [A|A].
    + rewrite size_div, build_bounds_records by assumption.
      rewrite delete_marked_records by assumption.
      rewrite filter_in_bounds by exact Hs. reflexivity.
    + rewrite size_div, build_bounds_records by assumption.
      rewrite delete_marked_records by assumption.
      rewrite filter_in_bounds by exact Hs. reflexivity.
Qed.

Lemma noise_reduc_bound_window_witness :
  Nat.even 4 = true /\ (0 < 4)%nat /\
  Z.of_nat (length (flatten_records [(1, 0); (50000, 0); (3, 0)])) <= 2 ^ 31 /\
  Z.of_nat (length (flatten_records [(1, 0); (2, 0)])) <= 2 ^ 31 /\
  Sorted Z.le (map (fun r => rtime r)
                 (if Nat.ltb (length [(1, 0); (50000, 0); (3, 0)]) (length [(1, 0); (2, 0)])
                  then [(1, 0); (50000, 0); (3, 0)] else [(1, 0); (2, 0)])) /\
  noise_reduc_bound 4 (flatten_records [(1, 0); (50000, 0); (3, 0)])
                      (flatten_records [(1, 0); (2, 0)])
  = (flatten_records [(1, 0)], flatten_records [(1, 0); (2, 0)]).
Proof.
  assert (Hs : Sorted Z.le (map (fun r => rtime r)
                 (if Nat.ltb (length [(1, 0); (50000, 0); (3, 0)]) (length [(1, 0); (2, 0)])
                  then [(1, 0); (50000, 0); (3, 0)] else [(1, 0); (2, 0)]))).
  { vm_compute. repeat constructor; discriminate. }
  split; [reflexivity|]. split; [lia|]. split; [simpl; lia|]. split; [simpl; lia|].
  split; [exact Hs|].
  rewrite (noise_reduc_bound_window 4 [(1, 0); (50000, 0); (3, 0)] [(1, 0); (2, 0)]
             eq_refl ltac:(lia) ltac:(simpl; lia) ltac:(simpl; lia) Hs).
  vm_compute. reflexivity.
Defined.

Lemma keep_flat_index (marked : list Z) (g : nat) (ws : list Z) :
  (forall g', binary_search marked g' = existsb (Z.eqb (Z.of_nat g')) marked) ->
  keep_flat marked g ws
  = map snd (filter (fun p => negb (existsb (Z.eqb (Z.of_nat (fst p))) marked))
                    (combine (seq g (length ws)) ws)).
Proof.
  intros Hb. revert g; induction ws as [|w rest IH]; intros g; [reflexivity|].
  cbn [keep_flat length seq combine filter]. rewrite Hb. cbn [fst].
  destruct (existsb (Z.eqb (Z.of_nat g)) marked); simpl; rewrite IH; reflexivity.
Qed.

Lemma existsb_Z_eqb_In (v : Z) (l : list Z) : existsb (Z.eqb v) l = true <-> In v l.
Proof.
  rewrite existsb_exists. split.
  - intros [x [Hin Hx]]. apply Z.eqb_eq in Hx. subst. exact Hin.
  - intros Hin. exists v. split; [exact Hin | apply Z.eqb_refl].
Qed.

(** X18: for a sorted [marked] vector of non-negative [int]s and a
    positive chunk size, [delete_marked_values] rewrites the file with
    exactly the words whose index in the whole file (from 0) is not in
    [marked], in their order: the chunking does not change which words
    are kept, and the [int]/[size_t] comparisons of the search are exact. *)
Theorem delete_marked_values_by_index (cs : nat) (marked : list Z) (ws : list Z) :
  (0 < cs)%nat -> Sorted Z.le marked -> Forall (fun x => 0 <= x < 2 ^ 31) marked ->
  delete_marked_values cs marked ws
  = map snd (filter (fun p => negb (existsb (Z.eqb (Z.of_nat (fst p))) marked))
                    (combine (seq 0 (length ws)) ws)).
Proof.
  intros Hcs Hs Hr. unfold delete_marked_values, read_chunks.
  rewrite (keep_chunks_flat marked cs Hcs (length ws) ws 0 (le_n _)).
  apply keep_flat_index. intros g. apply eq_true_iff_eq.
  rewrite existsb_Z_eqb_In. apply binary_search_In; assumption.
Qed.

Lemma delete_marked_values_by_index_witness :
  (0 < 2)%nat /\ Sorted Z.le [1; 2; 4] /\ Forall (fun x => 0 <= x < 2 ^ 31) [1; 2; 4] /\
  delete_marked_values 2 [1; 2; 4] [10; 11; 12; 13; 14; 15] = [10; 13; 15].
Proof.
  assert (Hs : Sorted Z.le [1; 2; 4]) by (repeat constructor; lia).
  assert (Hr : Forall (fun x => 0 <= x < 2 ^ 31) [1; 2; 4]) by (repeat constructor; lia).
  split; [lia|]. split; [exact Hs|]. split; [exact Hr|].
  rewrite (delete_marked_values_by_index 2 [1; 2; 4] [10; 11; 12; 13; 14; 15]
             ltac:(lia) Hs Hr).
  reflexivity.
Defined.

End NoiseWindowProps.

(** ** Noise reduction past the [int] range of [marked] *)
Section NoiseReducIntOverflow.
Import Bounds NoiseReduc.
Local Open Scope Z_scope.

Lemma flatten_records_app (l1 l2 : list (Z * Z)) :
  flatten_records (l1 ++ l2) = flatten_records l1 ++ flatten_records l2.
Proof. induction l1 as [|[a b] l1 IH]; simpl; [reflexivity|]. rewrite IH. reflexivity. Qed.

Lemma record_marks_repeat_in (bounds : list Bound) (n base k : nat) (r : Z * Z) :
  record_in_bounds bounds n r = true -> record_marks bounds n base (repeat r k) = [].
Proof.
  intros H. revert base; induction k as [|k IH]; intros base; [reflexivity|].
  cbn [repeat record_marks]. rewrite H, IH. reflexivity.
Qed.

Lemma int_of_size_wrap (m : nat) : Z.of_nat m = 2 ^ 31 -> int_of_size m = - 2 ^ 31.
Proof. intros H. unfold int_of_size. rewrite H. reflexivity. Qed.

Lemma int_of_size_wrap1 (m : nat) : Z.of_nat m = 2 ^ 31 + 1 -> int_of_size m = - 2 ^ 31 + 1.
Proof. intros H. unfold int_of_size. rewrite H. reflexivity. Qed.

Lemma overflow_marks (k : nat) :
  record_marks [mkBound 0 20000] 1 0
    ([(5, 0); (5, 0); (30000, 0); (5, 0)] ++ repeat (5, 0) k ++ [(30000, 0)])
  = [4; 5; 8 + 2 * k; 8 + 2 * k + 1]%nat.
Proof.
  rewrite record_marks_app, record_marks_app, (record_marks_repeat_in [mkBound 0 20000] 1 _ k (5, 0) eq_refl), repeat_length.
  change (record_marks [mkBound 0 20000] 1 0 [(5, 0); (5, 0); (30000, 0); (5, 0)]) with [4; 5]%nat.
  cbn [record_marks app].
  change (record_in_bounds [mkBound 0 20000] 1 (30000, 0)) with false. cbn [app].
  replace (0 + 2 * length [(5, 0); (5, 0); (30000, 0); (5, 0)] + 2 * k)%nat with (8 + 2 * k)%nat
    by (cbn [length]; lia).
  reflexivity.
Qed.

Lemma overflow_prefix (k : nat) (big : list (Z * Z)) :
  big = [(5, 0); (5, 0); (30000, 0); (5, 0)] ++ repeat (5, 0) k ++ [(30000, 0)] ->
  Z.of_nat k = 2 ^ 30 - 4 ->
  firstn 6 (fst (noise_reduc_bound 100000 (flatten_records big) (flatten_records [(20000, 0)])))
  = [5; 0; 5; 0; 30000; 5].
Proof.
  intros Hbig Hk.
  assert (Lb : length big = (5 + k)%nat)
    by (subst big; rewrite !length_app, repeat_length; cbn [length]; lia).
  unfold noise_reduc_bound. cbv zeta.
  rewrite !flatten_records_length, !size_ltb, Lb.
  change (length [(20000, 0)]) with 1%nat.
  replace (1 <? 5 + k)%nat with true by (symmetry; apply Nat.ltb_lt; lia).
  replace (5 + k <? 1)%nat with false by (symmetry; apply Nat.ltb_ge; lia).
  cbv beta iota. rewrite size_div.
  replace (build_bounds 100000 1 (flatten_records [(20000, 0)])) with [mkBound 0 20000]
    by (vm_compute; reflexivity).
  unfold read_chunks.
  rewrite (mark_chunks_records _ 1 100000 50000 eq_refl ltac:(apply Nat.ltb_lt; reflexivity))
    by (rewrite flatten_records_length; lia).
  rewrite Nat.mul_0_l, Hbig, overflow_marks.
  cbn [map].
  rewrite (int_of_size_wrap (8 + 2 * k)) by lia.
  rewrite (int_of_size_wrap1 (8 + 2 * k + 1)) by lia.
  change (int_of_size 4) with 4. change (int_of_size 5) with 5.
  change (ZSort.sort [4; 5; - 2 ^ 31; - 2 ^ 31 + 1]) with [- 2 ^ 31; - 2 ^ 31 + 1; 4; 5].
  unfold delete_marked_values, read_chunks.
  rewrite (keep_chunks_flat _ 100000 ltac:(apply Nat.ltb_lt; reflexivity) _ _ 0 (le_n _)).
  rewrite Nat.mul_0_l, flatten_records_app, keep_flat_app.
  change (keep_flat [- 2 ^ 31; - 2 ^ 31 + 1; 4; 5] 0
            (flatten_records [(5, 0); (5, 0); (30000, 0); (5, 0)]))
    with [5; 0; 5; 0; 30000; 5; 0].
  reflexivity.
Qed.

(** C5 (code_bug): the claim that every output file is an
    order-preserving subsequence of whole input records fails once a file
    reaches 2^31 words.  [marked] is a [std::vector<int>]: the indices
    2^31 and 2^31 + 1 of the last record (time 30000, outside the bound
    [[0, 20000]] of the one-record smaller file) are stored as -2^31 and
    -2^31 + 1 and sort before 4 and 5, the marked words of record 2.  The
    libstdc++ search then converts the negative [int]s to huge [size_t]s,
    so it misses index 4 and finds index 5: with the chunk size 100000 of
    the callers, word 4 (30000) of record 2 is kept while word 5 is
    deleted, and the output is no sequence of whole input records. *)
Theorem noise_reduc_bound_splits_record :
  firstn 6 (fst (noise_reduc_bound 100000
     (flatten_records ([(5, 0); (5, 0); (30000, 0); (5, 0)] ++ repeat (5, 0) (Z.to_nat (2 ^ 30 - 4))
                       ++ [(30000, 0)]))
     (flatten_records [(20000, 0)])))
  = [5; 0; 5; 0; 30000; 5] /\
  ~ exists r1 r2,
      subseq r1 ([(5, 0); (5, 0); (30000, 0); (5, 0)] ++ repeat (5, 0) (Z.to_nat (2 ^ 30 - 4))
                 ++ [(30000, 0)]) /\
      subseq r2 [(20000, 0)] /\
      noise_reduc_bound 100000
        (flatten_records ([(5, 0); (5, 0); (30000, 0); (5, 0)] ++ repeat (5, 0) (Z.to_nat (2 ^ 30 - 4))
                          ++ [(30000, 0)]))
        (flatten_records [(20000, 0)])
      = (flatten_records r1, flatten_records r2).
Proof.
  pose proof (overflow_prefix (Z.to_nat (2 ^ 30 - 4)) _ eq_refl
                ltac:(rewrite Z2Nat.id; [reflexivity | lia])) as H.
  split; [exact H|]. intros [r1 [r2 [S1 [_ E]]]].
  rewrite E in H. cbn [fst] in H. clear E.
  destruct r1 as [|[a1 b1] [|[a2 b2] [|[a3 b3] r]]]; cbn in H; try discriminate.
  injection H as _ _ _ _ -> ->.
  apply (subseq_In _ _ (30000, 5)) in S1; [| right; right; left; reflexivity].
  apply in_app_iff in S1 as [S1|S1].
  - simpl in S1. repeat destruct S1 as [S1|S1]; try discriminate. contradiction.
  - apply in_app_iff in S1 as [S1|S1].
    + apply repeat_spec in S1. discriminate.
    + destruct S1 as [S1|[]]. discriminate.
Qed.

End NoiseReducIntOverflow.

(** ** Timestamps loaded from a station file *)
Section LoadProps.
Import Orchestrator.
Local Open Scope Z_scope.

Lemma to_int64_small (z : Z) : 0 <= z < 2 ^ 63 -> to_int64 z = z.
Proof.
  intros H. unfold to_int64. destruct (Z.ltb_spec z (2 ^ 63)); [reflexivity | lia].
Qed.

(** X19: when the records of an opened file have [picosec < 10^12], are
    in the order of [(refSec, picosec)], and their absolute time
    [picosec + refSec * 10^12] stays below 2^63 (no signed overflow),
    [loadTimestampsFromFile] returns non-decreasing timestamps, as
    [findCoincidences] expects them. *)
Theorem loadTimestampsFromFile_sorted (contents : String.string -> option (list (Z * Z)))
  (name : String.string) (recs : list (Z * Z)) :
  contents name = Some recs ->
  Forall (fun r => 0 <= fst r < 10 ^ 12 /\ 0 <= snd r /\
                   fst r + snd r * 1000000000000 < 2 ^ 63) recs ->
  Sorted (fun r s => snd r < snd s \/ (snd r = snd s /\ fst r <= fst s)) recs ->
  Sorted Z.le (loadTimestampsFromFile contents name).
Proof.
  intros Hc Hr Hs. unfold loadTimestampsFromFile. rewrite Hc.
  assert (Ht : forall r, 0 <= fst r < 10 ^ 12 /\ 0 <= snd r /\
                         fst r + snd r * 1000000000000 < 2 ^ 63 ->
                 to_int64 (fst r) + to_int64 (snd r) * 1000000000000
                 = fst r + snd r * 1000000000000).
  { intros r (H1 & H2 & H3). rewrite !to_int64_small by lia. reflexivity. }
  clear Hc. revert Hr.
  induction Hs as [|r rest Hs IH Hh]; intros Hr; cbn [map]; [constructor|].
  pose proof (Forall_inv Hr) as Hr0. pose proof (Forall_inv_tail Hr) as Hrt.
  constructor; [exact (IH Hrt)|].
  destruct Hh as [|s rest' Hrs]; cbn [map]; constructor.
  pose proof (Forall_inv Hrt) as Hs0.
  rewrite (Ht r Hr0), (Ht s Hs0).
  destruct Hr0 as (A1 & A2 & A3), Hs0 as (B1 & B2 & B3).
  destruct Hrs as [Hlt | [Heq Hle]].
  - nia.
  - rewrite Heq. lia.
Qed.

Lemma loadTimestampsFromFile_sorted_witness :
  (fun (name : String.string) => Some [(5, 0); (999999999999, 0); (3, 1)]) "a.bin"%string
    = Some [(5, 0); (999999999999, 0); (3, 1)] /\
  Forall (fun r => 0 <= fst r < 10 ^ 12 /\ 0 <= snd r /\
                   fst r + snd r * 1000000000000 < 2 ^ 63)
         [(5, 0); (999999999999, 0); (3, 1)] /\
  Sorted (fun r s => snd r < snd s \/ (snd r = snd s /\ fst r <= fst s))
         [(5, 0); (999999999999, 0); (3, 1)] /\
  Sorted Z.le (loadTimestampsFromFile
                 (fun _ => Some [(5, 0); (999999999999, 0); (3, 1)]) "a.bin"%string).
Proof.
  assert (Hf : Forall (fun r => 0 <= fst r < 10 ^ 12 /\ 0 <= snd r /\
                                fst r + snd r * 1000000000000 < 2 ^ 63)
                      [(5, 0); (999999999999, 0); (3, 1)])
    by (repeat constructor; cbn; lia).
  assert (Hs : Sorted (fun r s => snd r < snd s \/ (snd r = snd s /\ fst r <= fst s))
                      [(5, 0); (999999999999, 0); (3, 1)])
    by (repeat constructor; cbn; lia).
  split; [reflexivity|]. split; [exact Hf|]. split; [exact Hs|].
  exact (loadTimestampsFromFile_sorted (fun _ => Some [(5, 0); (999999999999, 0); (3, 1)])
           "a.bin"%string _ eq_refl Hf Hs).
Defined.

End LoadProps.

(** ** One step of the QWP scan *)
Section AdjustProps.
Import Orchestrator Machine.

Lemma adjust_init_skip (m : Machine) :
  qwpTestAngles m <> [] ->
  (if (qwpTestIndex m =? 0)%nat && match qwpTestAngles m with [] => true | _ => false end
   then initializeQWPScan m (qwpPhase m =? 1)%Z else m) = m.
Proof.
  intros Hne. destruct (qwpTestAngles m); [contradiction|]. rewrite andb_false_r. reflexivity.
Qed.

Lemma adjust_rotate (m : Machine) :
  (qwpTestIndex m < length (qwpTestAngles m))%nat ->
  stepAdjustQWP m =
  (set_currentStep (set_qwpCurrentAngle m
     (if (qwpSideIndex m =? 0)%Z
      then (nth (qwpTestIndex m) (qwpTestAngles m) 0, snd (qwpCurrentAngle m))
      else (fst (qwpCurrentAngle m), nth (qwpTestIndex m) (qwpTestAngles m) 0))) MeasureWithQWP,
   CmdRotate (getQWPDeviceName m) (nth (qwpTestIndex m) (qwpTestAngles m) 0)).
Proof.
  intros Hi. unfold stepAdjustQWP.
  rewrite adjust_init_skip by (intros E; rewrite E in Hi; cbn in Hi; lia).
  assert (Hc : isQWPScanComplete m = false) by (apply Nat.leb_gt; exact Hi).
  rewrite Hc. reflexivity.
Qed.

(** X20: [stepAdjustQWP] with the scan under way rotates the QWP of the
    side being optimised (["bme4"] on side 0, ["wigner4"] otherwise) to the
    test angle at [qwpTestIndex], records it as that side's current angle
    (the other side's is kept) and moves to [MeasureWithQWP], leaving the
    scan itself as it is; with every test angle measured it only moves to
    [ProcessQWPResults]; and before the scan has started (index 0, no
    angles) it first lays out the scan, fine (9 angles) in phase 1 and
    coarse (11) otherwise, so that the first rotation goes to the side's
    current angle minus 2 or minus 10 degrees. *)
Theorem stepAdjustQWP_scan (m : Machine) :
  ((qwpTestIndex m < length (qwpTestAngles m))%nat ->
     currentStep (core (fst (stepAdjustQWP m))) = MeasureWithQWP /\
     snd (stepAdjustQWP m)
       = CmdRotate (getQWPDeviceName m) (nth (qwpTestIndex m) (qwpTestAngles m) 0) /\
     current_side_angle (fst (stepAdjustQWP m)) = nth (qwpTestIndex m) (qwpTestAngles m) 0 /\
     (if (qwpSideIndex m =? 0)%Z
      then snd (qwpCurrentAngle (fst (stepAdjustQWP m))) = snd (qwpCurrentAngle m)
      else fst (qwpCurrentAngle (fst (stepAdjustQWP m))) = fst (qwpCurrentAngle m)) /\
     qwpTestIndex (fst (stepAdjustQWP m)) = qwpTestIndex m /\
     qwpTestAngles (fst (stepAdjustQWP m)) = qwpTestAngles m /\
     qwpTestVisibilities (fst (stepAdjustQWP m)) = qwpTestVisibilities m) /\
  (qwpTestAngles m <> [] -> (length (qwpTestAngles m) <= qwpTestIndex m)%nat ->
     stepAdjustQWP m = (set_currentStep m ProcessQWPResults, CmdText "no_command")) /\
  (qwpTestIndex m = 0%nat -> qwpTestAngles m = [] ->
     currentStep (core (fst (stepAdjustQWP m))) = MeasureWithQWP /\
     length (qwpTestAngles (fst (stepAdjustQWP m))) = (if (qwpPhase m =? 1)%Z then 9 else 11)%nat /\
     exists a, snd (stepAdjustQWP m) = CmdRotate (getQWPDeviceName m) a /\
       a == current_side_angle m - (if (qwpPhase m =? 1)%Z then QWP_FINE_RANGE else QWP_COARSE_RANGE) /\
       current_side_angle (fst (stepAdjustQWP m)) = a).
Proof.
  split; [|split].
  - intros Hi. rewrite (adjust_rotate m Hi).
    unfold set_currentStep, set_core, set_step, set_qwpCurrentAngle, current_side_angle.
    cbn [fst snd core currentStep qwpSideIndex qwpCurrentAngle qwpTestIndex qwpTestAngles
         qwpTestVisibilities].
    destruct (qwpSideIndex m =? 0)%Z; cbn [fst snd]; repeat split.
  - intros Hne Hle. unfold stepAdjustQWP. rewrite adjust_init_skip by exact Hne.
    assert (Hc : isQWPScanComplete m = true) by (apply Nat.leb_le; exact Hle).
    rewrite Hc. reflexivity.
  - intros H0 He.
    set (fine := (qwpPhase m =? 1)%Z).
    set (m1 := initializeQWPScan m fine).
    assert (Hs : stepAdjustQWP m = stepAdjustQWP m1).
    { unfold stepAdjustQWP at 1. rewrite H0, He. cbn [Nat.eqb andb].
      fold fine. fold m1.
      destruct (initializeQWPScan_fields m fine) as (I1 & _ & L1 & _).
      fold m1 in I1, L1.
      unfold stepAdjustQWP.
      rewrite adjust_init_skip
        by (intros E; rewrite E in L1; destruct fine; discriminate).
      reflexivity. }
    destruct (initializeQWPScan_fields m fine) as (I1 & _ & L1 & S1 & _).
    fold m1 in I1, L1, S1.
    assert (Hlt : (qwpTestIndex m1 < length (qwpTestAngles m1))%nat)
      by (rewrite I1, L1; destruct fine; lia).
    rewrite Hs, (adjust_rotate m1 Hlt).
    unfold set_currentStep, set_core, set_step, set_qwpCurrentAngle.
    cbn [fst snd core currentStep qwpTestAngles].
    split; [reflexivity|]. split; [exact L1|].
    exists (nth (qwpTestIndex m1) (qwpTestAngles m1) 0).
    split; [unfold getQWPDeviceName; rewrite S1; reflexivity|]. split.
    + rewrite I1. unfold m1, initializeQWPScan, set_scan. cbn [qwpTestAngles].
      rewrite scan_loop_first by (destruct fine; reflexivity). cbn [nth].
      destruct fine; reflexivity.
    + unfold current_side_angle. cbn [qwpSideIndex qwpCurrentAngle].
      destruct (qwpSideIndex m1 =? 0)%Z; reflexivity.
Qed.

End AdjustProps.
